(** * rememberme (listme): the scan-and-annotate pipeline of [main.go]

    A shallow embedding of [src/go/src/main.go].  Go strings and byte
    slices are [string]s (sequences of 8-bit [ascii] bytes), Go [int] and
    [int64] are [Z] with the 64-bit wrap-around written out where the code
    computes on them, slices are [list]s, [(value, error)] results are
    sums, and the goroutines' effects (standard output, the two wait
    groups, the channels, the process working directory) are passed
    explicitly as state.

    Library functions the program calls ([strings], [strconv], [regexp],
    [net/http], [bufio], [os], [lipgloss], [time]) are modelled in their own
    modules; what depends on the machine the program runs on (the file
    system, the [git] subprocess, the terminal renderer, the clock) is a
    field of an environment record. *)

From Stdlib Require Import ZArith List Ascii String Bool Arith Lia.
From Stdlib Require Import Sorting.Sorted.
Import ListNotations.

Local Open Scope string_scope.
Local Open Scope Z_scope.

(* ================================================================== *)
(** ** Go integers *)

Module GoInt.

Definition wrap (bits : Z) (x : Z) : Z :=
  (x + 2 ^ (bits - 1)) mod 2 ^ bits - 2 ^ (bits - 1).

Definition minInt64 : Z := - 2 ^ 63.
Definition maxInt64 : Z := 2 ^ 63 - 1.

Definition inInt64 (x : Z) : Prop := minInt64 <= x <= maxInt64.

(** Go's [int] on the 64-bit targets the program is built for. *)
Definition wrapInt (x : Z) : Z := wrap 64 x.

(** [len(x)] of a string or slice, as a Go [int]. *)
Definition len {A} (l : list A) : Z := Z.of_nat (List.length l).
Definition slen (s : string) : Z := Z.of_nat (String.length s).

End GoInt.

(* ================================================================== *)
(** ** Package [strings] *)

Module Strings.

Definition byteOf (c : ascii) : Z := Z.of_nat (nat_of_ascii c).
Definition byteTo (z : Z) : ascii := ascii_of_nat (Z.to_nat z).

(** [strings.HasPrefix]. *)
Definition HasPrefix (s p : string) : bool := String.prefix p s.

(** [strings.TrimPrefix]. *)
Definition TrimPrefix (s p : string) : string :=
  if HasPrefix s p
  then String.substring (String.length p) (String.length s - String.length p) s
  else s.

(** [strings.Join]. *)
Fixpoint Join (elems : list string) (sep : string) : string :=
  match elems with
  | [] => ""
  | [e] => e
  | e :: rest => e ++ sep ++ Join rest sep
  end.

(** Width in bytes of the white-space rune that starts [s], 0 when [s]
    does not start with one.  [unicode.IsSpace]: the ASCII bytes
    ['\t' '\n' '\v' '\f' '\r' ' '], U+0085, U+00A0, and the runes of
    category Z and property Pattern_White_Space (U+1680, U+2000..U+200A,
    U+2028, U+2029, U+202F, U+205F, U+3000), in their UTF-8 encoding.
    Every multi-byte encoding starts with a lead byte, so wherever these
    bytes occur they are one rune of the decoder. *)
Definition spaceWidth (s : string) : nat :=
  match s with
  | EmptyString => 0%nat
  | String c0 r0 =>
    let b0 := byteOf c0 in
    if (b0 =? 9) || (b0 =? 10) || (b0 =? 11) || (b0 =? 12) || (b0 =? 13)
       || (b0 =? 32) then 1%nat
    else match r0 with
    | EmptyString => 0%nat
    | String c1 r1 =>
      let b1 := byteOf c1 in
      if (b0 =? 194) && ((b1 =? 133) || (b1 =? 160)) then 2%nat
      else match r1 with
      | EmptyString => 0%nat
      | String c2 _ =>
        let b2 := byteOf c2 in
        if (b0 =? 225) && (b1 =? 154) && (b2 =? 128) then 3%nat
        else if (b0 =? 226) && (b1 =? 128)
                && (((128 <=? b2) && (b2 <=? 138))
                    || (b2 =? 168) || (b2 =? 169) || (b2 =? 175)) then 3%nat
        else if (b0 =? 226) && (b1 =? 129) && (b2 =? 159) then 3%nat
        else if (b0 =? 227) && (b1 =? 128) && (b2 =? 128) then 3%nat
        else 0%nat
      end
    end
  end.

Definition flush (cur : string) : list string :=
  match cur with EmptyString => [] | _ => [cur] end.

(** [strings.Fields]: the maximal runs of non-space runes.  [skip] counts
    the remaining bytes of a white-space rune being stepped over, [cur]
    is the field being collected. *)
Fixpoint fieldsFrom (s : string) (skip : nat) (cur : string) : list string :=
  match s with
  | EmptyString => flush cur
  | String c s' =>
    match skip with
    | S k => fieldsFrom s' k cur
    | O =>
      match spaceWidth s with
      | O => fieldsFrom s' 0 (cur ++ String c EmptyString)
      | S w => flush cur ++ fieldsFrom s' w EmptyString
      end
    end
  end.

Definition Fields (s : string) : list string := fieldsFrom s 0 EmptyString.

(** [strings.Split] for a non-empty separator: [skip] counts the remaining
    bytes of the separator occurrence being stepped over.  (With an empty
    separator Go explodes the string into its UTF-8 sequences; the
    program never does that and the model is not meant for it.) *)
Fixpoint splitFrom (s sep : string) (skip : nat) (cur : string) : list string :=
  match s with
  | EmptyString => [cur]
  | String c s' =>
    match skip with
    | S k => splitFrom s' sep k cur
    | O =>
      if String.prefix sep s
      then cur :: splitFrom s' sep (String.length sep - 1) EmptyString
      else splitFrom s' sep 0 (cur ++ String c EmptyString)
    end
  end.

Definition Split (s sep : string) : list string := splitFrom s sep 0 EmptyString.

(** [strings.Repeat]; a negative count panics ([None]). *)
Definition Repeat (s : string) (count : Z) : option string :=
  if count <? 0 then None
  else Some (String.concat EmptyString (List.repeat s (Z.to_nat count))).

(** The conversion [string(b)] of a byte [b]: the UTF-8 encoding of the
    code point whose number is [b] (one byte below 0x80, two above). *)
Definition stringOfByte (c : ascii) : string :=
  let b := byteOf c in
  if b <? 128 then String c EmptyString
  else String (byteTo (Z.lor 192 (Z.shiftr b 6)))
         (String (byteTo (Z.lor 128 (Z.land b 63))) EmptyString).

End Strings.

(* ================================================================== *)
(** ** Package [strconv] *)

Module Strconv.

Definition digitVal (c : ascii) : option Z :=
  let b := Strings.byteOf c in
  if (48 <=? b) && (b <=? 57) then Some (b - 48) else None.

(** The digits of an unsigned decimal numeral, most significant first. *)
Fixpoint parseDigits (s : string) (acc : Z) : option Z :=
  match s with
  | EmptyString => Some acc
  | String c s' =>
    match digitVal c with
    | Some d => parseDigits s' (10 * acc + d)
    | None => None
    end
  end.

Definition parseUnsigned (s : string) : option Z :=
  match s with
  | EmptyString => None
  | _ => parseDigits s 0
  end.

(** [strconv.ParseInt(s, 10, 64)]: an optional sign and at least one
    decimal digit; a syntax error or a value outside int64 is an error
    ([None]). *)
Definition ParseInt (s : string) : option Z :=
  let '(neg, body) :=
    match s with
    | String "+"%char r => (false, r)
    | String "-"%char r => (true, r)
    | _ => (false, s)
    end in
  match parseUnsigned body with
  | None => None
  | Some un =>
    if negb neg && (GoInt.maxInt64 <? un) then None
    else if neg && (- GoInt.minInt64 <? un) then None
    else Some (if neg then - un else un)
  end.

End Strconv.

(* ================================================================== *)
(** ** The blame reader: [LineBlame], [GitBlame], [truncateName],
       [parseGitBlame] *)

Module Blame.

Definition error := string.

Record LineBlame := mkLineBlame { Author : string; Timestamp : Z }.

Record GitBlame := mkGitBlame { blames : list LineBlame }.

Definition maxAuthorLength : Z := 22.

(** [GitBlame.BlameLine(line int)], returning a line blame or an error. *)
Definition BlameLine (b : GitBlame) (line : Z) : LineBlame + error :=
  let line := GoInt.wrapInt (line - 1) in
  if (line <? 0) || (line >=? GoInt.len (blames b))
  then inr "line out of range"
  else match nth_error (blames b) (Z.to_nat line) with
       | Some lb => inl lb
       | None => inr "index out of range"   (* run-time panic; unreachable *)
       end.

(** The first loop of [truncateName], over the words from the last to
    the first; returns [truncated] in the order it is appended. *)
Fixpoint truncateWords (wordsRev : list string) (totalLen maxLength : Z)
  : list string :=
  match wordsRev with
  | [] => []
  | w :: rest =>
    if totalLen >? maxLength
    then
      match w with
      | String c _ =>
        Strings.stringOfByte c
          :: truncateWords rest (totalLen - (GoInt.slen w - 2)) maxLength
      | EmptyString => []    (* words[i][0] on an empty word panics;
                                 Fields never returns one *)
      end
    else w :: truncateWords rest totalLen maxLength
  end.

(** [truncateName(name, maxLength)]; the second
    loop reverses [truncated] in place. *)
Definition truncateName (name : string) (maxLength : Z) : string :=
  let totalLen := GoInt.slen name in
  let words := Strings.Fields name in
  let truncated := truncateWords (rev words) totalLen maxLength in
  Strings.Join (rev truncated) " ".

(** State of the loop of [parseGitBlame]: the records finished so far and
    the record in progress ([currentBlame], [nil] before the first
    author line). *)
Record parser := mkParser
  { finished : list LineBlame; currentBlame : option LineBlame }.

Definition parseLine (st : parser) (buf : string) : parser :=
  if Strings.HasPrefix buf "author " then
    {| finished := match currentBlame st with
                   | Some cb => finished st ++ [cb]
                   | None => finished st
                   end;
       currentBlame :=
         Some {| Author := truncateName (Strings.TrimPrefix buf "author ")
                                        maxAuthorLength;
                 Timestamp := 0 |} |}
  else if Strings.HasPrefix buf "author-time " then
    match currentBlame st with
    | Some cb =>
      let tsStr := Strings.TrimPrefix buf "author-time " in
      match Strconv.ParseInt tsStr with
      | Some ts =>
        {| finished := finished st;
           currentBlame := Some {| Author := Author cb; Timestamp := ts |} |}
      | None => st
      end
    | None => st
    end
  else st.

Definition initial : parser := {| finished := []; currentBlame := None |}.

(** The records a parser state stands for once the stream ends: the
    record in progress, if any, is appended last. *)
Definition flushed (st : parser) : list LineBlame :=
  match currentBlame st with
  | Some cb => finished st ++ [cb]
  | None => finished st
  end.

(** [parseGitBlame(out, blameChannel)]:
    [out] is the sequence of lines [s.Text()] takes as [s.Scan()] walks
    the stream; the result is the slice sent on [blameChannel]. *)
Definition parseGitBlame (out : list string) : list LineBlame :=
  flushed (fold_left parseLine out initial).

(** *** Notions the properties are stated with *)

Definition isAuthorLine (buf : string) : bool := Strings.HasPrefix buf "author ".
Definition isTimeLine (buf : string) : bool := Strings.HasPrefix buf "author-time ".

(** What [truncateName] puts in the place of a word: the word, or the
    string of its first byte. *)
Definition keptOrInitial (w t : string) : Prop :=
  t = w \/ exists c r, w = String c r /\ t = Strings.stringOfByte c.

(** A byte that starts no white-space rune, and a non-empty word of such
    bytes. *)
Definition startsNoSpace (c : ascii) : bool :=
  negb (existsb (Z.eqb (Strings.byteOf c)) [9; 10; 11; 12; 13; 32; 194; 225; 226; 227]).

Definition plainWord (w : string) : Prop :=
  w <> EmptyString /\ Forall (fun c => startsNoSpace c = true) (list_ascii_of_string w).

End Blame.

(* ================================================================== *)
(** ** Package [regexp]: the syntax the pattern of [parseArgs] is written
       in, and leftmost-first matching with submatches *)

Module Regexp.

(** A byte class is a list of inclusive ranges, possibly negated. *)
Inductive re :=
| Empty
| Lit (c : ascii)
| Class (neg : bool) (ranges : list (Z * Z))
| BeginLine                     (* ^ under (?m) *)
| EndLine                       (* $ under (?m) *)
| BeginText                     (* ^ without (?m) *)
| EndText                       (* $ without (?m) *)
| WordBoundary                  (* \b *)
| NoWordBoundary                (* \B *)
| Cat (r1 r2 : re)
| Alt (r1 r2 : re)
| Star (greedy : bool) (r : re)
| Plus (greedy : bool) (r : re)
| Quest (greedy : bool) (r : re)
| Group (i : nat) (r : re).     (* the i-th capturing group, from 1 *)

Definition spaceClass : list (Z * Z) := [(9, 10); (12, 13); (32, 32)].
Definition digitClass : list (Z * Z) := [(48, 57)].
Definition wordClass : list (Z * Z) := [(48, 57); (65, 90); (95, 95); (97, 122)].

(** *** Parsing ([regexp.Compile]) *)

Record flags := mkFlags { multiLine : bool; dotNL : bool }.

Definition pstate : Type := flags * nat * list ascii.

Definition cat (r1 r2 : re) : re :=
  match r2 with Empty => r1 | _ => Cat r1 r2 end.

Definition isPunct (c : ascii) : bool :=
  let b := Strings.byteOf c in
  ((33 <=? b) && (b <=? 47)) || ((58 <=? b) && (b <=? 64))
  || ((91 <=? b) && (b <=? 96)) || ((123 <=? b) && (b <=? 126)).

(** A Perl class escape [\s], [\d], [\w]. *)
Definition perlClass (c : ascii) : option (list (Z * Z)) :=
  match c with
  | "s"%char => Some spaceClass
  | "d"%char => Some digitClass
  | "w"%char => Some wordClass
  | _ => None
  end.

(** The items of a bracket expression up to the closing bracket. *)
Fixpoint parseClassItems (fuel : nat) (s : list ascii) (acc : list (Z * Z))
  : option (list (Z * Z) * list ascii) :=
  match fuel with
  | O => None
  | S f =>
    match s with
    | [] => None
    | "]"%char :: s' => Some (acc, s')
    | "\"%char :: c :: s' =>
      match perlClass c with
      | Some rs => parseClassItems f s' (acc ++ rs)
      | None =>
        if isPunct c
        then parseClassItems f s' (acc ++ [(Strings.byteOf c, Strings.byteOf c)])
        else None
      end
    | lo :: "-"%char :: hi :: s' =>
      if Ascii.eqb hi "]"%char
      then parseClassItems f ("-"%char :: hi :: s')
             (acc ++ [(Strings.byteOf lo, Strings.byteOf lo)])
      else if Strings.byteOf lo <=? Strings.byteOf hi
      then parseClassItems f s' (acc ++ [(Strings.byteOf lo, Strings.byteOf hi)])
      else None
    | c :: s' =>
      parseClassItems f s' (acc ++ [(Strings.byteOf c, Strings.byteOf c)])
    end
  end.

(** A group's flag letters, up to the closing parenthesis. *)
Fixpoint parseFlags (s : list ascii) (fl : flags) : option (flags * list ascii) :=
  match s with
  | "m"%char :: s' => parseFlags s' (mkFlags true (dotNL fl))
  | "s"%char :: s' => parseFlags s' (mkFlags (multiLine fl) true)
  | ")"%char :: s' => Some (fl, s')
  | _ => None
  end.

(** The repetition operator after an atom, and its non-greedy mark. *)
Definition parseSuffix (r : re) (s : list ascii) : option (re * list ascii) :=
  let lazy (s' : list ascii) : bool * list ascii :=
    match s' with
    | "?"%char :: s'' => (false, s'')
    | _ => (true, s')
    end in
  let '(r', s1, repeated) :=
    match s with
    | "*"%char :: s' => let '(g, s'') := lazy s' in (Star g r, s'', true)
    | "+"%char :: s' => let '(g, s'') := lazy s' in (Plus g r, s'', true)
    | "?"%char :: s' => let '(g, s'') := lazy s' in (Quest g r, s'', true)
    | _ => (r, s, false)
    end in
  match repeated, s1 with
  | true, ("*"%char :: _ | "+"%char :: _ | "?"%char :: _) =>
    None                        (* invalid nested repetition operator *)
  | _, "{"%char :: _ => None    (* counted repetition: not needed here *)
  | _, _ => Some (r', s1)
  end.

Fixpoint parseAlt (fuel : nat) (st : pstate) : option (re * pstate) :=
  match fuel with
  | O => None
  | S f =>
    match parseCat f st with
    | None => None
    | Some (r1, (fl1, ng1, s1)) =>
      match s1 with
      | "|"%char :: s2 =>
        match parseAlt f (fl1, ng1, s2) with
        | Some (r2, st2) => Some (Alt r1 r2, st2)
        | None => None
        end
      | _ => Some (r1, (fl1, ng1, s1))
      end
    end
  end
with parseCat (fuel : nat) (st : pstate) : option (re * pstate) :=
  match fuel with
  | O => None
  | S f =>
    match st with
    | (_, _, []) | (_, _, "|"%char :: _) | (_, _, ")"%char :: _) =>
      Some (Empty, st)
    | _ =>
      match parseAtom f st with
      | None => None
      | Some (r0, (fl1, ng1, s1)) =>
        match parseSuffix r0 s1 with
        | None => None
        | Some (r1, s2) =>
          match parseCat f (fl1, ng1, s2) with
          | Some (r2, st2) => Some (cat r1 r2, st2)
          | None => None
          end
        end
      end
    end
  end
with parseAtom (fuel : nat) (st : pstate) : option (re * pstate) :=
  match fuel with
  | O => None
  | S f =>
    let '(fl, ng, s) := st in
    match s with
    | [] => None
    | "("%char :: "?"%char :: ":"%char :: s' =>
      match parseAlt f (fl, ng, s') with
      | Some (r, (_, ng', ")"%char :: s'')) => Some (r, (fl, ng', s''))
      | _ => None
      end
    | "("%char :: "?"%char :: s' =>
      match parseFlags s' fl with
      | Some (fl', s'') => Some (Empty, (fl', ng, s''))
      | None => None
      end
    | "("%char :: s' =>
      match parseAlt f (fl, S ng, s') with
      | Some (r, (_, ng', ")"%char :: s'')) => Some (Group (S ng) r, (fl, ng', s''))
      | _ => None
      end
    | "["%char :: "^"%char :: s' =>
      match parseClassItems (S (List.length s')) s' [] with
      | Some (rs, s'') => Some (Class true rs, (fl, ng, s''))
      | None => None
      end
    | "["%char :: s' =>
      match parseClassItems (S (List.length s')) s' [] with
      | Some (rs, s'') => Some (Class false rs, (fl, ng, s''))
      | None => None
      end
    | "\"%char :: c :: s' =>
      match perlClass c with
      | Some rs => Some (Class false rs, (fl, ng, s'))
      | None =>
        if Ascii.eqb c "b"%char then Some (WordBoundary, (fl, ng, s'))
        else if Ascii.eqb c "B"%char then Some (NoWordBoundary, (fl, ng, s'))
        else if isPunct c then Some (Lit c, (fl, ng, s'))
        else None
      end
    | "."%char :: s' =>
      Some (if dotNL fl then Class true [] else Class true [(10, 10)], (fl, ng, s'))
    | "^"%char :: s' =>
      Some (if multiLine fl then BeginLine else BeginText, (fl, ng, s'))
    | "$"%char :: s' =>
      Some (if multiLine fl then EndLine else EndText, (fl, ng, s'))
    | "*"%char :: _ | "+"%char :: _ | "?"%char :: _ | ")"%char :: _
    | "|"%char :: _ | "{"%char :: _ | "\"%char :: _ =>
      None
    | c :: s' =>
      if Strings.byteOf c <? 128 then Some (Lit c, (fl, ng, s')) else None
    end
  end.

(** [regexp.Compile]: [None] is a syntax error (or syntax the program's
    pattern does not use). *)
Definition Compile (expr : string) : option re :=
  let s := list_ascii_of_string expr in
  match parseAlt (4 * List.length s + 4) (mkFlags false false, O, s) with
  | Some (r, (_, _, [])) => Some r
  | _ => None
  end.

(** [NumSubexp]. *)
Fixpoint NumSubexp (r : re) : nat :=
  match r with
  | Cat a b | Alt a b => Nat.max (NumSubexp a) (NumSubexp b)
  | Star _ a | Plus _ a | Quest _ a => NumSubexp a
  | Group i a => Nat.max i (NumSubexp a)
  | _ => O
  end.

(** *** Matching

    The matcher walks the bytes of the text.  (Go decodes UTF-8 and lets
    a class consume a rune; the classes and literals of the program's
    pattern are ASCII, and between the bytes of one rune no ASCII literal,
    line end or text end can match, so the submatches are the same.) *)

Record mstate := mkMstate
  { prev : option ascii;            (* the byte before the position *)
    pos : nat;                      (* the position, in bytes *)
    rest : list ascii;              (* the bytes from the position on *)
    caps : list (nat * (nat * nat)) (* submatches set so far, latest first *)
  }.

Definition inRanges (rs : list (Z * Z)) (c : ascii) : bool :=
  existsb (fun r => (fst r <=? Strings.byteOf c) && (Strings.byteOf c <=? snd r)) rs.

Definition isWordByte (o : option ascii) : bool :=
  match o with Some c => inRanges wordClass c | None => false end.

Definition atWordBoundary (st : mstate) : bool :=
  xorb (isWordByte (prev st)) (isWordByte (hd_error (rest st))).

Definition isNL (o : option ascii) : bool :=
  match o with Some c => Strings.byteOf c =? 10 | None => false end.

Definition isNone {A} (o : option A) : bool :=
  match o with None => true | Some _ => false end.

(** Consume one byte that satisfies [p]. *)
Definition eat (p : ascii -> bool) (st : mstate) (k : mstate -> option mstate)
  : option mstate :=
  match rest st with
  | c :: cs => if p c then k (mkMstate (Some c) (S (pos st)) cs (caps st)) else None
  | [] => None
  end.

Definition check (b : bool) (st : mstate) (k : mstate -> option mstate)
  : option mstate :=
  if b then k st else None.

Definition orElse (a b : option mstate) : option mstate :=
  match a with Some x => Some x | None => b end.

(** The loop of a repetition whose body is run by [body]: at each round
    a greedy operator first tries one more iteration, a non-greedy one
    first tries to go on with [k].  An iteration that consumes nothing is
    not repeated, so the number of rounds is bounded by the bytes left. *)
Fixpoint repeatLoop (body : mstate -> (mstate -> option mstate) -> option mstate)
         (greedy : bool) (k : mstate -> option mstate) (fuel : nat) (st : mstate)
  : option mstate :=
  match fuel with
  | O => k st
  | S f =>
    let more :=
      body st (fun st' =>
        if (List.length (rest st') <? List.length (rest st))%nat
        then repeatLoop body greedy k f st' else None) in
    if greedy then orElse more (k st) else orElse (k st) more
  end.

(** A backtracking matcher in continuation-passing style: the first
    alternative, the longer repetition of a greedy operator and the
    shorter one of a non-greedy operator are tried first, which is the
    leftmost-first order of Go's [regexp]. *)
Fixpoint run (r : re) (st : mstate) (k : mstate -> option mstate) {struct r}
  : option mstate :=
  match r with
  | Empty => k st
  | Lit c => eat (Ascii.eqb c) st k
  | Class neg rs => eat (fun c => xorb neg (inRanges rs c)) st k
  | BeginLine => check (isNone (prev st) || isNL (prev st)) st k
  | EndLine => check (isNone (hd_error (rest st)) || isNL (hd_error (rest st))) st k
  | BeginText => check (isNone (prev st)) st k
  | EndText => check (isNone (hd_error (rest st))) st k
  | WordBoundary => check (atWordBoundary st) st k
  | NoWordBoundary => check (negb (atWordBoundary st)) st k
  | Cat a b => run a st (fun st' => run b st' k)
  | Alt a b => orElse (run a st k) (run b st k)
  | Star g a => repeatLoop (run a) g k (S (List.length (rest st))) st
  | Plus g a =>
    run a st (fun st' => repeatLoop (run a) g k (S (List.length (rest st'))) st')
  | Quest g a =>
    if g then orElse (run a st k) (k st) else orElse (k st) (run a st k)
  | Group i a =>
    run a st (fun st' =>
      k (mkMstate (prev st') (pos st') (rest st')
                  ((i, (pos st, pos st')) :: caps st')))
  end.

(** The leftmost match: the first start position, from the left, at
    which the expression matches. *)
Fixpoint search (r : re) (prv : option ascii) (p : nat) (s : list ascii)
  : option (nat * mstate) :=
  match run r (mkMstate prv p s []) (fun st => Some st) with
  | Some st => Some (p, st)
  | None =>
    match s with
    | [] => None
    | c :: s' => search r (Some c) (S p) s'
    end
  end.

Fixpoint lookupCap (i : nat) (cs : list (nat * (nat * nat))) : option (nat * nat) :=
  match cs with
  | [] => None
  | (j, se) :: cs' => if Nat.eqb i j then Some se else lookupCap i cs'
  end.

Definition slice (b : string) (s e : nat) : string :=
  String.substring s (e - s) b.

(** [FindSubmatch]: [nil] without a match, otherwise the text of the
    match followed by the text of each of the [NumSubexp] groups (empty
    for a group that took no part). *)
Definition FindSubmatch (r : re) (b : string) : list string :=
  match search r None O (list_ascii_of_string b) with
  | None => []
  | Some (start, st) =>
    slice b start (pos st)
      :: map (fun i => match lookupCap i (caps st) with
                       | Some (s, e) => slice b s e
                       | None => EmptyString
                       end)
             (seq 1 (NumSubexp r))
  end.

(** *** The language of an expression

    The byte strings an expression can consume, whatever its assertions
    and its submatches: what [run] is sound for. *)

Inductive iter (P : list ascii -> Prop) : list ascii -> Prop :=
| iter_nil : iter P []
| iter_cons (u v : list ascii) : P u -> iter P v -> iter P (u ++ v).

Fixpoint lang (r : re) (w : list ascii) : Prop :=
  match r with
  | Empty | BeginLine | EndLine | BeginText | EndText
  | WordBoundary | NoWordBoundary => w = []
  | Lit c => w = [c]
  | Class neg rs => exists c, w = [c] /\ xorb neg (inRanges rs c) = true
  | Cat a b => exists u v, w = (u ++ v)%list /\ lang a u /\ lang b v
  | Alt a b => lang a w \/ lang b w
  | Star _ a => iter (lang a) w
  | Plus _ a => exists u v, w = (u ++ v)%list /\ lang a u /\ iter (lang a) v
  | Quest _ a => w = [] \/ lang a w
  | Group _ a => lang a w
  end.

(** The continuation of a successful run was entered after some bytes of
    the language of the expression were consumed. *)
Definition soundFor (P : list ascii -> Prop)
  (body : mstate -> (mstate -> option mstate) -> option mstate) : Prop :=
  forall st k res, body st k = Some res ->
    exists w st', rest st = (w ++ rest st')%list /\ P w /\ k st' = Some res.

End Regexp.

(* ================================================================== *)
(** ** The marker pattern: [tags], [parseArgs] *)

Module Marker.

Definition tags : list string :=
  ["BUG"; "FIXME"; "XXX"; "TODO"; "HACK"; "OPTIMIZE"; "NOTE"].

(** Three double quotes, as they stand in the raw string of the source. *)
Definition q3 : string :=
  let q := ascii_of_nat 34 in String q (String q (String q EmptyString)).

(** The format string of [parseArgs] around its only verb [%s]. *)
Definition patternHead : string :=
  "(?m)(?:^|\s*(?:(?:#+|//+|<!--|--|/*|" ++ q3 ++ "|''')+\s*)+)\s*(?:^|\b)(".
Definition patternTail : string :=
  ")[\s:;-]+(.+?)(?:$|-->|#}}|\*/|--}}|}}|#+|#}|" ++ q3 ++ "|''')*$".

(** [parseArgs(flagArgs)]: the pattern and the path; without an argument
    [log.Fatal] ends the process ([None]). *)
Definition parseArgs (flagArgs : list string) : option (string * string) :=
  match flagArgs with
  | [] => None
  | path :: _ =>
    let tags_regex := patternHead ++ Strings.Join tags "|" ++ patternTail in
    Some (tags_regex, path)
  end.

(** The expression [main] compiles, for any path argument, and what
    [regexp.Compile] makes of it. *)
Definition query : string := patternHead ++ Strings.Join tags "|" ++ patternTail.

Definition compiled : option Regexp.re := Eval vm_compute in Regexp.Compile query.

(** *** Notions the properties are stated with *)

Fixpoint prefixb (p s : list ascii) : bool :=
  match p, s with
  | [], _ => true
  | c :: p', d :: s' => Ascii.eqb c d && prefixb p' s'
  | _ :: _, [] => false
  end.

Fixpoint infixb (p s : list ascii) : bool :=
  prefixb p s || match s with [] => false | _ :: s' => infixb p s' end.

(** The line has an occurrence of a configured tag. *)
Definition hasTag (line : string) : bool :=
  existsb (fun tag => infixb (list_ascii_of_string tag) (list_ascii_of_string line)) tags.

End Marker.

(* ================================================================== *)
(** ** Package [net/http]: [DetectContentType] *)

Module Sniff.

Local Open Scope list_scope.

Definition bytes := list Z.

Definition ofString (s : string) : bytes :=
  map Strings.byteOf (list_ascii_of_string s).

Definition sniffLen : nat := 512.

Definition isWS (b : Z) : bool :=
  (b =? 9) || (b =? 10) || (b =? 12) || (b =? 13) || (b =? 32).

(** A tag-terminating byte. *)
Definition isTT (b : Z) : bool := (b =? 32) || (b =? 62).

Inductive sniffSig :=
| htmlSig (h : string)
| maskedSig (mask pat : bytes) (skipWS : bool) (ct : string)
| exactSig (sig : bytes) (ct : string)
| mp4Sig
| textSig.

Fixpoint dropWS (data : bytes) : bytes :=
  match data with
  | b :: data' => if isWS b then dropWS data' else data
  | [] => []
  end.

(** [htmlSig.match] on the data after its leading white space: the
    signature, compared without case on its letters, then a
    tag-terminating byte. *)
Fixpoint htmlMatch (h data : bytes) : bool :=
  match h, data with
  | [], d :: _ => isTT d
  | b :: h', d :: data' =>
    let db := if (65 <=? b) && (b <=? 90) then Z.land d 223 else d in
    (b =? db) && htmlMatch h' data'
  | _, [] => false
  end.

Fixpoint maskedMatch (mask pat data : bytes) : bool :=
  match mask, pat, data with
  | [], [], _ => true
  | m :: mask', p :: pat', d :: data' =>
    (Z.land d m =? p) && maskedMatch mask' pat' data'
  | _, _, _ => false
  end.

Fixpoint hasPrefix (sig data : bytes) : bool :=
  match sig, data with
  | [], _ => true
  | s :: sig', d :: data' => (s =? d) && hasPrefix sig' data'
  | _ :: _, [] => false
  end.

Definition at_ (data : bytes) (i : nat) : Z := nth i data 0.

(** The loop of [mp4Sig.match] over the brands of the box, from offset
    [st] in steps of four bytes; [rest] is [data[st:]]. *)
Fixpoint mp4Brands (rest : bytes) (st boxSize : Z) : bool :=
  match rest with
  | b0 :: b1 :: b2 :: _ :: rest' =>
    if st <? boxSize then
      if st =? 12 then mp4Brands rest' (st + 4) boxSize
      else if hasPrefix (ofString "mp4") [b0; b1; b2] then true
      else mp4Brands rest' (st + 4) boxSize
    else false
  | _ => false
  end.

Definition mp4Match (data : bytes) : bool :=
  if (List.length data <? 12)%nat then false
  else
    let boxSize :=
      at_ data 0 * 16777216 + at_ data 1 * 65536 + at_ data 2 * 256 + at_ data 3 in
    if (Z.of_nat (List.length data) <? boxSize) || negb (boxSize mod 4 =? 0) then false
    else if negb (hasPrefix (ofString "ftyp") (firstn 4 (skipn 4 data))) then false
    else mp4Brands (skipn 8 data) 8 boxSize.

Definition isBinaryByte (b : Z) : bool :=
  (b <=? 8) || (b =? 11) || ((14 <=? b) && (b <=? 26)) || ((28 <=? b) && (b <=? 31)).

(** [sig.match(data, firstNonWS)]: the content type, or the empty string. *)
Definition sigMatch (sig : sniffSig) (data : bytes) : string :=
  match sig with
  | htmlSig h =>
    if htmlMatch (ofString h) (dropWS data) then "text/html; charset=utf-8" else ""
  | maskedSig mask pat skipWS ct =>
    let data := if skipWS then dropWS data else data in
    if maskedMatch mask pat data then ct else ""
  | exactSig sig ct => if hasPrefix sig data then ct else ""
  | mp4Sig => if mp4Match data then "video/mp4" else ""
  | textSig =>
    if existsb isBinaryByte (dropWS data) then "" else "text/plain; charset=utf-8"
  end.

Definition ff (n : nat) : bytes := List.repeat 255 n.
Definition zz (n : nat) : bytes := List.repeat 0 n.

Definition sniffSignatures : list sniffSig :=
  [ htmlSig "<!DOCTYPE HTML"; htmlSig "<HTML"; htmlSig "<HEAD";
    htmlSig "<SCRIPT"; htmlSig "<IFRAME"; htmlSig "<H1"; htmlSig "<DIV";
    htmlSig "<FONT"; htmlSig "<TABLE"; htmlSig "<A"; htmlSig "<STYLE";
    htmlSig "<TITLE"; htmlSig "<B"; htmlSig "<BODY"; htmlSig "<BR";
    htmlSig "<P"; htmlSig "<!--";
    maskedSig (ff 5) (ofString "<?xml") true "text/xml; charset=utf-8";
    exactSig (ofString "%PDF-") "application/pdf";
    exactSig (ofString "%!PS-Adobe-") "application/postscript";
    (* UTF byte order marks *)
    maskedSig [255; 255; 0; 0] [254; 255; 0; 0] false "text/plain; charset=utf-16be";
    maskedSig [255; 255; 0; 0] [255; 254; 0; 0] false "text/plain; charset=utf-16le";
    maskedSig [255; 255; 255; 0] [239; 187; 191; 0] false "text/plain; charset=utf-8";
    (* images *)
    exactSig [0; 0; 1; 0] "image/x-icon";
    exactSig [0; 0; 2; 0] "image/x-icon";
    exactSig (ofString "BM") "image/bmp";
    exactSig (ofString "GIF87a") "image/gif";
    exactSig (ofString "GIF89a") "image/gif";
    maskedSig (ff 4 ++ zz 4 ++ ff 6) (ofString "RIFF" ++ zz 4 ++ ofString "WEBPVP")
              false "image/webp";
    exactSig ([137] ++ ofString "PNG" ++ [13; 10; 26; 10]) "image/png";
    exactSig [255; 216; 255] "image/jpeg";
    (* audio and video *)
    maskedSig (ff 4 ++ zz 4 ++ ff 4) (ofString "FORM" ++ zz 4 ++ ofString "AIFF")
              false "audio/aiff";
    maskedSig (ff 3) (ofString "ID3") false "audio/mpeg";
    maskedSig (ff 5) (ofString "OggS" ++ [0]) false "application/ogg";
    maskedSig (ff 8) (ofString "MThd" ++ [0; 0; 0; 6]) false "audio/midi";
    maskedSig (ff 4 ++ zz 4 ++ ff 4) (ofString "RIFF" ++ zz 4 ++ ofString "AVI ")
              false "video/avi";
    maskedSig (ff 4 ++ zz 4 ++ ff 4) (ofString "RIFF" ++ zz 4 ++ ofString "WAVE")
              false "audio/wave";
    mp4Sig;
    exactSig [26; 69; 223; 163] "video/webm";
    (* fonts *)
    maskedSig (zz 34 ++ ff 2) (zz 34 ++ ofString "LP") false
              "application/vnd.ms-fontobject";
    exactSig [0; 1; 0; 0] "font/ttf";
    exactSig (ofString "OTTO") "font/otf";
    exactSig (ofString "ttcf") "font/collection";
    exactSig (ofString "wOFF") "font/woff";
    exactSig (ofString "wOF2") "font/woff2";
    (* archives *)
    exactSig [31; 139; 8] "application/x-gzip";
    exactSig (ofString "PK" ++ [3; 4]) "application/zip";
    exactSig (ofString "Rar!" ++ [26; 7; 0]) "application/x-rar-compressed";
    exactSig (ofString "Rar!" ++ [26; 7; 1; 0]) "application/x-rar-compressed";
    exactSig [0; 97; 115; 109] "application/wasm";
    textSig ].

Fixpoint firstMatch (sigs : list sniffSig) (data : bytes) : string :=
  match sigs with
  | [] => "application/octet-stream"
  | sig :: sigs' =>
    match sigMatch sig data with
    | EmptyString => firstMatch sigs' data
    | ct => ct
    end
  end.

(** [http.DetectContentType]: at most the first 512 bytes are looked at;
    the first signature that matches decides. *)
Definition DetectContentType (data : string) : string :=
  firstMatch sniffSignatures (firstn sniffLen (ofString data)).

End Sniff.

(* ================================================================== *)
(** ** The scan: [searchJob], [matchLine], [searchResult], [walk],
       [searchWorker] *)

Module Search.

Definition error := string.

Definition nl : string := String (ascii_of_nat 10) EmptyString.

Record searchJob := mkJob { path : string; regex : Regexp.re }.

Record matchLine := mkMatchLine { n : Z; tag : string; text : string }.

Record searchResult := mkResult { Path : string; Lines : list matchLine }.

(** [searchResult.MaxLineNumber]. *)
Definition MaxLineNumber (r : searchResult) : Z :=
  fold_left (fun max line => if n line >? max then n line else max) (Lines r) 0.

(** What the goroutines share: standard output, the two wait-group
    counters, and what has been sent on the two channels. *)
Record state := mkState
  { stdout : list string;
    wg : Z;
    wgResult : Z;
    searchJobs : list searchJob;
    searchResults : list searchResult }.

Definition print (s : string) (st : state) : state :=
  mkState (stdout st ++ [s])%list (wg st) (wgResult st) (searchJobs st) (searchResults st).

Definition wgAdd (d : Z) (st : state) : state :=
  mkState (stdout st) (wg st + d) (wgResult st) (searchJobs st) (searchResults st).

Definition wgResultAdd (d : Z) (st : state) : state :=
  mkState (stdout st) (wg st) (wgResult st + d) (searchJobs st) (searchResults st).

Definition sendJob (j : searchJob) (st : state) : state :=
  mkState (stdout st) (wg st) (wgResult st) (searchJobs st ++ [j])%list (searchResults st).

Definition sendResult (r : searchResult) (st : state) : state :=
  mkState (stdout st) (wg st) (wgResult st) (searchJobs st) (searchResults st ++ [r])%list.

(** *** The walker *)

(** [fs.FileMode]: the type bits of a directory entry. *)
Definition ModeDir : Z := Z.shiftl 1 31.
Definition ModeSymlink : Z := Z.shiftl 1 27.
Definition ModeDevice : Z := Z.shiftl 1 26.
Definition ModeNamedPipe : Z := Z.shiftl 1 25.
Definition ModeSocket : Z := Z.shiftl 1 24.
Definition ModeCharDevice : Z := Z.shiftl 1 21.
Definition ModeIrregular : Z := Z.shiftl 1 19.
Definition ModeType : Z :=
  Z.lor ModeDir (Z.lor ModeSymlink (Z.lor ModeNamedPipe (Z.lor ModeSocket
    (Z.lor ModeDevice (Z.lor ModeCharDevice ModeIrregular))))).

(** [fs.DirEntry]. *)
Record DirEntry := mkDirEntry { Name : string; Type_ : Z }.

Definition IsDir (d : DirEntry) : bool := negb (Z.land (Type_ d) ModeDir =? 0).
Definition IsRegular (d : DirEntry) : bool := Z.land (Type_ d) ModeType =? 0.

(** [walk(path, d, err, regex, searchJobs, wg)], the function given to
    [filepath.WalkDir]. *)
Definition walk (path : string) (d : DirEntry) (err : option error)
           (regex : Regexp.re) (st : state) : state * option error :=
  match err with
  | Some e => (st, Some e)
  | None =>
    if negb (IsDir d)
    then (sendJob (mkJob path regex) (wgAdd 1 st), None)
    else (st, None)
  end.

(** One call of the function by [filepath.WalkDir]. *)
Record visit := mkVisit
  { vpath : string; ventry : DirEntry; verr : option error }.

(** [filepath.WalkDir] calls [walk] on the entries of the tree in lexical
    order and stops at the first error the function returns. *)
Fixpoint WalkDir (visits : list visit) (regex : Regexp.re) (st : state)
  : state * option error :=
  match visits with
  | [] => (st, None)
  | v :: rest =>
    match walk (vpath v) (ventry v) (verr v) regex st with
    | (st', Some e) => (st', Some e)
    | (st', None) => WalkDir rest regex st'
    end
  end.

(** *** The worker *)

(** [os.Stat] and [os.Open]: an error carries its message and whether
    [os.IsNotExist] holds of it; an open file is the sequence of lines
    its [bufio.Scanner] yields. *)
Record PathError := mkPathError { IsNotExist : bool; Error : string }.

Record FileInfo := mkFileInfo { infoIsDir : bool }.

Record FS := mkFS
  { Stat : string -> FileInfo + PathError;
    Open : string -> list string + PathError }.

(** [gitignore.Matcher], possibly [nil]. *)
Definition Matcher := option (list string -> bool -> bool).

Definition isTextPlain (mimeType : string) : bool :=
  String.eqb (hd EmptyString (Strings.Split mimeType ";")) "text/plain".

(** The scanning loop of [searchWorker] over the lines of one file:
    [line] is the line counter, [lines] the matches so far. *)
Fixpoint scanLoop (regex : Regexp.re) (file : list string) (line : Z)
         (lines : list matchLine) : list matchLine :=
  match file with
  | [] => lines
  | text :: rest =>
    if negb (isTextPlain (Sniff.DetectContentType text)) then lines
    else
      let match_ := Regexp.FindSubmatch regex text in
      let lines' :=
        if GoInt.len match_ >=? 3
        then (lines ++ [mkMatchLine line (nth 1 match_ EmptyString)
                                    (nth 2 match_ EmptyString)])%list
        else lines in
      scanLoop regex rest (GoInt.wrapInt (line + 1)) lines'
  end.

Definition scanFile (regex : Regexp.re) (file : list string) : list matchLine :=
  scanLoop regex file 1 [].

(** How the worker's loop ends: the channel is drained ([Idle], the
    goroutine waits for more), the goroutine returns, or [log.Fatalf]
    ends the process with its message. *)
Inductive ending := Idle | Returned | Exited (msg : string).

(** [matcher != nil && matcher.Match(pathList, info.IsDir())]. *)
Definition ignored (matcher : Matcher) (path : string) (info : FileInfo) : bool :=
  let pathList := Strings.Split path "/" in
  match matcher with
  | Some m => m pathList (infoIsDir info)
  | None => false
  end.

(** [searchWorker(jobs, searchResults, matcher, wg, wgResult)] on the
    jobs this worker receives, in order. *)
Fixpoint searchWorker (fs : FS) (matcher : Matcher) (jobs : list searchJob)
         (st : state) : state * ending :=
  match jobs with
  | [] => (st, Idle)
  | job :: rest =>
    match Stat fs (path job) with
    | inr err =>
      if IsNotExist err
      then (print (path job ++ " does not exist." ++ nl) st, Returned)
      else (print ("Error checking " ++ path job ++ ": " ++ Error err ++ nl) st,
            Returned)
    | inl info =>
      if ignored matcher (path job) info
      then searchWorker fs matcher rest (wgAdd (-1) st)
      else
        match Open fs (path job) with
        | inr err =>
          (st, Exited ("couldn't open path " ++ path job ++ ": " ++ Error err ++ nl))
        | inl f =>
          let lines := scanFile (regex job) f in
          let st1 :=
            if GoInt.len lines >? 0
            then sendResult (mkResult (path job) lines) (wgResultAdd 1 st)
            else st in
          searchWorker fs matcher rest (wgAdd (-1) st1)
        end
    end
  end.

(** *** Notions the properties are stated with *)

(** The line passes the content sniff of the scanning loop. *)
Definition textLine (text : string) : bool :=
  isTextPlain (Sniff.DetectContentType text).

(** What the loop appends for a text line numbered [line]. *)
Definition lineMatch (regex : Regexp.re) (line : Z) (text : string) : list matchLine :=
  let match_ := Regexp.FindSubmatch regex text in
  if GoInt.len match_ >=? 3
  then [mkMatchLine line (nth 1 match_ EmptyString) (nth 2 match_ EmptyString)]
  else [].

(** The worker can stat the job's file, does not ignore it, and opens
    it as [f]. *)
Definition opensAs (fs : FS) (matcher : Matcher) (job : searchJob) (f : list string) : Prop :=
  exists info, Stat fs (path job) = inl info
               /\ ignored matcher (path job) info = false
               /\ Open fs (path job) = inl f.

(** The worker can stat the job's file and ignores it. *)
Definition skips (fs : FS) (matcher : Matcher) (job : searchJob) : Prop :=
  exists info, Stat fs (path job) = inl info /\ ignored matcher (path job) info = true.

(** The worker can stat the job's file, does not ignore it, and cannot
    open it. *)
Definition failsToOpen (fs : FS) (matcher : Matcher) (job : searchJob) (err : PathError) : Prop :=
  exists info, Stat fs (path job) = inl info
               /\ ignored matcher (path job) info = false
               /\ Open fs (path job) = inr err.

(** The worker cannot stat the job's file. *)
Definition failsToStat (fs : FS) (job : searchJob) : Prop :=
  exists err, Stat fs (path job) = inr err.

(** The worker takes the job to its end: it skips it or scans it. *)
Definition handled (fs : FS) (matcher : Matcher) (job : searchJob) : Prop :=
  skips fs matcher job \/ exists f, opensAs fs matcher job f.

(** The result the worker sends for a file it scanned. *)
Definition resultOf (job : searchJob) (f : list string) : list searchResult :=
  match scanFile (regex job) f with
  | [] => []
  | lines => [mkResult (path job) lines]
  end.

(** The results the worker sends for a job: those of the file it opens,
    if it comes to open it. *)
Definition jobResults (fs : FS) (matcher : Matcher) (job : searchJob) : list searchResult :=
  match Stat fs (path job) with
  | inl info =>
    if ignored matcher (path job) info then []
    else match Open fs (path job) with
         | inl f => resultOf job f
         | inr _ => []
         end
  | inr _ => []
  end.

(** A match of the loop comes from a scanned line of the file: the line
    whose number it carries, counted from [base]. *)
Definition fromLine (regex : Regexp.re) (file : list string) (base : Z) (m : matchLine) : Prop :=
  base <= n m < base + GoInt.len file
  /\ exists l, nth_error file (Z.to_nat (n m - base)) = Some l
               /\ textLine l = true
               /\ lineMatch regex (n m) l = [m].

Definition ascending : matchLine -> matchLine -> Prop := fun a b => n a < n b.

(** The failure of a job is contained: the worker reports it, counts the
    job as done and goes on with the jobs that follow. *)
Definition failureIsContained (fs : FS) (matcher : Matcher) (job : searchJob) : Prop :=
  forall (post : list searchJob) (st : state),
    exists report,
      searchWorker fs matcher (job :: post) st
      = searchWorker fs matcher post (wgAdd (-1) (print report st)).

(** A job is queued for an entry exactly when the entry is a regular
    file. *)
Definition queuedIffRegular : Prop :=
  forall (path : string) (d : DirEntry) (regex : Regexp.re) (st : state),
    searchJobs (fst (walk path d None regex st)) = (searchJobs st ++ [mkJob path regex])%list
    <-> IsRegular d = true.

End Search.

(* ================================================================== *)
(** ** The result sink: [BlameFile], the pretty printers, [PrintResult] *)

Module Sink.

Import Blame Search.

(** *** [fmt] *)

Definition digit (d : Z) : ascii := Strings.byteTo (48 + d).

Fixpoint digits (fuel : nat) (x : Z) : string :=
  match fuel with
  | O => EmptyString
  | S f =>
    if x <? 10 then String (digit x) EmptyString
    else digits f (x / 10) ++ String (digit (x mod 10)) EmptyString
  end.

(** [fmt.Sprint] of an [int] (at most 19 digits). *)
Definition Sprint (x : Z) : string :=
  if x <? 0 then "-" ++ digits 20 (- x) else digits 20 x.

(** *** [lipgloss] styles *)

Record LipStyle := mkStyle
  { bold : bool; foreground : option string; background : option string }.

Definition NewStyle : LipStyle := mkStyle false None None.
Definition Bold (b : bool) (s : LipStyle) : LipStyle :=
  mkStyle b (foreground s) (background s).
Definition Foreground (c : string) (s : LipStyle) : LipStyle :=
  mkStyle (bold s) (Some c) (background s).
Definition Background (c : string) (s : LipStyle) : LipStyle :=
  mkStyle (bold s) (foreground s) (Some c).

Definition BaseStyle := NewStyle.
Definition BoldStyle := Bold true BaseStyle.
Definition FilenameColorStyle := Foreground "#0087d7" BoldStyle.
Definition TodoStyle := Foreground "#5fafaf" BaseStyle.
Definition XxxStyle := Background "#d7af00" (Foreground "#000000" BaseStyle).
Definition FixmeStyle := Foreground "#ff0000" BaseStyle.
Definition OptimizeStyle := Foreground "#d75f00" BaseStyle.
Definition BugStyle := Background "#870000" (Foreground "#eeeeee" BaseStyle).
Definition NoteStyle := Foreground "#87af87" BaseStyle.
Definition HackStyle := Foreground "#d7d700" BaseStyle.
Definition OldCommitStyle := Background "#d70000" (Foreground "#dadada" BoldStyle).

Inductive Style := FullStyle | BWStyle | PlainStyle.

Definition STYLE : Style := FullStyle.
Definition AGELIMIT : Z := 30.

(** *** The machine: terminal, clock, working directory, [git] *)

(** A point in time: seconds since the epoch and nanoseconds. *)
Record Time := mkTime { sec : Z; nsec : Z }.

(** What running [exec.Command("git", "blame", path, "--line-porcelain")]
    gives: the errors of [StdoutPipe], [Start] and [Wait], the lines of
    its standard output and the text of its standard error. *)
Record Cmd := mkCmd
  { pipeErr : option error;
    startErr : option error;
    cmdStdout : list string;
    waitErr : option error;
    cmdStderr : string }.

Record Env := mkEnv
  { Render : LipStyle -> string -> string;   (* Style.Render, for this terminal *)
    Now : nat -> Time;                       (* the k-th reading of the clock *)
    Abs : string -> string -> string + error; (* filepath.Abs, in a working directory *)
    Dir : string -> string;                  (* filepath.Dir *)
    Chdir : string -> option error;          (* os.Chdir *)
    Command : string -> list string -> Cmd   (* the subprocess, in a working directory *)
  }.

(** State of the sink goroutine: the shared state, the process working
    directory and the number of clock readings so far. *)
Record sink := mkSink { shared : state; cwd : string; ticks : nat }.

(** [BlameFile(path)]: the blame or an error, and the working directory
    the call leaves the process in. *)
Definition BlameFile (env : Env) (cwd : string) (path : string)
  : (GitBlame + error) * string :=
  match Abs env cwd path with
  | inr err => (inr err, cwd)
  | inl absolutePath =>
    match Chdir env (Dir env absolutePath) with
    | Some err => (inr err, cwd)
    | None =>
      let cwd' := Dir env absolutePath in
      let cmd := Command env cwd' ["git"; "blame"; absolutePath; "--line-porcelain"] in
      match pipeErr cmd with
      | Some err => (inr err, cwd')
      | None =>
        match startErr cmd with
        | Some err => (inr err, cwd')
        | None =>
          let blames := parseGitBlame (cmdStdout cmd) in
          match waitErr cmd with
          | Some err =>
            (inr ("git blame failed: " ++ err ++ nl ++ cmdStderr cmd), cwd')
          | None => (inl (mkGitBlame blames), cwd')
          end
        end
      end
    end
  end.

(** *** The pretty printers *)

Definition stylizeFilename (env : Env) (file : string) (nComments : Z)
           (style : Style) : string :=
  let styler :=
    match style with
    | BWStyle => BoldStyle
    | FullStyle => FilenameColorStyle
    | PlainStyle => BaseStyle
    end in
  let fname := Render env styler ("• " ++ file) in
  let comments :=
    if nComments >? 1
    then Render env styler ("(" ++ Sprint nComments ++ " comments)")
    else Render env styler ("(" ++ Sprint nComments ++ " comment)") in
  fname ++ " " ++ comments.

Definition emojify (tag : string) : string :=
  if String.eqb tag "TODO" then "✓ TODO"
  else if String.eqb tag "XXX" then "✘ XXX"
  else if String.eqb tag "FIXME" then "⚠ FIXME"
  else if String.eqb tag "OPTIMIZE" then " OPTIMIZE"
  else if String.eqb tag "BUG" then "☢ BUG"
  else if String.eqb tag "NOTE" then "✐ NOTE"
  else if String.eqb tag "HACK" then "✄ HACK"
  else "⚠ " ++ tag.

Definition colorize (env : Env) (text tag : string) : string :=
  if String.eqb tag "TODO" then Render env TodoStyle text
  else if String.eqb tag "XXX" then Render env XxxStyle text
  else if String.eqb tag "FIXME" then Render env FixmeStyle text
  else if String.eqb tag "OPTIMIZE" then Render env OptimizeStyle text
  else if String.eqb tag "BUG" then Render env BugStyle text
  else if String.eqb tag "NOTE" then Render env NoteStyle text
  else if String.eqb tag "HACK" then Render env HackStyle text
  else text.

(** [padLineNumber]; [strings.Repeat] panics on a negative count
    ([None]). *)
Definition padLineNumber (number maxNumber : Z) : option string :=
  let strNumber := Sprint number in
  let strMaxNumber := Sprint maxNumber in
  match Strings.Repeat " " (GoInt.slen strMaxNumber - GoInt.slen strNumber) with
  | None => None
  | Some pad => Some ("[Line " ++ pad ++ Sprint number ++ "] ")
  end.

Definition prettiyfyLine (env : Env) (text tag : string) (style : Style) : string :=
  let prettyTag := Render env BoldStyle (emojify tag) in
  let text := " " ++ text in
  match style with
  | FullStyle => colorize env prettyTag tag ++ colorize env text tag
  | _ => prettyTag ++ text
  end.

(** [Time.Sub], a [Duration] in nanoseconds, saturating at the ends of
    int64. *)
Definition Sub (t u : Time) : Z :=
  let d := (sec t - sec u) * 1000000000 + (nsec t - nsec u) in
  if d <? GoInt.minInt64 then GoInt.minInt64
  else if d >? GoInt.maxInt64 then GoInt.maxInt64
  else d.

Definition Hour : Z := 3600 * 1000000000.

Definition prettiyfyBlame (env : Env) (currentDate : Time) (blame : LineBlame)
           (ageLimit : Z) (style : Style) : string :=
  match style with
  | PlainStyle => ""
  | _ =>
    let blameStr := "[" ++ Author blame ++ "]" in
    if Timestamp blame =? 0 then blameStr
    else
      let date := mkTime (Timestamp blame) 0 in
      let diff := Sub currentDate date in
      let maxAge := 30 * 24 * Hour in
      if diff >? maxAge
      then Render env OldCommitStyle ("[☠ OLD " ++ Author blame ++ "]")
      else blameStr
  end.

Definition out (s : string) (k : sink) : sink :=
  mkSink (print s (shared k)) (cwd k) (ticks k).

(** The inner loop of [PrintResult] over the lines of one result;
    [None] is a run-time panic. *)
Fixpoint printLines (env : Env) (gb : GitBlame + error) (result : searchResult)
         (lines : list matchLine) (k : sink) : option sink :=
  match lines with
  | [] => Some k
  | line :: rest =>
    let text := prettiyfyLine env (text line) (tag line) STYLE in
    match padLineNumber (n line) (MaxLineNumber result) with
    | None => None
    | Some lineNumber =>
      let blame :=
        match gb with
        | inl b => BlameLine b (n line)
        | inr gb_err => inr gb_err
        end in
      match blame with
      | inl lb =>
        let usesClock :=
          match STYLE with
          | PlainStyle => false
          | _ => negb (Timestamp lb =? 0)
          end in
        let blameStr := prettiyfyBlame env (Now env (ticks k)) lb AGELIMIT STYLE in
        let k' := mkSink (shared k) (cwd k)
                         (if usesClock then S (ticks k) else ticks k) in
        printLines env gb result rest (out (lineNumber ++ text ++ " " ++ blameStr ++ nl) k')
      | inr _ =>
        printLines env gb result rest (out (lineNumber ++ text ++ nl) k)
      end
    end
  end.

(** The body of the loop of [PrintResult] for one result. *)
Definition printResult1 (env : Env) (result : searchResult) (k : sink) : option sink :=
  let k1 := out (stylizeFilename env (Path result) (GoInt.len (Lines result)) STYLE ++ nl) k in
  let '(gb, cwd') := BlameFile env (cwd k1) (Path result) in
  let k2 := mkSink (shared k1) cwd' (ticks k1) in
  match printLines env gb result (Lines result) k2 with
  | None => None
  | Some k3 =>
    let k4 := out nl k3 in
    Some (mkSink (wgResultAdd (-1) (shared k4)) (cwd k4) (ticks k4))
  end.

(** [PrintResult(searchResults, wgResult)] on the results it receives,
    in order; [None] is a run-time panic. *)
Fixpoint PrintResult (env : Env) (results : list searchResult) (k : sink)
  : option sink :=
  match results with
  | [] => Some k
  | result :: rest =>
    match printResult1 env result k with
    | None => None
    | Some k' => PrintResult env rest k'
    end
  end.

(** *** Notions the properties are stated with *)

(** What is printed for a matched line that has no blame. *)
Definition withoutBlame (env : Env) (result : searchResult) (line : matchLine)
  : option string :=
  match padLineNumber (n line) (MaxLineNumber result) with
  | Some lineNumber =>
    Some (lineNumber ++ prettiyfyLine env (text line) (tag line) STYLE ++ nl)
  | None => None
  end.

(** The first line printed for a result. *)
Definition header (env : Env) (result : searchResult) : string :=
  stylizeFilename env (Path result) (GoInt.len (Lines result)) STYLE ++ nl.

(** The line numbers of a result are not negative, as those of every
    result of a scan are. *)
Definition numbered (result : searchResult) : Prop :=
  Forall (fun line => 0 <= n line) (Lines result).

End Sink.

(* ================================================================== *)
(** ** Concrete inputs of the examples *)

Module Samples.

Import Blame.

Definition sampleBlame : GitBlame :=
  mkGitBlame [mkLineBlame "Ada" 1700000000; mkLineBlame "Grace H" 0].

Definition sampleStream : list string :=
  [ "4c1d0f2a9e 1 1 2"; "author Ada Lovelace"; "author-mail <ada@example.org>";
    "author-time 1700000000"; "summary first"; "filename main.go" ].

(** The compiled marker pattern. *)
Definition rx : Regexp.re :=
  match Marker.compiled with Some r => r | None => Regexp.Empty end.

Definition sampleFile : list string :=
  [ "package main"; ""; "// TODO: fix this"; "x := 1 // FIXME leak"; "done()" ].

Definition gifLine : string := "GIF89a binary".

(** A file system with a missing file, a file that cannot be opened, a
    source file and files without tags. *)
Definition sampleFS : Search.FS :=
  Search.mkFS
    (fun p => if String.eqb p "gone"
              then inr (Search.mkPathError true "stat gone: no such file or directory")
              else inl (Search.mkFileInfo false))
    (fun p => if String.eqb p "locked"
              then inr (Search.mkPathError false "open locked: permission denied")
              else if String.eqb p "a.go" then inl sampleFile
              else inl ["nothing to see"]).

Definition ignoreBuild : Search.Matcher :=
  Some (fun pathList _ => existsb (String.eqb "build") pathList).

Definition lockedJob : Search.searchJob := Search.mkJob "locked" rx.
Definition goneJob : Search.searchJob := Search.mkJob "gone" rx.
Definition sourceJob : Search.searchJob := Search.mkJob "a.go" rx.
Definition plainJob : Search.searchJob := Search.mkJob "notes.txt" rx.
Definition buildJob : Search.searchJob := Search.mkJob "build/out.go" rx.

Definition lockedError : Search.PathError :=
  Search.mkPathError false "open locked: permission denied".

Definition st0 : Search.state := Search.mkState [] 2 0 [] [].

Definition symlinkEntry : Search.DirEntry := Search.mkDirEntry "link" Search.ModeSymlink.
Definition dirEntry : Search.DirEntry := Search.mkDirEntry "src" Search.ModeDir.
Definition fileEntry : Search.DirEntry := Search.mkDirEntry "a.go" 0.

(** A machine without a repository: [git blame] exits with status 128;
    the terminal renders every style as plain text. *)
Definition noRepo : Sink.Env :=
  Sink.mkEnv (fun _ s => s)
             (fun _ => Sink.mkTime 1700000000 0)
             (fun cwd p => inl (cwd ++ "/" ++ p))
             (fun _ => "/work")
             (fun _ => None)
             (fun _ _ => Sink.mkCmd None None [] (Some "exit status 128")
                                    "fatal: not a git repository").

Definition sampleResult : Search.searchResult :=
  Search.mkResult "a.go" [Search.mkMatchLine 3 "TODO" "fix this";
                          Search.mkMatchLine 14 "FIXME" "leak"].

Definition sink0 : Sink.sink := Sink.mkSink (Search.mkState [] 0 1 [] []) "/work" 0.

End Samples.

(* ================================================================== *)
(** ** Submatches: what the groups of an expression can hold *)

Module Captures.

Import Regexp.
Local Open Scope list_scope.

(** The bytes of [total] from position [s] up to position [e]. *)
Definition segment (total : list ascii) (s e : nat) : list ascii :=
  firstn (e - s) (skipn s total).

(** [w] is in the language of the body of a group numbered [i] of [r]. *)
Fixpoint groupLang (r : re) (i : nat) (w : list ascii) : Prop :=
  match r with
  | Group j a => (i = j /\ lang a w) \/ groupLang a i w
  | Cat a b | Alt a b => groupLang a i w \/ groupLang b i w
  | Star _ a | Plus _ a | Quest _ a => groupLang a i w
  | _ => False
  end.

(** Every match of [r] goes through a group numbered [i]. *)
Fixpoint setsGroup (r : re) (i : nat) : bool :=
  match r with
  | Group j a => Nat.eqb i j || setsGroup a i
  | Cat a b => setsGroup a i || setsGroup b i
  | Alt a b => setsGroup a i && setsGroup b i
  | Plus _ a => setsGroup a i
  | _ => false
  end.

(** The state of the matcher is a position of [total]. *)
Definition wf (total : list ascii) (st : mstate) : Prop :=
  rest st = skipn (pos st) total /\ (pos st <= List.length total)%nat.

(** From [st] the matcher came to [st'] over bytes in [P], recording
    submatches that are in [G], one at least for each group in [S]. *)
Definition capStep (total : list ascii) (G : nat -> list ascii -> Prop)
           (S : nat -> bool) (P : list ascii -> Prop) (st st' : mstate) : Prop :=
  wf total st'
  /\ (pos st <= pos st')%nat
  /\ P (segment total (pos st) (pos st'))
  /\ exists new,
       caps st' = new ++ caps st
       /\ (forall i s e, In (i, (s, e)) new -> G i (segment total s e))
       /\ (forall i, S i = true -> exists se, In (i, se) new).

Definition capSound (total : list ascii) (G : nat -> list ascii -> Prop)
           (S : nat -> bool) (P : list ascii -> Prop)
           (body : mstate -> (mstate -> option mstate) -> option mstate) : Prop :=
  forall st k res,
    wf total st -> body st k = Some res ->
    exists st', capStep total G S P st st' /\ k st' = Some res.

(** The text has no line feed. *)
Definition oneLine (s : string) : Prop :=
  Forall (fun c => Strings.byteOf c <> 10) (list_ascii_of_string s).

End Captures.

(* ================================================================== *)
(** ** Notions for the blame reader *)

Module BlameNotions.

Import Blame.
Local Open Scope list_scope.

(** What [truncateName] puts for a word it shortens. *)
Definition initialOf (w : string) : string :=
  match w with
  | String c _ => Strings.stringOfByte c
  | EmptyString => EmptyString
  end.

(** The bytes of the words with one separator each. *)
Fixpoint spread (ws : list string) : Z :=
  match ws with
  | [] => 0
  | w :: ws' => GoInt.slen w + 1 + spread ws'
  end.

(** What the loop of [truncateName] takes off [totalLen] for the words
    it shortens. *)
Fixpoint saved (ws : list string) : Z :=
  match ws with
  | [] => 0
  | w :: ws' => GoInt.slen w - 2 + saved ws'
  end.

(** The timestamp the lines after an author line leave in its record:
    that of the last timestamp line that [ParseInt] accepts. *)
Definition timestampOf (body : list string) : Z :=
  fold_left
    (fun ts l =>
       if isTimeLine l
       then match Strconv.ParseInt (Strings.TrimPrefix l "author-time ") with
            | Some t => t
            | None => ts
            end
       else ts)
    body 0.

End BlameNotions.

(* ================================================================== *)
(** ** Notions of the walk and of the worker *)

Module WalkNotions.

Import Search.
Local Open Scope list_scope.

(** The calls of the walk before the first one that carries an error. *)
Fixpoint untilError (visits : list visit) : list visit :=
  match visits with
  | [] => []
  | v :: rest =>
    match verr v with
    | Some _ => []
    | None => v :: untilError rest
    end
  end.

(** The error of the first call that carries one. *)
Fixpoint firstError (visits : list visit) : option error :=
  match visits with
  | [] => None
  | v :: rest =>
    match verr v with
    | Some e => Some e
    | None => firstError rest
    end
  end.

(** One job for every entry that is not a directory. *)
Definition queued (regex : Regexp.re) (visits : list visit) : list searchJob :=
  map (fun v => mkJob (vpath v) regex)
      (filter (fun v => negb (IsDir (ventry v))) visits).

(** What the worker prints for a file it cannot stat. *)
Definition statReport (job : searchJob) (err : PathError) : string :=
  if IsNotExist err
  then (path job ++ " does not exist." ++ nl)%string
  else ("Error checking " ++ path job ++ ": " ++ Error err ++ nl)%string.

End WalkNotions.

(* ================================================================== *)
(** ** Notions of the result sink *)

Module SinkNotions.

Import Blame Search Sink.
Local Open Scope list_scope.

(** Thirty days, in seconds. *)
Definition thirtyDays : Z := 30 * 24 * 3600.

(** The commit of time stamp [ts] is more than thirty days before
    [now]. *)
Definition olderThanThirtyDays (now : Time) (ts : Z) : bool :=
  (sec now - ts >? thirtyDays) || ((sec now - ts =? thirtyDays) && (nsec now >? 0)).

(** The blame of a matched line, when the blame of the file is [gb]. *)
Definition lineBlame (gb : GitBlame + error) (line : matchLine) : LineBlame + error :=
  match gb with
  | inl b => BlameLine b (n line)
  | inr gb_err => inr gb_err
  end.

(** What is printed for a matched line: its padded number, its text,
    then, if the line has a blame, a space and the blame as some
    reading of the clock shows it. *)
Definition printedLine (env : Env) (gb : GitBlame + error) (result : searchResult)
           (line : matchLine) (s : string) : Prop :=
  exists lineNumber,
    padLineNumber (n line) (MaxLineNumber result) = Some lineNumber
    /\ match lineBlame gb line with
       | inl lb =>
         exists t, s = (lineNumber ++ prettiyfyLine env (text line) (tag line) STYLE ++ " "
                          ++ prettiyfyBlame env (Now env t) lb AGELIMIT STYLE ++ nl)%string
       | inr _ => s = (lineNumber ++ prettiyfyLine env (text line) (tag line) STYLE ++ nl)%string
       end.

(** The number of chunks the sink prints for its results: a header, the
    lines and an empty line for each. *)
Fixpoint chunks (results : list searchResult) : nat :=
  match results with
  | [] => 0
  | r :: rest => 2 + List.length (Lines r) + chunks rest
  end.

End SinkNotions.

(* ================================================================== *)
(** ** More inputs of the examples *)

Module MoreSamples.

Import Samples.
Local Open Scope list_scope.

(** [filepath.Dir] of a clean absolute path: the path without its last
    element. *)
Definition dirOf (p : string) : string :=
  Strings.Join (removelast (Strings.Split p "/")) "/".

(** A machine with a repository in [/work]: [src] and [src/b] are its
    directories, and [git blame] answers with one record. *)
Definition repoEnv : Sink.Env :=
  Sink.mkEnv (fun _ s => s)
             (fun _ => Sink.mkTime 1700000100 0)
             (fun cwd p => inl (cwd ++ "/" ++ p)%string)
             dirOf
             (fun d => if existsb (String.eqb d) ["/work"; "/work/src"; "/work/src/b"]%string
                       then None
                       else Some ("chdir " ++ d ++ ": no such file or directory")%string)
             (fun _ _ => Sink.mkCmd None None sampleStream None "").

Definition firstResult : Search.searchResult :=
  Search.mkResult "src/a.go" [Search.mkMatchLine 1 "TODO" "fix this"].

Definition secondResult : Search.searchResult :=
  Search.mkResult "src/b/c.go" [Search.mkMatchLine 1 "NOTE" "see above"].

Definition oldBlame : Blame.LineBlame := Blame.mkLineBlame "Ada" 1600000000.

End MoreSamples.

(* ================================================================== *)
(** ** A run of the whole search *)

Module SearchNotions.

Import Search WalkNotions Samples.
Local Open Scope list_scope.

(** The jobs a walk queues. *)
Definition jobsOf (regex : Regexp.re) (visits : list visit) : list searchJob :=
  queued regex (untilError visits).

(** The state of the worker that receives all the jobs of a walk, after
    the walk. *)
Definition afterWorker (fs : FS) (matcher : Matcher) (visits : list visit)
           (regex : Regexp.re) (st : state) : state * ending :=
  searchWorker fs matcher (jobsOf regex visits) (fst (WalkDir visits regex st)).

(** The entries of a small tree. *)
Definition sampleVisits : list visit :=
  [ mkVisit "." dirEntry None;
    mkVisit "a.go" fileEntry None;
    mkVisit "build" dirEntry None;
    mkVisit "build/out.go" fileEntry None;
    mkVisit "notes.txt" fileEntry None ].

End SearchNotions.

(* ================================================================== *)
(** * Properties *)

(** ** The blame reader *)

Module BlameProps.

Import Blame Samples.
Local Open Scope list_scope.

Lemma wrapInt_id (x : Z) : GoInt.inInt64 x -> GoInt.wrapInt x = x.
Proof.
  unfold GoInt.inInt64, GoInt.minInt64, GoInt.maxInt64, GoInt.wrapInt, GoInt.wrap.
  change (2 ^ (64 - 1)) with 9223372036854775808.
  change (2 ^ 63) with 9223372036854775808.
  change (2 ^ 64) with 18446744073709551616.
  intros H. rewrite Z.mod_small by lia. lia.
Qed.

Lemma wrapInt_below : GoInt.wrapInt (GoInt.minInt64 - 1) = GoInt.maxInt64.
Proof. reflexivity. Qed.

(** C7.  Looking line [line] up in a blame of [len] records is an error
    exactly when [line] is outside [1, len]; inside, it is the record
    stored at index [line - 1]. *)
Theorem BlameLine_in_range_iff (b : GitBlame) (line : Z)
  (Hline : GoInt.inInt64 line)
  (Hlen : GoInt.len (blames b) <= GoInt.maxInt64) :
  (BlameLine b line = inr "line out of range"%string
   <-> ~ (1 <= line <= GoInt.len (blames b)))
  /\ (1 <= line <= GoInt.len (blames b) ->
      exists lb, nth_error (blames b) (Z.to_nat (line - 1)) = Some lb
                 /\ BlameLine b line = inl lb).
Proof.
  assert (Hcases : line = GoInt.minInt64 \/ GoInt.inInt64 (line - 1)).
  { unfold GoInt.inInt64 in *. lia. }
  assert (Hin : 1 <= line <= GoInt.len (blames b) ->
                exists lb, nth_error (blames b) (Z.to_nat (line - 1)) = Some lb
                           /\ BlameLine b line = inl lb).
  { intros Hr. destruct Hcases as [-> | Hw].
    - unfold GoInt.minInt64 in Hr. lia.
    - unfold BlameLine. rewrite (wrapInt_id _ Hw).
      destruct (nth_error (blames b) (Z.to_nat (line - 1))) as [lb|] eqn:E.
      + exists lb. split; [reflexivity|].
        replace (line - 1 <? 0) with false by (symmetry; apply Z.ltb_ge; lia).
        replace (line - 1 >=? GoInt.len (blames b)) with false
          by (symmetry; rewrite Z.geb_leb; apply Z.leb_gt; lia).
        reflexivity.
      + apply nth_error_None in E. unfold GoInt.len in Hr. lia. }
  split; [split|exact Hin].
  - intros He Hr. destruct (Hin Hr) as (lb & _ & Hlb). congruence.
  - intros Hout. unfold BlameLine.
    destruct Hcases as [-> | Hw].
    + rewrite wrapInt_below.
      replace (GoInt.maxInt64 >=? GoInt.len (blames b)) with true
        by (symmetry; rewrite Z.geb_leb; apply Z.leb_le; lia).
      rewrite orb_true_r. reflexivity.
    + rewrite (wrapInt_id _ Hw).
      destruct (Z.ltb_spec (line - 1) 0) as [Hl|Hl]; [reflexivity|].
      replace (line - 1 >=? GoInt.len (blames b)) with true
        by (symmetry; rewrite Z.geb_leb; apply Z.leb_le; lia).
      reflexivity.
Qed.

Lemma BlameLine_in_range_iff_witness :
  (BlameLine sampleBlame 2 = inr "line out of range"%string
   <-> ~ (1 <= 2 <= GoInt.len (blames sampleBlame)))
  /\ (1 <= 2 <= GoInt.len (blames sampleBlame) ->
      exists lb, nth_error (blames sampleBlame) (Z.to_nat (2 - 1)) = Some lb
                 /\ BlameLine sampleBlame 2 = inl lb).
Proof.
  apply (BlameLine_in_range_iff sampleBlame 2).
  - unfold GoInt.inInt64, GoInt.minInt64, GoInt.maxInt64. lia.
  - vm_compute. discriminate.
Defined.

Example BlameLine_sample :
  BlameLine sampleBlame 2 = inl (mkLineBlame "Grace H" 0)
  /\ BlameLine sampleBlame 0 = inr "line out of range"%string
  /\ BlameLine sampleBlame 3 = inr "line out of range"%string
  /\ BlameLine sampleBlame GoInt.minInt64 = inr "line out of range"%string.
Proof. repeat split. Qed.

(** *** [parseGitBlame] *)

Lemma parseGitBlame_flushed (out : list string) :
  parseGitBlame out = flushed (fold_left parseLine out initial).
Proof. reflexivity. Qed.

Lemma flushed_parseLine_author (st : parser) (buf : string) :
  isAuthorLine buf = true ->
  flushed (parseLine st buf)
  = flushed st ++ [mkLineBlame (truncateName (Strings.TrimPrefix buf "author ")
                                             maxAuthorLength) 0].
Proof.
  unfold isAuthorLine, parseLine, flushed. intros ->. simpl.
  destruct (currentBlame st); reflexivity.
Qed.

Lemma length_flushed_parseLine (st : parser) (buf : string) :
  List.length (flushed (parseLine st buf))
  = (List.length (flushed st) + if isAuthorLine buf then 1 else 0)%nat.
Proof.
  destruct (isAuthorLine buf) eqn:E.
  - rewrite flushed_parseLine_author by exact E.
    rewrite length_app. reflexivity.
  - unfold isAuthorLine in E. unfold parseLine. rewrite E.
    destruct (Strings.HasPrefix buf "author-time "); [|lia].
    destruct (currentBlame st) as [cb|] eqn:Ecb; [|lia].
    destruct (Strconv.ParseInt _); [|lia].
    unfold flushed. simpl. rewrite Ecb. rewrite !length_app. simpl. lia.
Qed.

Lemma length_flushed_fold (out : list string) (st : parser) :
  List.length (flushed (fold_left parseLine out st))
  = (List.length (flushed st) + List.length (filter isAuthorLine out))%nat.
Proof.
  revert st. induction out as [|buf out IH]; intros st; simpl; [lia|].
  rewrite IH, length_flushed_parseLine.
  destruct (isAuthorLine buf); simpl; lia.
Qed.

Lemma parseLine_other (st : parser) (buf : string) :
  isAuthorLine buf = false -> isTimeLine buf = false -> parseLine st buf = st.
Proof.
  unfold isAuthorLine, isTimeLine, parseLine. intros -> ->. reflexivity.
Qed.

Lemma fold_parseLine_others (body : list string) (st : parser) :
  Forall (fun l => isAuthorLine l = false /\ isTimeLine l = false) body ->
  fold_left parseLine body st = st.
Proof.
  induction 1 as [|l body [Ha Ht] _ IH]; simpl; [reflexivity|].
  rewrite parseLine_other by assumption. exact IH.
Qed.

(** C6.  The parser yields one record per author line of its input; an
    author line starts a new record, which, when no timestamp line
    follows it, has timestamp zero and is delivered also when the stream
    ends right after it. *)
Theorem parseGitBlame_one_record_per_author_line :
  (forall out : list string,
      List.length (parseGitBlame out) = List.length (filter isAuthorLine out))
  /\ (forall (pre : list string) (a : string) (body : list string),
         isAuthorLine a = true ->
         Forall (fun l => isAuthorLine l = false /\ isTimeLine l = false) body ->
         parseGitBlame (pre ++ a :: body)
         = parseGitBlame pre
             ++ [mkLineBlame (truncateName (Strings.TrimPrefix a "author ")
                                           maxAuthorLength) 0]).
Proof.
  split.
  - intros out. rewrite parseGitBlame_flushed, length_flushed_fold. reflexivity.
  - intros pre a body Ha Hbody.
    rewrite !parseGitBlame_flushed, fold_left_app. simpl.
    rewrite (fold_parseLine_others _ _ Hbody).
    apply flushed_parseLine_author. exact Ha.
Qed.

Lemma parseGitBlame_one_record_per_author_line_witness :
  List.length (parseGitBlame sampleStream)
  = List.length (filter isAuthorLine sampleStream)
  /\ parseGitBlame (sampleStream ++ "author Grace Hopper" :: ["committer x"])
     = parseGitBlame sampleStream ++ [mkLineBlame "Grace Hopper" 0].
Proof.
  destruct parseGitBlame_one_record_per_author_line as [Hcount Hlast].
  split.
  - apply Hcount.
  - apply (Hlast sampleStream "author Grace Hopper" ["committer x"]).
    + reflexivity.
    + repeat constructor.
Defined.

(** A timestamp line sets the timestamp of the record in progress. *)
Lemma parseGitBlame_timestamp (pre : list string) (a t : string) (ts : Z) :
  isAuthorLine a = true ->
  isAuthorLine t = false -> isTimeLine t = true ->
  Strconv.ParseInt (Strings.TrimPrefix t "author-time ") = Some ts ->
  parseGitBlame (pre ++ [a; t])
  = parseGitBlame pre
      ++ [mkLineBlame (truncateName (Strings.TrimPrefix a "author ")
                                    maxAuthorLength) ts].
Proof.
  intros Ha Hta Ht Hts.
  rewrite !parseGitBlame_flushed, fold_left_app. simpl.
  set (st := fold_left parseLine pre initial).
  unfold isAuthorLine, isTimeLine in *.
  unfold parseLine at 1. rewrite Hta, Ht.
  unfold parseLine. rewrite Ha. simpl. rewrite Hts.
  unfold flushed. simpl. destruct (currentBlame st); reflexivity.
Qed.


(** *** [truncateName] *)

Local Arguments Strings.spaceWidth : simpl never.

(** No field of [strings.Fields] is empty. *)
Lemma flush_nonempty (cur : string) : Forall (fun w => w <> EmptyString) (Strings.flush cur).
Proof. destruct cur; simpl; repeat constructor; discriminate. Qed.

Lemma fieldsFrom_nonempty (s : string) :
  forall skip cur, Forall (fun w => w <> EmptyString) (Strings.fieldsFrom s skip cur).
Proof.
  induction s as [|c s IH]; intros skip cur; simpl.
  - apply flush_nonempty.
  - destruct skip; [|apply IH].
    destruct (Strings.spaceWidth (String c s)); [apply IH|].
    apply Forall_app. split; [apply flush_nonempty | apply IH].
Qed.

Lemma Fields_nonempty (s : string) :
  Forall (fun w => w <> EmptyString) (Strings.Fields s).
Proof. apply fieldsFrom_nonempty. Qed.

Lemma truncateWords_each (ws : list string) :
  Forall (fun w => w <> EmptyString) ws ->
  forall totalLen maxLength,
    Forall2 keptOrInitial ws (truncateWords ws totalLen maxLength).
Proof.
  induction 1 as [|w ws Hw _ IH]; intros totalLen maxLength; simpl; [constructor|].
  destruct (totalLen >? maxLength).
  - destruct w as [|c r]; [congruence|].
    constructor; [right; eauto | apply IH].
  - constructor; [left; reflexivity | apply IH].
Qed.

Lemma truncateWords_fits (ws : list string) (totalLen maxLength : Z) :
  totalLen <= maxLength -> truncateWords ws totalLen maxLength = ws.
Proof.
  intros H. induction ws as [|w ws IH]; simpl; [reflexivity|].
  replace (totalLen >? maxLength) with false
    by (symmetry; rewrite Z.gtb_ltb; apply Z.ltb_ge; lia).
  now rewrite IH.
Qed.

Lemma Forall2_rev_both {A B} (R : A -> B -> Prop) (l : list A) (l' : list B) :
  Forall2 R l l' -> Forall2 R (rev l) (rev l').
Proof.
  induction 1; simpl; [constructor|].
  apply Forall2_app; [assumption | repeat constructor; assumption].
Qed.

(** The number of words is kept, each word is kept or replaced by the
    string of its first byte, and the result is their [Join]. *)
Lemma truncateName_words (name : string) (maxLength : Z) :
  exists ts,
    Forall2 keptOrInitial (Strings.Fields name) ts
    /\ truncateName name maxLength = Strings.Join ts " ".
Proof.
  unfold truncateName.
  exists (rev (truncateWords (rev (Strings.Fields name)) (GoInt.slen name) maxLength)).
  split; [|reflexivity].
  rewrite <- (rev_involutive (Strings.Fields name)) at 1.
  apply Forall2_rev_both, truncateWords_each.
  apply Forall_rev, Fields_nonempty.
Qed.

(** A name that fits is the [Join] of its words. *)
Lemma truncateName_fits (name : string) (maxLength : Z) :
  GoInt.slen name <= maxLength ->
  truncateName name maxLength = Strings.Join (Strings.Fields name) " ".
Proof.
  intros H. unfold truncateName.
  now rewrite truncateWords_fits, rev_involutive.
Qed.

(** For a word that starts with an ASCII byte, the string of its first
    byte is its first character. *)
Lemma stringOfByte_ascii (c : ascii) :
  Strings.byteOf c < 128 -> Strings.stringOfByte c = String c EmptyString.
Proof.
  intros H. unfold Strings.stringOfByte.
  now replace (Strings.byteOf c <? 128) with true by (symmetry; apply Z.ltb_lt; lia).
Qed.

Example truncateName_short : truncateName "Linus Torvalds" maxAuthorLength = "Linus Torvalds".
Proof. reflexivity. Qed.

Example truncateName_long :
  truncateName "Johann Sebastian Bach the Third" maxAuthorLength = "Johann S B t T".
Proof. reflexivity. Qed.

Lemma append_assoc (a b c : string) : ((a ++ b) ++ c = a ++ (b ++ c))%string.
Proof. induction a; simpl; congruence. Qed.

Lemma append_nil_r (a : string) : (a ++ EmptyString)%string = a.
Proof. induction a; simpl; congruence. Qed.

Lemma spaceWidth_plain (c : ascii) (s : string) :
  startsNoSpace c = true -> Strings.spaceWidth (String c s) = 0%nat.
Proof.
  unfold startsNoSpace, Strings.spaceWidth. simpl. intros H.
  apply negb_true_iff in H.
  repeat (apply orb_false_iff in H; destruct H as [?E H]).
  repeat match goal with
         | E : (_ =? _) = false |- _ => rewrite ?E; clear E
         end.
  destruct s as [|c1 [|c2 s]]; reflexivity.
Qed.

Lemma fieldsFrom_word (w : string) :
  Forall (fun c => startsNoSpace c = true) (list_ascii_of_string w) ->
  forall s cur,
    Strings.fieldsFrom (w ++ s)%string 0 cur = Strings.fieldsFrom s 0 (cur ++ w)%string.
Proof.
  induction w as [|c w IH]; simpl; intros H s cur.
  - now rewrite append_nil_r.
  - inversion H as [|? ? Hc Hw]; subst.
    rewrite spaceWidth_plain by exact Hc.
    rewrite IH by exact Hw. now rewrite append_assoc.
Qed.

Lemma Fields_Join (ws : list string) :
  Forall plainWord ws -> Strings.Fields (Strings.Join ws " ") = ws.
Proof.
  induction 1 as [|w ws [Hne Hw] Hws IH]; [reflexivity|].
  unfold Strings.Fields in *. destruct ws as [|w2 ws].
  - simpl. rewrite <- (append_nil_r w) at 1.
    rewrite fieldsFrom_word by exact Hw. simpl.
    destruct w; [congruence | reflexivity].
  - change (Strings.Join (w :: w2 :: ws) " ")
      with (w ++ String " " (Strings.Join (w2 :: ws) " "))%string.
    rewrite fieldsFrom_word by exact Hw.
    change (Strings.fieldsFrom (String " " (Strings.Join (w2 :: ws) " ")) 0 ("" ++ w))
      with (Strings.flush w ++ Strings.fieldsFrom (Strings.Join (w2 :: ws) " ") 0 "").
    rewrite IH. destruct w; [congruence | reflexivity].
Qed.

(** A name of words joined by single spaces that fits is returned as
    it is. *)
Lemma truncateName_unchanged (ws : list string) (maxLength : Z) :
  Forall plainWord ws ->
  GoInt.slen (Strings.Join ws " ") <= maxLength ->
  truncateName (Strings.Join ws " ") maxLength = Strings.Join ws " ".
Proof.
  intros Hws Hlen. rewrite truncateName_fits by exact Hlen.
  now rewrite Fields_Join.
Qed.

(** C10.  A word that starts with a multi-byte character is not
    replaced by its first character: [string(words[i][0])] converts the
    first byte of the word, 0xC3 for a capital E with acute accent, to
    the code point of that number, a capital A with tilde. *)
Theorem truncateName_initial_of_multibyte_word :
  Strings.Fields "Zola Émile-Édouard-Charles-Antoine"
  = ["Zola"; "Émile-Édouard-Charles-Antoine"]
  /\ truncateName "Zola Émile-Édouard-Charles-Antoine" maxAuthorLength = "Zola Ã"
  /\ Strings.HasPrefix "Émile-Édouard-Charles-Antoine" "Ã" = false.
Proof. repeat split. Qed.

End BlameProps.

(** ** The matcher *)

Module RegexpProps.

Import Regexp.
Local Open Scope list_scope.

Lemma orElse_Some (a b : option mstate) (res : mstate) :
  orElse a b = Some res -> a = Some res \/ b = Some res.
Proof. destruct a; simpl; auto. Qed.

Lemma eat_sound (p : ascii -> bool) :
  soundFor (fun w => exists c, w = [c] /\ p c = true) (eat p).
Proof.
  intros st k res. unfold eat.
  destruct (rest st) as [|c cs] eqn:E; [discriminate|].
  destruct (p c) eqn:Ep; [|discriminate].
  intros H. eexists [c], _. split; [|split; [eauto | exact H]]. reflexivity.
Qed.

Lemma check_sound (b : bool) : soundFor (fun w => w = []) (check b).
Proof.
  intros st k res. unfold check. destruct b; [|discriminate].
  intros H. exists [], st. auto.
Qed.

Lemma repeatLoop_sound (P : list ascii -> Prop) body greedy k :
  soundFor P body ->
  forall fuel st res,
    repeatLoop body greedy k fuel st = Some res ->
    exists w st', rest st = w ++ rest st' /\ iter P w /\ k st' = Some res.
Proof.
  intros Hbody. induction fuel as [|f IH]; intros st res; simpl.
  - intros H. exists [], st. split; [reflexivity|]. split; [constructor | exact H].
  - intros H.
    assert (Hcases :
      body st (fun st' =>
        if (List.length (rest st') <? List.length (rest st))%nat
        then repeatLoop body greedy k f st' else None) = Some res
      \/ k st = Some res).
    { destruct greedy; apply orElse_Some in H; tauto. }
    destruct Hcases as [Hmore | Hk].
    + apply Hbody in Hmore. destruct Hmore as (w1 & st1 & E1 & P1 & Hnext).
      destruct (List.length (rest st1) <? List.length (rest st))%nat; [|discriminate].
      apply IH in Hnext. destruct Hnext as (w2 & st2 & E2 & P2 & Hk).
      exists (w1 ++ w2), st2. split; [|split; [constructor; assumption | exact Hk]].
      rewrite E1, E2. now rewrite app_assoc.
    + exists [], st. split; [reflexivity|]. split; [constructor | exact Hk].
Qed.

Local Arguments repeatLoop : simpl never.

Theorem run_sound (r : re) : soundFor (lang r) (run r).
Proof.
  induction r as [ | c | neg rs | | | | | | | a IHa b IHb | a IHa b IHb
                   | g a IHa | g a IHa | g a IHa | i a IHa ];
    intros st k res; simpl.
  - intros H. exists [], st. auto.
  - intros H. apply eat_sound in H. destruct H as (w & st' & E & (c' & -> & Hc) & Hk).
    apply Ascii.eqb_eq in Hc. subst c'. eauto.
  - intros H. apply eat_sound in H. exact H.
  - apply check_sound.
  - apply check_sound.
  - apply check_sound.
  - apply check_sound.
  - apply check_sound.
  - apply check_sound.
  - intros H. apply IHa in H. destruct H as (u & st1 & E1 & Pu & H).
    apply IHb in H. destruct H as (v & st2 & E2 & Pv & H).
    exists (u ++ v), st2. split; [|split; [eauto | exact H]].
    rewrite E1, E2. now rewrite app_assoc.
  - intros H. apply orElse_Some in H. destruct H as [H | H].
    + apply IHa in H. destruct H as (w & st' & E & Pw & H). eauto 6.
    + apply IHb in H. destruct H as (w & st' & E & Pw & H). eauto 6.
  - apply repeatLoop_sound. exact IHa.
  - intros H. apply IHa in H. destruct H as (u & st1 & E1 & Pu & H).
    eapply repeatLoop_sound in H; [|exact IHa]. destruct H as (v & st2 & E2 & Pv & H).
    exists (u ++ v), st2. split; [|split; [eauto | exact H]].
    rewrite E1, E2. now rewrite app_assoc.
  - intros H.
    assert (Hcases : run a st k = Some res \/ k st = Some res).
    { destruct g; apply orElse_Some in H; tauto. }
    destruct Hcases as [H1 | H1].
    + apply IHa in H1. destruct H1 as (w & st' & E & Pw & H1). eauto 6.
    + exists [], st. auto.
  - intros H. apply IHa in H. destruct H as (w & st' & E & Pw & H).
    eexists w, _. split; [|split; [exact Pw | exact H]]. exact E.
Qed.

(** A match found by [search] is a piece of the text in the language of
    the expression. *)
Lemma search_sound (r : re) (s : list ascii) :
  forall prv p found,
    search r prv p s = Some found ->
    exists pre w post, s = pre ++ w ++ post /\ lang r w.
Proof.
  induction s as [|c s IH]; intros prv p found; simpl.
  - destruct (run r _ _) eqn:E; [|discriminate].
    intros _. apply run_sound in E. destruct E as (w & st' & E & Pw & _).
    simpl in E. exists [], w, (rest st'). auto.
  - destruct (run r _ _) eqn:E.
    + intros _. apply run_sound in E. destruct E as (w & st' & E & Pw & _).
      simpl in E. exists [], w, (rest st'). auto.
    + intros H. apply IH in H. destruct H as (pre & w & post & -> & Pw).
      exists (c :: pre), w, post. auto.
Qed.

Lemma FindSubmatch_sound (r : re) (b : string) :
  FindSubmatch r b <> [] ->
  exists pre w post, list_ascii_of_string b = pre ++ w ++ post /\ lang r w.
Proof.
  unfold FindSubmatch.
  destruct (search r None 0 (list_ascii_of_string b)) as [found|] eqn:E; [|congruence].
  intros _. apply search_sound in E. exact E.
Qed.

(** Without a match the result is [nil]; with one it has the whole match
    and one entry per group. *)
Lemma FindSubmatch_length (r : re) (b : string) :
  FindSubmatch r b = [] \/ List.length (FindSubmatch r b) = S (NumSubexp r).
Proof.
  unfold FindSubmatch.
  destruct (search r None 0 (list_ascii_of_string b)) as [[start st]|]; [right|left; reflexivity].
  simpl. now rewrite length_map, length_seq.
Qed.

End RegexpProps.

(** ** The marker pattern *)

Module MarkerProps.

Import Regexp Marker.
Local Open Scope list_scope.

Lemma Compile_query : Compile query = compiled.
Proof. vm_compute. reflexivity. Qed.

Lemma compiled_Some : exists r, compiled = Some r.
Proof. unfold compiled. eauto. Qed.

Lemma prefixb_app (p c : list ascii) : prefixb p (p ++ c) = true.
Proof. induction p; simpl; [reflexivity|]. now rewrite Ascii.eqb_refl. Qed.

Lemma infixb_unfold (p s : list ascii) :
  infixb p s = prefixb p s || match s with [] => false | _ :: s' => infixb p s' end.
Proof. destruct s; reflexivity. Qed.

Lemma infixb_here (p c : list ascii) : infixb p (p ++ c) = true.
Proof. rewrite infixb_unfold, prefixb_app. reflexivity. Qed.

Lemma infixb_later (p a s : list ascii) :
  infixb p s = true -> infixb p (a ++ s) = true.
Proof.
  intros H. induction a as [|x a IH]; [exact H|].
  simpl app. rewrite infixb_unfold, IH. apply orb_true_r.
Qed.

Lemma prefixb_longer (p s c : list ascii) :
  prefixb p s = true -> prefixb p (s ++ c) = true.
Proof.
  revert s. induction p as [|x p IH]; intros s; simpl; [reflexivity|].
  destruct s as [|y s]; [discriminate|]. simpl.
  intros H. apply andb_true_iff in H. destruct H as [-> H]. now apply IH.
Qed.

Lemma infixb_earlier (p s c : list ascii) :
  infixb p s = true -> infixb p (s ++ c) = true.
Proof.
  induction s as [|y s IH]; simpl.
  - destruct p; [intros _; apply (infixb_here [] c) | discriminate].
  - intros H. apply orb_true_iff in H. destruct H as [H | H].
    + change (prefixb p (y :: s ++ c)) with (prefixb p ((y :: s) ++ c)).
      now rewrite (prefixb_longer p (y :: s) c H).
    + rewrite (IH H). apply orb_true_r.
Qed.

Ltac break_lang :=
  repeat match goal with
         | H : exists _, _ |- _ => destruct H
         | H : _ /\ _ |- _ => destruct H
         | H : _ \/ _ |- _ => destruct H
         end.

Ltac find_infix :=
  first [ reflexivity
        | apply infixb_here
        | apply infixb_later; find_infix
        | apply infixb_earlier; find_infix ].

(** What the marker pattern matches has a configured tag in it. *)
Lemma lang_compiled_hasTag (r : re) (w : list ascii) :
  compiled = Some r -> lang r w ->
  exists tag, In tag tags /\ infixb (list_ascii_of_string tag) w = true.
Proof.
  unfold compiled. intros E. injection E as <-.
  intros H. simpl in H.
  destruct H as (u0 & v0 & -> & _ & u1 & v1 & -> & _ & u2 & v2 & -> & _
                 & u3 & v3 & -> & _ & t & v4 & -> & Ht & _).
  assert (Htag : exists tag, In tag tags /\ t = list_ascii_of_string tag).
  { break_lang; subst;
      match goal with
      | |- exists tag, _ /\ ?l = _ =>
        exists (string_of_list_ascii l); split; [simpl; tauto | reflexivity]
      end. }
  destruct Htag as (tag & Hin & ->).
  exists tag. split; [exact Hin|].
  do 4 apply infixb_later. apply infixb_here.
Qed.

(** A line the marker pattern matches has a configured tag in it. *)
Lemma FindSubmatch_hasTag (r : re) (line : string) :
  compiled = Some r -> FindSubmatch r line <> [] -> hasTag line = true.
Proof.
  intros E H. apply RegexpProps.FindSubmatch_sound in H.
  destruct H as (pre & w & post & Eline & Hw).
  destruct (lang_compiled_hasTag r w E Hw) as (tag & Hin & Hinfix).
  unfold hasTag. apply existsb_exists. exists tag. split; [exact Hin|].
  rewrite Eline. apply infixb_later, infixb_earlier. exact Hinfix.
Qed.

End MarkerProps.

(** ** The scan of one file *)

Module ScanProps.

Import Search Samples.
Local Open Scope list_scope.

Lemma filter_above (k : Z) (ms : list matchLine) :
  Forall (fun b => k < n b) ms -> filter (fun m => n m =? k) ms = [].
Proof.
  induction 1 as [|b ms Hb _ IH]; simpl; [reflexivity|].
  replace (n b =? k) with false by (symmetry; apply Z.eqb_neq; lia). exact IH.
Qed.

Lemma filter_below (k : Z) (ms : list matchLine) :
  Forall (fun b => n b < k) ms -> filter (fun m => n m =? k) ms = [].
Proof.
  induction 1 as [|b ms Hb _ IH]; simpl; [reflexivity|].
  replace (n b =? k) with false by (symmetry; apply Z.eqb_neq; lia). exact IH.
Qed.

Lemma ascending_at_most_one (ms : list matchLine) :
  StronglySorted ascending ms ->
  forall k : Z, (List.length (filter (fun m => (n m =? k)%Z) ms) <= 1)%nat.
Proof.
  induction 1 as [|a ms Hs IH Ha]; intros k; simpl; [lia|].
  destruct (Z.eqb_spec (n a) k) as [<- | _]; [|apply IH].
  rewrite filter_above by exact Ha. simpl. lia.
Qed.

Section Scan.

Variable regex : Regexp.re.

Lemma scanLoop_text (text : string) (rest : list string)
      (line : Z) (lines : list matchLine) :
  textLine text = true ->
  scanLoop regex (text :: rest) line lines
  = scanLoop regex rest (GoInt.wrapInt (line + 1)) (lines ++ lineMatch regex line text).
Proof.
  unfold textLine, lineMatch. intros H. simpl. rewrite H. simpl.
  destruct (GoInt.len (Regexp.FindSubmatch regex text) >=? 3); [reflexivity|].
  now rewrite app_nil_r.
Qed.

Lemma scanLoop_binary (text : string) (rest : list string)
      (line : Z) (lines : list matchLine) :
  textLine text = false ->
  scanLoop regex (text :: rest) line lines = lines.
Proof. unfold textLine. intros H. simpl. now rewrite H. Qed.

Lemma scanLoop_acc (file : list string) :
  forall line lines,
    scanLoop regex file line lines = lines ++ scanLoop regex file line [].
Proof.
  induction file as [|text rest IH]; intros line lines.
  - simpl. now rewrite app_nil_r.
  - destruct (textLine text) eqn:E.
    + rewrite !scanLoop_text by exact E.
      rewrite IH, (IH _ ([] ++ _)). simpl. now rewrite app_assoc.
    + rewrite !scanLoop_binary by exact E. now rewrite app_nil_r.
Qed.

Lemma lineMatch_cases (line : Z) (text : string) :
  lineMatch regex line text = []
  \/ exists m, lineMatch regex line text = [m] /\ n m = line.
Proof.
  unfold lineMatch. destruct (_ >=? 3); [right|left; reflexivity].
  eexists. split; reflexivity.
Qed.

Lemma fromLine_cons (text : string) (rest : list string)
      (line : Z) (m : matchLine) :
  fromLine regex rest (line + 1) m -> fromLine regex (text :: rest) line m.
Proof.
  unfold fromLine, GoInt.len. intros [Hr (l & Hl & Ht & Hm)]. simpl List.length.
  split; [lia|]. exists l. split; [|auto].
  replace (Z.to_nat (n m - line)) with (S (Z.to_nat (n m - (line + 1)))) by lia.
  exact Hl.
Qed.

Lemma scanLoop_props (file : list string) :
  forall line,
    1 <= line -> line + GoInt.len file - 1 <= GoInt.maxInt64 ->
    Forall (fromLine regex file line) (scanLoop regex file line [])
    /\ StronglySorted ascending (scanLoop regex file line []).
Proof.
  induction file as [|text rest IH]; intros line Hline Hmax.
  - simpl. split; constructor.
  - destruct (textLine text) eqn:E.
    2:{ rewrite scanLoop_binary by exact E. split; constructor. }
    rewrite scanLoop_text by exact E. rewrite scanLoop_acc. simpl app.
    assert (Htail :
      Forall (fromLine regex (text :: rest) line)
             (scanLoop regex rest (GoInt.wrapInt (line + 1)) [])
      /\ Forall (fun b => line < n b) (scanLoop regex rest (GoInt.wrapInt (line + 1)) [])
      /\ StronglySorted ascending (scanLoop regex rest (GoInt.wrapInt (line + 1)) [])).
    { destruct rest as [|t2 rest'].
      - simpl. repeat split; constructor.
      - assert (Hw : GoInt.wrapInt (line + 1) = line + 1).
        { apply BlameProps.wrapInt_id.
          unfold GoInt.inInt64, GoInt.minInt64, GoInt.maxInt64, GoInt.len in *.
          simpl List.length in Hmax. lia. }
        rewrite Hw.
        destruct (IH (line + 1)) as [Hfrom Hsorted].
        + lia.
        + unfold GoInt.len in *. simpl List.length in *. lia.
        + split; [|split; [|exact Hsorted]].
          * eapply Forall_impl; [|exact Hfrom]. intros m. apply fromLine_cons.
          * eapply Forall_impl; [|exact Hfrom]. intros m [Hr _]. cbv beta. lia. }
    destruct Htail as (Hfrom & Hlt & Hsorted).
    destruct (lineMatch_cases line text) as [Hm | (m & Hm & Hn)]; rewrite Hm.
    + simpl. split; assumption.
    + simpl. split.
      * constructor; [|exact Hfrom].
        unfold fromLine, GoInt.len. simpl List.length. split; [lia|].
        exists text. rewrite Hn, Z.sub_diag. simpl.
        split; [reflexivity|]. split; [exact E|exact Hm].
      * constructor; [exact Hsorted|].
        eapply Forall_impl; [|exact Hlt]. intros b Hb. unfold ascending. cbv beta in Hb. lia.
Qed.

(** C3.  Whatever the file holds, its matches carry the numbers of the
    lines they come from, counted from 1, in strictly increasing order,
    each with the tag and text the pattern finds on that line; no line
    has two matches. *)
Theorem scanFile_line_numbers (file : list string)
  (Hlen : GoInt.len file <= GoInt.maxInt64) :
  StronglySorted ascending (scanFile regex file)
  /\ Forall (fromLine regex file 1) (scanFile regex file)
  /\ forall k : Z,
       (List.length (filter (fun m => (n m =? k)%Z) (scanFile regex file)) <= 1)%nat.
Proof.
  destruct (scanLoop_props file 1) as [Hfrom Hsorted]; [lia | lia |].
  split; [exact Hsorted|]. split; [exact Hfrom|].
  apply ascending_at_most_one. exact Hsorted.
Qed.

(** The loop stops at the first line that is not plain text. *)
Lemma scanLoop_stops (pre : list string) (l : string)
      (post : list string) :
  Forall (fun x => textLine x = true) pre -> textLine l = false ->
  forall line lines,
    scanLoop regex (pre ++ l :: post) line lines = scanLoop regex pre line lines.
Proof.
  intros Hpre Hl. induction Hpre as [|x pre Hx _ IH]; intros line lines.
  - simpl app. now rewrite scanLoop_binary.
  - simpl app. rewrite !scanLoop_text by exact Hx. apply IH.
Qed.

(** C5.  The scan of a file stops at its first line that is not plain
    text: the lines after it count for nothing, and when it is the first
    line of the file there is no match at all. *)
Theorem scanFile_stops_at_binary (pre : list string)
        (l : string) (post : list string)
  (Hpre : Forall (fun x => textLine x = true) pre)
  (Hl : textLine l = false) :
  scanFile regex (pre ++ l :: post) = scanFile regex pre
  /\ (pre = [] -> scanFile regex (pre ++ l :: post) = []).
Proof.
  unfold scanFile. split.
  - now apply scanLoop_stops.
  - intros ->. simpl app. now rewrite scanLoop_binary.
Qed.

(** Over plain-text lines the loop goes on with the next line number. *)
Lemma scanLoop_app_text (pre rest : list string) :
  Forall (fun x => textLine x = true) pre ->
  forall line lines,
    GoInt.minInt64 <= line -> line + GoInt.len pre <= GoInt.maxInt64 ->
    scanLoop regex (pre ++ rest) line lines
    = scanLoop regex rest (line + GoInt.len pre) (scanLoop regex pre line lines).
Proof.
  intros Hpre. induction Hpre as [|x pre Hx _ IH]; intros line lines Hmin Hmax.
  - simpl. now rewrite Z.add_0_r.
  - simpl app. rewrite !scanLoop_text by exact Hx.
    unfold GoInt.len in *. simpl List.length in *.
    rewrite BlameProps.wrapInt_id by (unfold GoInt.inInt64; lia).
    rewrite IH by lia. f_equal. lia.
Qed.

End Scan.

Lemma scanFile_line_numbers_witness :
  StronglySorted ascending (scanFile rx sampleFile)
  /\ Forall (fromLine rx sampleFile 1) (scanFile rx sampleFile)
  /\ forall k : Z,
       (List.length (filter (fun m => (n m =? k)%Z) (scanFile rx sampleFile)) <= 1)%nat.
Proof.
  apply (scanFile_line_numbers rx sampleFile). vm_compute. discriminate.
Defined.

Example scanFile_sample :
  scanFile rx sampleFile
  = [mkMatchLine 3 "TODO" "fix this"; mkMatchLine 4 "FIXME" "leak"].
Proof. vm_compute. reflexivity. Qed.

(** A line with two tag words has one match, that of the leftmost. *)
Example scanFile_two_tags_one_match :
  scanFile rx ["// TODO: tidy up FIXME: and this"%string]
  = [mkMatchLine 1 "TODO" "tidy up FIXME: and this"].
Proof. vm_compute. reflexivity. Qed.

Lemma scanFile_stops_at_binary_witness :
  scanFile rx (["// TODO: seen"%string] ++ gifLine :: ["// FIXME: never seen"%string])
  = scanFile rx ["// TODO: seen"%string]
  /\ (["// TODO: seen"%string] = [] ->
      scanFile rx (["// TODO: seen"%string] ++ gifLine :: ["// FIXME: never seen"%string]) = []).
Proof.
  apply (scanFile_stops_at_binary rx ["// TODO: seen"%string] gifLine
                                  ["// FIXME: never seen"%string]).
  - apply Forall_cons; [vm_compute; reflexivity | apply Forall_nil].
  - vm_compute. reflexivity.
Defined.

Example scanFile_binary_first_line :
  scanFile rx [gifLine; "// TODO: never seen"%string] = [].
Proof. vm_compute. reflexivity. Qed.

Lemma todo_line_facts (r : Regexp.re) :
  Marker.compiled = Some r ->
  textLine "// TODO: fix this" = true
  /\ forall line, lineMatch r line "// TODO: fix this" = [mkMatchLine line "TODO" "fix this"].
Proof.
  unfold Marker.compiled. intros E. injection E as <-.
  split; [vm_compute; reflexivity|]. intros line. unfold lineMatch.
  match goal with
  | |- context [Regexp.FindSubmatch ?r ?l] =>
    replace (Regexp.FindSubmatch r l) with ["// TODO: fix this"; "TODO"; "fix this"]%string
      by (vm_compute; reflexivity)
  end.
  reflexivity.
Qed.

(** C2.  The pattern of [parseArgs] compiles, and in every file whose
    scan reaches a line [// TODO: fix this] that line yields exactly one
    match, with tag [TODO] and text [fix this]. *)
Theorem scanFile_todo_line :
  exists r, Regexp.Compile Marker.query = Some r
    /\ forall pre post : list string,
         Forall (fun x => textLine x = true) pre ->
         GoInt.len (pre ++ "// TODO: fix this"%string :: post) <= GoInt.maxInt64 ->
         filter (fun m => n m =? GoInt.len pre + 1)
                (scanFile r (pre ++ "// TODO: fix this"%string :: post))
         = [mkMatchLine (GoInt.len pre + 1) "TODO" "fix this"].
Proof.
  destruct MarkerProps.compiled_Some as [r Hr]. exists r.
  split; [rewrite MarkerProps.Compile_query; exact Hr|].
  destruct (todo_line_facts r Hr) as [Htext Hmatch].
  intros pre post Hpre Hlen.
  assert (Hlen' : GoInt.len pre + 1 + GoInt.len post <= GoInt.maxInt64).
  { unfold GoInt.len in *. rewrite length_app in Hlen. simpl List.length in Hlen. lia. }
  assert (Hpos : 0 <= GoInt.len pre /\ 0 <= GoInt.len post) by (unfold GoInt.len; lia).
  unfold scanFile.
  rewrite scanLoop_app_text
    by (try exact Hpre; unfold GoInt.minInt64; lia).
  rewrite scanLoop_text by exact Htext.
  rewrite scanLoop_acc, Hmatch, !filter_app.
  replace (1 + GoInt.len pre) with (GoInt.len pre + 1) by lia.
  rewrite (filter_below (GoInt.len pre + 1) (scanLoop r pre 1 [])).
  2:{ destruct (scanLoop_props r pre 1) as [Hfrom _]; [lia | lia |].
      eapply Forall_impl; [|exact Hfrom]. intros m [Hm _]. cbv beta. lia. }
  rewrite (filter_above (GoInt.len pre + 1)
             (scanLoop r post (GoInt.wrapInt (GoInt.len pre + 1 + 1)) [])).
  2:{ destruct post as [|p post']; [constructor|].
      assert (Hw : GoInt.wrapInt (GoInt.len pre + 1 + 1) = GoInt.len pre + 1 + 1).
      { apply BlameProps.wrapInt_id.
        unfold GoInt.inInt64, GoInt.minInt64, GoInt.len in *.
        simpl List.length in Hlen'. lia. }
      rewrite Hw.
      destruct (scanLoop_props r (p :: post') (GoInt.len pre + 1 + 1)) as [Hfrom _];
        [lia | lia |].
      eapply Forall_impl; [|exact Hfrom]. intros m [Hm _]. cbv beta. lia. }
  simpl. rewrite Z.eqb_refl. reflexivity.
Qed.

Lemma scanFile_todo_line_witness :
  exists r, Regexp.Compile Marker.query = Some r
    /\ filter (fun m => n m =? GoInt.len ["package main"%string] + 1)
              (scanFile r (["package main"%string] ++ "// TODO: fix this"%string
                                                  :: ["done()"%string]))
       = [mkMatchLine (GoInt.len ["package main"%string] + 1) "TODO" "fix this"].
Proof.
  destruct scanFile_todo_line as (r & Hr & H). exists r. split; [exact Hr|].
  apply H.
  - apply Forall_cons; [vm_compute; reflexivity | apply Forall_nil].
  - vm_compute. discriminate.
Defined.

(** Trailing white space of the line stays in the text. *)
Example todo_line_trailing_space :
  Regexp.FindSubmatch rx "// TODO: fix this  "
  = ["// TODO: fix this  "; "TODO"; "fix this  "]%string.
Proof. vm_compute. reflexivity. Qed.

End ScanProps.

(** ** The walker *)

Module WalkProps.

Import Search Samples.
Local Open Scope list_scope.

Lemma IsRegular_not_IsDir (d : DirEntry) : IsRegular d = true -> IsDir d = false.
Proof.
  unfold IsRegular, IsDir. intros H. apply Z.eqb_eq in H.
  assert (E : Z.land (Type_ d) ModeDir = 0).
  { replace ModeDir with (Z.land ModeType ModeDir) by reflexivity.
    rewrite Z.land_assoc, H. reflexivity. }
  rewrite E. reflexivity.
Qed.

Lemma walk_cases (path : string) (d : DirEntry) (err : option error)
      (regex : Regexp.re) (st : state) :
  (err = None /\ IsDir d = false
   /\ walk path d err regex st = (sendJob (mkJob path regex) (wgAdd 1 st), None))
  \/ ((err <> None \/ IsDir d = true) /\ fst (walk path d err regex st) = st).
Proof.
  unfold walk. destruct err as [e|].
  - right. split; [left; discriminate | reflexivity].
  - destruct (IsDir d); simpl; [right | left]; auto.
Qed.

(** Every job [WalkDir] queues is for an entry it visited without error
    that is not a directory. *)
Lemma WalkDir_jobs (regex : Regexp.re) (visits : list visit) :
  forall st j,
    In j (searchJobs (fst (WalkDir visits regex st))) ->
    In j (searchJobs st)
    \/ exists v, In v visits /\ j = mkJob (vpath v) regex
                 /\ IsDir (ventry v) = false /\ verr v = None.
Proof.
  induction visits as [|v visits IH]; intros st j; simpl; [auto|].
  destruct (walk_cases (vpath v) (ventry v) (verr v) regex st)
    as [(He & Hd & Hw) | (Hc & Hw)].
  - rewrite Hw. intros Hj. apply IH in Hj. destruct Hj as [Hj | (v' & Hv' & Hj)].
    + simpl in Hj. apply in_app_or in Hj. destruct Hj as [Hj | [<- | []]]; [auto|].
      right. exists v. auto.
    + right. exists v'. auto.
  - destruct (walk (vpath v) (ventry v) (verr v) regex st) as [st' [e|]] eqn:E;
      simpl in Hw; subst st'.
    + simpl. auto.
    + intros Hj. apply IH in Hj. destruct Hj as [Hj | (v' & Hv' & Hj)]; [auto|].
      right. exists v'. auto.
Qed.

(** C8, as the code has it.  [walk] queues a job for an entry exactly
    when the walk reports no error for it and it is not a directory: a
    regular file is queued, a directory never is, and so is every job
    [WalkDir] queues. *)
Theorem walk_queues_non_directories :
  (forall path d err regex st,
      searchJobs (fst (walk path d err regex st)) = searchJobs st ++ [mkJob path regex]
      <-> err = None /\ IsDir d = false)
  /\ (forall path d regex st,
         IsRegular d = true ->
         walk path d None regex st = (sendJob (mkJob path regex) (wgAdd 1 st), None))
  /\ (forall regex visits st j,
         In j (searchJobs (fst (WalkDir visits regex st))) ->
         In j (searchJobs st)
         \/ exists v, In v visits /\ j = mkJob (vpath v) regex
                      /\ IsDir (ventry v) = false /\ verr v = None).
Proof.
  split; [|split].
  - intros path d err regex st.
    destruct (walk_cases path d err regex st) as [(He & Hd & Hw) | (Hc & Hw)].
    + rewrite Hw. simpl. tauto.
    + rewrite Hw. split.
      * intros H. exfalso.
        apply (f_equal (@List.length _)) in H. rewrite length_app in H. simpl in H. lia.
      * intros [He Hd]. destruct Hc; congruence.
  - intros path d regex st H. apply IsRegular_not_IsDir in H.
    unfold walk. rewrite H. reflexivity.
  - intros regex visits st j. apply WalkDir_jobs.
Qed.

Lemma walk_queues_non_directories_witness :
  (searchJobs (fst (walk "a.go" fileEntry None rx st0)) = searchJobs st0 ++ [mkJob "a.go" rx]
   <-> None = (None : option error) /\ IsDir fileEntry = false)
  /\ walk "a.go" fileEntry None rx st0 = (sendJob (mkJob "a.go" rx) (wgAdd 1 st0), None)
  /\ (In (mkJob "a.go" rx)
         (searchJobs st0)
      \/ exists v, In v [mkVisit "src" dirEntry None; mkVisit "a.go" fileEntry None]
                   /\ mkJob "a.go" rx = mkJob (vpath v) rx
                   /\ IsDir (ventry v) = false /\ verr v = None).
Proof.
  destruct walk_queues_non_directories as (Hiff & Hreg & Hdir).
  split; [|split].
  - apply Hiff.
  - apply Hreg. reflexivity.
  - apply (Hdir rx [mkVisit "src" dirEntry None; mkVisit "a.go" fileEntry None] st0).
    simpl. left. reflexivity.
Defined.

Example WalkDir_sample :
  searchJobs (fst (WalkDir [mkVisit "src" dirEntry None; mkVisit "src/a.go" fileEntry None;
                            mkVisit "src/link" symlinkEntry None] rx st0))
  = [mkJob "src/a.go" rx; mkJob "src/link" rx].
Proof. reflexivity. Qed.

(** C8, as it is stated, fails on a symbolic link: it is neither a
    directory nor a regular file, and a job is queued for it. *)
Lemma walk_queues_symlink :
  IsRegular symlinkEntry = false
  /\ IsDir symlinkEntry = false
  /\ searchJobs (fst (walk "link" symlinkEntry None rx st0))
     = searchJobs st0 ++ [mkJob "link" rx]
  /\ ~ queuedIffRegular.
Proof.
  split; [reflexivity|]. split; [reflexivity|]. split; [reflexivity|].
  intros H. destruct (H "link"%string symlinkEntry rx st0) as [Hq _].
  assert (Hreg : IsRegular symlinkEntry = true) by (apply Hq; reflexivity).
  vm_compute in Hreg. discriminate.
Qed.

End WalkProps.

(** ** The worker *)

Module WorkerProps.

Import Search Samples.
Local Open Scope list_scope.

Lemma len_pos_iff {A} (l : list A) : (GoInt.len l >? 0) = negb (match l with [] => true | _ => false end).
Proof. destruct l; unfold GoInt.len; simpl; [reflexivity|]. rewrite Z.gtb_ltb. reflexivity. Qed.

Section OneWorker.

Variable fs : FS.
Variable matcher : Matcher.

(** The state after the worker scanned the file [f] of a job. *)
Lemma worker_scans (job : searchJob) (f : list string)
      (rest : list searchJob) (st : state) :
  opensAs fs matcher job f ->
  exists st1,
    searchWorker fs matcher (job :: rest) st = searchWorker fs matcher rest st1
    /\ searchResults st1 = searchResults st ++ resultOf job f
    /\ wg st1 = wg st - 1
    /\ wgResult st1 = wgResult st + GoInt.len (resultOf job f)
    /\ stdout st1 = stdout st.
Proof.
  intros (info & Hs & Hi & Ho). simpl. rewrite Hs, Hi, Ho.
  eexists. split; [reflexivity|]. unfold resultOf. rewrite len_pos_iff.
  destruct (scanFile (regex job) f); simpl.
  - rewrite app_nil_r. repeat split; unfold GoInt.len; simpl; lia.
  - repeat split; unfold GoInt.len; simpl; lia.
Qed.

Lemma worker_skips (job : searchJob)
      (rest : list searchJob) (st : state) :
  skips fs matcher job ->
  searchWorker fs matcher (job :: rest) st = searchWorker fs matcher rest (wgAdd (-1) st).
Proof. intros (info & Hs & Hi). simpl. now rewrite Hs, Hi. Qed.

Lemma worker_open_fails (job : searchJob) (err : PathError)
      (rest : list searchJob) (st : state) :
  failsToOpen fs matcher job err ->
  searchWorker fs matcher (job :: rest) st
  = (st, Exited ("couldn't open path " ++ path job ++ ": " ++ Error err ++ nl)%string).
Proof. intros (info & Hs & Hi & Ho). simpl. now rewrite Hs, Hi, Ho. Qed.

Lemma jobResults_opens (job : searchJob) (f : list string) :
  opensAs fs matcher job f -> jobResults fs matcher job = resultOf job f.
Proof. intros (info & Hs & Hi & Ho). unfold jobResults. now rewrite Hs, Hi, Ho. Qed.

Lemma jobResults_skips (job : searchJob) :
  skips fs matcher job -> jobResults fs matcher job = [].
Proof. intros (info & Hs & Hi). unfold jobResults. now rewrite Hs, Hi. Qed.

(** Over jobs it skips or scans the worker goes on to the jobs that
    follow, having counted each job as done and sent each result. *)
Lemma worker_handles (pre : list searchJob) :
  Forall (handled fs matcher) pre ->
  forall (post : list searchJob) (st : state),
    exists st1,
      searchWorker fs matcher (pre ++ post) st = searchWorker fs matcher post st1
      /\ searchResults st1 = searchResults st ++ flat_map (jobResults fs matcher) pre
      /\ wg st1 = wg st - GoInt.len pre
      /\ stdout st1 = stdout st.
Proof.
  induction 1 as [|job pre Hjob _ IH]; intros post st.
  - exists st. simpl. rewrite app_nil_r. repeat split. unfold GoInt.len. simpl. lia.
  - simpl app. destruct Hjob as [Hskip | [f Hopen]].
    + rewrite worker_skips by exact Hskip.
      destruct (IH post (wgAdd (-1) st)) as (st1 & Hrun & Hres & Hwg & Hout).
      exists st1. split; [exact Hrun|]. simpl flat_map.
      rewrite (jobResults_skips _ Hskip). simpl.
      repeat split; [exact Hres | | exact Hout].
      rewrite Hwg. unfold GoInt.len. simpl List.length. simpl wg. lia.
    + destruct (worker_scans job f (pre ++ post) st Hopen)
        as (st' & Hrun' & Hres' & Hwg' & _ & Hout').
      rewrite Hrun'.
      destruct (IH post st') as (st1 & Hrun & Hres & Hwg & Hout).
      exists st1. split; [exact Hrun|]. simpl flat_map.
      rewrite (jobResults_opens _ _ Hopen).
      repeat split.
      * rewrite Hres, Hres'. now rewrite app_assoc.
      * rewrite Hwg, Hwg'. unfold GoInt.len. simpl List.length. lia.
      * congruence.
Qed.

(** What the worker does with a job whose file it cannot stat: it
    prints a message and returns. *)
Lemma worker_stat_fails (job : searchJob)
      (rest : list searchJob) (st : state) :
  failsToStat fs job ->
  exists report, searchWorker fs matcher (job :: rest) st = (print report st, Returned).
Proof.
  intros [err Hs]. simpl. rewrite Hs. destruct (IsNotExist err); eauto.
Qed.

(** No result the worker sends has an empty list of lines. *)
Lemma worker_results_nonempty (jobs : list searchJob) :
  forall st,
    Forall (fun r => Lines r <> []) (searchResults st) ->
    Forall (fun r => Lines r <> []) (searchResults (fst (searchWorker fs matcher jobs st))).
Proof.
  induction jobs as [|job jobs IH]; intros st Hst; simpl; [exact Hst|].
  destruct (Stat fs (path job)) as [info|err].
  - destruct (ignored matcher (path job) info); [apply IH; exact Hst|].
    destruct (Open fs (path job)) as [f|err]; [|exact Hst].
    apply IH. rewrite len_pos_iff.
    destruct (scanFile (regex job) f) eqn:E; simpl; [exact Hst|].
    apply Forall_app. split; [exact Hst|]. repeat constructor. simpl. discriminate.
  - destruct (IsNotExist err); exact Hst.
Qed.

End OneWorker.

(** A file without any configured tag has no match. *)
Lemma scanFile_no_tags (r : Regexp.re) (f : list string) :
  Marker.compiled = Some r ->
  Forall (fun l => Marker.hasTag l = false) f ->
  scanFile r f = [].
Proof.
  intros Hr Hf. unfold scanFile. generalize 1.
  induction Hf as [|l f Hl _ IH]; intros line; [reflexivity|].
  destruct (textLine l) eqn:E.
  - rewrite ScanProps.scanLoop_text by exact E.
    assert (Hm : lineMatch r line l = []).
    { unfold lineMatch.
      destruct (Regexp.FindSubmatch r l) eqn:Ef; [reflexivity|].
      assert (Ht : Marker.hasTag l = true).
      { apply (MarkerProps.FindSubmatch_hasTag r l Hr). rewrite Ef. discriminate. }
      congruence. }
    rewrite Hm. apply IH.
  - now rewrite ScanProps.scanLoop_binary.
Qed.

(** C4.  For a file the worker scans, a result is sent exactly when the
    scan has matches, and it carries them; no result the worker ever
    sends is empty; and a file without any configured tag gives none. *)
Theorem worker_sends_result_iff_matches :
  (forall fs matcher job f st,
      opensAs fs matcher job f ->
      (scanFile (regex job) f = [] ->
       searchResults (fst (searchWorker fs matcher [job] st)) = searchResults st)
      /\ (scanFile (regex job) f <> [] ->
          searchResults (fst (searchWorker fs matcher [job] st))
          = searchResults st ++ [mkResult (path job) (scanFile (regex job) f)]))
  /\ (forall fs matcher jobs st,
         Forall (fun r => Lines r <> []) (searchResults st) ->
         Forall (fun r => Lines r <> [])
                (searchResults (fst (searchWorker fs matcher jobs st))))
  /\ (forall fs matcher r p f st,
         Marker.compiled = Some r ->
         opensAs fs matcher (mkJob p r) f ->
         Forall (fun l => Marker.hasTag l = false) f ->
         searchResults (fst (searchWorker fs matcher [mkJob p r] st)) = searchResults st).
Proof.
  assert (Hone : forall fs matcher job f st,
             opensAs fs matcher job f ->
             searchResults (fst (searchWorker fs matcher [job] st))
             = searchResults st ++ resultOf job f).
  { intros fs matcher job f st Hopen.
    destruct (worker_scans fs matcher job f [] st Hopen) as (st1 & Hrun & Hres & _).
    rewrite Hrun. exact Hres. }
  split; [|split].
  - intros fs matcher job f st Hopen. rewrite (Hone _ _ _ _ _ Hopen).
    unfold resultOf. split.
    + intros ->. apply app_nil_r.
    + intros Hne. destruct (scanFile (regex job) f); [congruence | reflexivity].
  - intros fs matcher jobs st. apply worker_results_nonempty.
  - intros fs matcher r p f st Hr Hopen Hf. rewrite (Hone _ _ _ _ _ Hopen).
    unfold resultOf. simpl regex. rewrite (scanFile_no_tags r f Hr Hf). apply app_nil_r.
Qed.

Lemma worker_sends_result_iff_matches_witness :
  ((scanFile (regex sourceJob) sampleFile = [] ->
    searchResults (fst (searchWorker sampleFS ignoreBuild [sourceJob] st0)) = searchResults st0)
   /\ (scanFile (regex sourceJob) sampleFile <> [] ->
       searchResults (fst (searchWorker sampleFS ignoreBuild [sourceJob] st0))
       = searchResults st0 ++ [mkResult (path sourceJob) (scanFile (regex sourceJob) sampleFile)]))
  /\ Forall (fun r => Lines r <> [])
            (searchResults (fst (searchWorker sampleFS ignoreBuild [sourceJob; plainJob] st0)))
  /\ searchResults (fst (searchWorker sampleFS ignoreBuild [mkJob "notes.txt" rx] st0))
     = searchResults st0.
Proof.
  destruct worker_sends_result_iff_matches as (Hiff & Hne & Hnone).
  split; [|split].
  - apply Hiff. exists (mkFileInfo false). repeat split.
  - apply Hne. constructor.
  - apply (Hnone sampleFS ignoreBuild rx "notes.txt"%string ["nothing to see"%string] st0).
    + reflexivity.
    + exists (mkFileInfo false). repeat split.
    + repeat constructor.
Defined.

(** C1, as the code has it.  A job whose file the worker can stat but
    not open is fatal: the worker ends the process at that job with a
    log message, having completed the jobs before it and none after it.
    Over jobs it skips or scans, the worker counts every job as done,
    sends every result and stays ready for more. *)
Theorem worker_open_failure_is_fatal :
  (forall fs matcher pre job err post st,
      Forall (handled fs matcher) pre ->
      failsToOpen fs matcher job err ->
      exists st1,
        searchWorker fs matcher (pre ++ job :: post) st
        = (st1, Exited ("couldn't open path " ++ path job ++ ": " ++ Error err ++ nl)%string)
        /\ searchResults st1 = searchResults st ++ flat_map (jobResults fs matcher) pre
        /\ wg st1 = wg st - GoInt.len pre)
  /\ (forall fs matcher jobs st,
         Forall (handled fs matcher) jobs ->
         exists st1,
           searchWorker fs matcher jobs st = (st1, Idle)
           /\ searchResults st1 = searchResults st ++ flat_map (jobResults fs matcher) jobs
           /\ wg st1 = wg st - GoInt.len jobs
           /\ stdout st1 = stdout st).
Proof.
  split.
  - intros fs matcher pre job err post st Hpre Hfail.
    destruct (worker_handles fs matcher pre Hpre (job :: post) st)
      as (st1 & Hrun & Hres & Hwg & _).
    exists st1. rewrite Hrun, (worker_open_fails fs matcher job err post st1 Hfail).
    auto.
  - intros fs matcher jobs st Hjobs.
    destruct (worker_handles fs matcher jobs Hjobs [] st) as (st1 & Hrun & Hres & Hwg & Hout).
    rewrite app_nil_r in Hrun. exists st1. rewrite Hrun. simpl. auto.
Qed.

Lemma worker_open_failure_is_fatal_witness :
  (exists st1,
      searchWorker sampleFS ignoreBuild ([buildJob; sourceJob] ++ lockedJob :: [plainJob]) st0
      = (st1, Exited ("couldn't open path " ++ path lockedJob ++ ": "
                        ++ Error lockedError ++ nl)%string)
      /\ searchResults st1
         = searchResults st0 ++ flat_map (jobResults sampleFS ignoreBuild) [buildJob; sourceJob]
      /\ wg st1 = wg st0 - GoInt.len [buildJob; sourceJob])
  /\ (exists st1,
         searchWorker sampleFS ignoreBuild [buildJob; sourceJob; plainJob] st0 = (st1, Idle)
         /\ searchResults st1
            = searchResults st0
                ++ flat_map (jobResults sampleFS ignoreBuild) [buildJob; sourceJob; plainJob]
         /\ wg st1 = wg st0 - GoInt.len [buildJob; sourceJob; plainJob]
         /\ stdout st1 = stdout st0).
Proof.
  destruct worker_open_failure_is_fatal as (Hfatal & Hidle).
  assert (Hbuild : handled sampleFS ignoreBuild buildJob).
  { left. exists (mkFileInfo false). split; reflexivity. }
  assert (Hsource : handled sampleFS ignoreBuild sourceJob).
  { right. exists sampleFile, (mkFileInfo false). repeat split. }
  assert (Hplain : handled sampleFS ignoreBuild plainJob).
  { right. exists ["nothing to see"%string], (mkFileInfo false). repeat split. }
  split.
  - apply Hfatal.
    + apply Forall_cons; [exact Hbuild | apply Forall_cons; [exact Hsource | apply Forall_nil]].
    + exists (mkFileInfo false). repeat split.
  - apply Hidle.
    apply Forall_cons; [exact Hbuild|].
    apply Forall_cons; [exact Hsource|].
    apply Forall_cons; [exact Hplain | apply Forall_nil].
Defined.

(** C1, as it is stated, fails on a file that cannot be opened: the
    worker ends the process, and the job that follows, whose file has
    matches, is never scanned. *)
Lemma worker_open_failure_not_contained :
  failsToOpen sampleFS None lockedJob lockedError
  /\ searchWorker sampleFS None [lockedJob; sourceJob] st0
     = (st0, Exited ("couldn't open path locked: open locked: permission denied" ++ nl)%string)
  /\ jobResults sampleFS None sourceJob <> []
  /\ ~ failureIsContained sampleFS None lockedJob.
Proof.
  split; [exists (mkFileInfo false); repeat split|].
  split; [reflexivity|].
  split; [vm_compute; discriminate|].
  intros H. destruct (H [] st0) as [report Hrun].
  apply (f_equal snd) in Hrun. vm_compute in Hrun. discriminate.
Qed.

End WorkerProps.

(** ** The result sink *)

Module SinkProps.

Import Blame Search Sink Samples.
Local Open Scope list_scope.

Local Arguments prettiyfyLine : simpl never.
Local Arguments prettiyfyBlame : simpl never.
Local Arguments stylizeFilename : simpl never.
Local Arguments padLineNumber : simpl never.

Lemma length_append (a b : string) :
  String.length (a ++ b)%string = (String.length a + String.length b)%nat.
Proof. induction a; simpl; congruence. Qed.

Lemma digits_length_mono (fuel : nat) :
  forall a b, 0 <= a <= b ->
    (String.length (digits fuel a) <= String.length (digits fuel b))%nat.
Proof.
  induction fuel as [|f IH]; intros a b Hab; simpl; [lia|].
  destruct (Z.ltb_spec a 10) as [Ha|Ha]; destruct (Z.ltb_spec b 10) as [Hb|Hb];
    rewrite ?length_append; simpl; try lia.
  assert (Hdiv : 0 <= a / 10 <= b / 10).
  { split; [apply Z.div_pos; lia | apply Z.div_le_mono; lia]. }
  specialize (IH _ _ Hdiv). lia.
Qed.

Lemma Sprint_length_mono (a b : Z) :
  0 <= a <= b -> GoInt.slen (Sprint a) <= GoInt.slen (Sprint b).
Proof.
  intros Hab. unfold Sprint, GoInt.slen.
  replace (a <? 0) with false by (symmetry; apply Z.ltb_ge; lia).
  replace (b <? 0) with false by (symmetry; apply Z.ltb_ge; lia).
  apply Nat2Z.inj_le, digits_length_mono. exact Hab.
Qed.

Lemma fold_max_ge (lines : list matchLine) :
  forall max0,
    max0 <= fold_left (fun max line => if n line >? max then n line else max) lines max0
    /\ Forall (fun line =>
                 n line <= fold_left (fun max line => if n line >? max then n line else max)
                                     lines max0) lines.
Proof.
  induction lines as [|l lines IH]; intros max0; simpl; [split; [lia|constructor]|].
  destruct (IH (if n l >? max0 then n l else max0)) as [Hge Hall].
  assert (Hstep : max0 <= (if n l >? max0 then n l else max0)
                  /\ n l <= (if n l >? max0 then n l else max0)).
  { destruct (Z.gtb_spec (n l) max0); lia. }
  split; [lia|]. constructor; [lia | exact Hall].
Qed.

Lemma MaxLineNumber_bounds (result : searchResult) :
  0 <= MaxLineNumber result
  /\ Forall (fun line => n line <= MaxLineNumber result) (Lines result).
Proof. apply fold_max_ge. Qed.

(** [padLineNumber] does not panic on a number between zero and the
    largest. *)
Lemma padLineNumber_Some (number maxNumber : Z) :
  0 <= number <= maxNumber -> exists s, padLineNumber number maxNumber = Some s.
Proof.
  intros H. unfold padLineNumber, Strings.Repeat.
  pose proof (Sprint_length_mono number maxNumber H) as Hlen.
  replace (GoInt.slen (Sprint maxNumber) - GoInt.slen (Sprint number) <? 0) with false
    by (symmetry; apply Z.ltb_ge; lia).
  eauto.
Qed.

Lemma withoutBlame_Some (env : Env) (result : searchResult) (line : matchLine) :
  0 <= n line <= MaxLineNumber result -> exists s, withoutBlame env result line = Some s.
Proof.
  intros H. unfold withoutBlame.
  destruct (padLineNumber_Some _ _ H) as [s ->]. eauto.
Qed.

(** Without a blame every line is printed as [withoutBlame] has it. *)
Lemma printLines_without_blame (env : Env) (e : error) (result : searchResult)
      (lines : list matchLine) :
  Forall (fun line => 0 <= n line <= MaxLineNumber result) lines ->
  forall k, exists printed,
    Forall2 (fun line s => withoutBlame env result line = Some s) lines printed
    /\ printLines env (inr e) result lines k
       = Some (mkSink (mkState (stdout (shared k) ++ printed) (wg (shared k))
                               (wgResult (shared k)) (searchJobs (shared k))
                               (searchResults (shared k)))
                      (cwd k) (ticks k)).
Proof.
  induction 1 as [|line lines Hline _ IH]; intros k.
  - exists []. split; [constructor|]. simpl. rewrite app_nil_r.
    destruct k as [[? ? ? ? ?] ? ?]; reflexivity.
  - destruct (withoutBlame_Some env result line Hline) as [s Hs].
    unfold withoutBlame in Hs.
    destruct (padLineNumber (n line) (MaxLineNumber result)) as [lineNumber|] eqn:Epad;
      [|discriminate].
    injection Hs as <-.
    destruct (IH (out (lineNumber ++ prettiyfyLine env (text line) (tag line) STYLE ++ nl)%string k))
      as (printed & Hall & Hrun).
    exists ((lineNumber ++ prettiyfyLine env (text line) (tag line) STYLE ++ nl)%string :: printed).
    split.
    + constructor; [|exact Hall]. unfold withoutBlame. now rewrite Epad.
    + simpl printLines. rewrite Epad. rewrite Hrun. simpl.
      now rewrite <- app_assoc.
Qed.

(** With or without a blame the inner loop does not panic. *)
Lemma printLines_total (env : Env) (gb : GitBlame + error) (result : searchResult)
      (lines : list matchLine) :
  Forall (fun line => 0 <= n line <= MaxLineNumber result) lines ->
  forall k, exists k',
    printLines env gb result lines k = Some k' /\ wgResult (shared k') = wgResult (shared k).
Proof.
  induction 1 as [|line lines Hline _ IH]; intros k.
  - exists k. split; reflexivity.
  - simpl printLines. destruct (padLineNumber_Some _ _ Hline) as [s ->].
    destruct (match gb with inl b => BlameLine b (n line) | inr gb_err => inr gb_err end).
    + match goal with |- context [printLines env gb result lines ?k1] =>
        destruct (IH k1) as (k' & -> & Hk') end.
      exists k'. split; [reflexivity | exact Hk'].
    + match goal with |- context [printLines env gb result lines ?k1] =>
        destruct (IH k1) as (k' & -> & Hk') end.
      exists k'. split; [reflexivity | exact Hk'].
Qed.

Lemma numbered_bounds (result : searchResult) :
  numbered result ->
  Forall (fun line => 0 <= n line <= MaxLineNumber result) (Lines result).
Proof.
  intros H. destruct (MaxLineNumber_bounds result) as [_ Hmax].
  unfold numbered in H. rewrite Forall_forall in *. intros l Hl. split; auto.
Qed.

Lemma printResult1_total (env : Env) (result : searchResult) (k : sink) :
  numbered result ->
  exists k', printResult1 env result k = Some k'.
Proof.
  intros H. unfold printResult1.
  destruct (BlameFile env _ (Path result)) as [gb cwd'].
  match goal with |- context [printLines env gb result (Lines result) ?k1] =>
    destruct (printLines_total env gb result (Lines result) (numbered_bounds result H) k1)
      as (k' & -> & _) end.
  eauto.
Qed.

(** [PrintResult] does not panic on results of scans. *)
Lemma PrintResult_total (env : Env) (results : list searchResult) :
  Forall numbered results ->
  forall k, exists k', PrintResult env results k = Some k'.
Proof.
  induction 1 as [|result results Hr _ IH]; intros k; simpl; [eauto|].
  destruct (printResult1_total env result k Hr) as [k1 ->]. apply IH.
Qed.

(** When [git blame] exits with an error, [BlameFile] fails. *)
Lemma BlameFile_exit_error (env : Env) (cwd path absolutePath : string) (err : error) :
  Abs env cwd path = inl absolutePath ->
  waitErr (Command env (Dir env absolutePath)
                   ["git"; "blame"; absolutePath; "--line-porcelain"]%string) = Some err ->
  exists e, fst (BlameFile env cwd path) = inr e.
Proof.
  intros Ha Hw. unfold BlameFile. rewrite Ha.
  destruct (Chdir env (Dir env absolutePath)); [simpl; eauto|].
  destruct (pipeErr _); [simpl; eauto|].
  destruct (startErr _); [simpl; eauto|].
  rewrite Hw. simpl. eauto.
Qed.

(** The results of a scan are numbered from 1. *)
Lemma scanFile_numbered (regex : Regexp.re) (p : string) (file : list string) :
  GoInt.len file <= GoInt.maxInt64 -> numbered (mkResult p (scanFile regex file)).
Proof.
  intros Hlen.
  destruct (ScanProps.scanLoop_props regex file 1) as [Hfrom _]; [lia | lia |].
  unfold numbered. simpl. fold (scanFile regex file) in Hfrom. eapply Forall_impl; [|exact Hfrom].
  intros m [Hm _]. lia.
Qed.

(** C9.  When the blame of a result's file fails, its header and every
    one of its matched lines are printed, each line without author or
    age, the result is counted as consumed and the sink goes on with the
    results that follow; a failing [git blame] is such a failure, and no
    list of results makes the sink panic. *)
Theorem PrintResult_without_blame :
  (forall env result k e,
      numbered result ->
      fst (BlameFile env (cwd k) (Path result)) = inr e ->
      exists k' printed,
        printResult1 env result k = Some k'
        /\ Forall2 (fun line s => withoutBlame env result line = Some s)
                   (Lines result) printed
        /\ stdout (shared k')
           = stdout (shared k) ++ [header env result] ++ printed ++ [nl]
        /\ wgResult (shared k') = wgResult (shared k) - 1
        /\ forall rest, PrintResult env (result :: rest) k = PrintResult env rest k')
  /\ (forall env cwd path absolutePath err,
         Abs env cwd path = inl absolutePath ->
         waitErr (Command env (Dir env absolutePath)
                          ["git"; "blame"; absolutePath; "--line-porcelain"]%string)
         = Some err ->
         exists e, fst (BlameFile env cwd path) = inr e)
  /\ (forall env results k,
         Forall numbered results -> exists k', PrintResult env results k = Some k').
Proof.
  split; [|split].
  - intros env result k e Hnum Hblame.
    unfold printResult1. simpl cwd.
    destruct (BlameFile env (cwd k) (Path result)) as [gb cwd'] eqn:Eb.
    simpl in Hblame. subst gb.
    match goal with |- context [printLines env (inr e) result (Lines result) ?k1] =>
      destruct (printLines_without_blame env e result (Lines result)
                  (numbered_bounds result Hnum) k1) as (printed & Hall & Hrun)
    end.
    eexists _, printed. rewrite Hrun. split; [reflexivity|].
    split; [exact Hall|]. simpl. unfold header.
    split; [now rewrite <- !app_assoc|]. split; [lia|].
    intros rest. unfold printResult1. simpl cwd. rewrite Eb, Hrun. reflexivity.
  - intros env cwd path absolutePath err. apply BlameFile_exit_error.
  - intros env results k H. apply PrintResult_total. exact H.
Qed.

Lemma PrintResult_without_blame_witness :
  (exists k' printed,
      printResult1 noRepo sampleResult sink0 = Some k'
      /\ Forall2 (fun line s => withoutBlame noRepo sampleResult line = Some s)
                 (Lines sampleResult) printed
      /\ stdout (shared k')
         = stdout (shared sink0) ++ [header noRepo sampleResult] ++ printed ++ [nl]
      /\ wgResult (shared k') = wgResult (shared sink0) - 1
      /\ forall rest, PrintResult noRepo (sampleResult :: rest) sink0
                      = PrintResult noRepo rest k')
  /\ (exists e, fst (BlameFile noRepo "/work" "a.go") = inr e)
  /\ (exists k', PrintResult noRepo [sampleResult; sampleResult] sink0 = Some k').
Proof.
  destruct PrintResult_without_blame as (Hprint & Hfail & Htotal).
  assert (Hnum : numbered sampleResult).
  { unfold numbered. simpl.
    apply Forall_cons; [simpl; lia|]. apply Forall_cons; [simpl; lia|]. apply Forall_nil. }
  split; [|split].
  - apply (Hprint noRepo sampleResult sink0
             ("git blame failed: exit status 128" ++ nl ++ "fatal: not a git repository")%string).
    + exact Hnum.
    + reflexivity.
  - apply (Hfail noRepo "/work" "a.go" "/work/a.go" "exit status 128")%string; reflexivity.
  - apply Htotal.
    apply Forall_cons; [exact Hnum|].
    apply Forall_cons; [exact Hnum | apply Forall_nil].
Defined.

Example PrintResult_sample :
  option_map (fun k => stdout (shared k)) (PrintResult noRepo [sampleResult] sink0)
  = Some [ ("• a.go (2 comments)" ++ nl)%string;
           ("[Line  3] ✓ TODO fix this" ++ nl)%string;
           ("[Line 14] ⚠ FIXME leak" ++ nl)%string;
           nl ].
Proof. reflexivity. Qed.

End SinkProps.

(** ** Submatches of the matcher *)

Module CaptureProps.

Import Regexp Captures.
Local Open Scope list_scope.

Local Arguments repeatLoop : simpl never.

Lemma firstn_firstn_skipn {A} (a b : nat) (l : list A) :
  firstn a l ++ firstn b (skipn a l) = firstn (a + b) l.
Proof.
  revert l. induction a as [|a IH]; intros l; simpl; [reflexivity|].
  destruct l as [|x l]; simpl.
  - now rewrite firstn_nil.
  - now rewrite IH.
Qed.

Lemma skipn_skipn_add {A} (a b : nat) (l : list A) :
  skipn b (skipn a l) = skipn (a + b) l.
Proof.
  revert l. induction a as [|a IH]; intros l; simpl; [reflexivity|].
  destruct l as [|x l]; simpl; [now rewrite skipn_nil | apply IH].
Qed.

Lemma segment_app (total : list ascii) (s m e : nat) :
  (s <= m <= e)%nat ->
  segment total s m ++ segment total m e = segment total s e.
Proof.
  intros H. unfold segment.
  replace (skipn m total) with (skipn (m - s) (skipn s total))
    by (rewrite skipn_skipn_add; f_equal; lia).
  rewrite firstn_firstn_skipn. f_equal. lia.
Qed.

Lemma segment_empty (total : list ascii) (s : nat) : segment total s s = [].
Proof. unfold segment. now rewrite Nat.sub_diag. Qed.

Lemma capStep_refl total (G : nat -> list ascii -> Prop) (P : list ascii -> Prop) st :
  wf total st -> P [] -> capStep total G (fun _ => false) P st st.
Proof.
  intros Hwf HP. split; [exact Hwf|]. split; [lia|].
  rewrite segment_empty. split; [exact HP|].
  exists []. split; [reflexivity|]. split; [intros ? ? ? []|discriminate].
Qed.

Lemma capStep_weaken total (G G' : nat -> list ascii -> Prop) (S S' : nat -> bool)
      (P P' : list ascii -> Prop) st st' :
  (forall i w, G i w -> G' i w) ->
  (forall i, S' i = true -> S i = true) ->
  (forall w, P w -> P' w) ->
  capStep total G S P st st' -> capStep total G' S' P' st st'.
Proof.
  intros HG HS HP (Hwf & Hle & Hseg & new & Hcaps & Hin & Hset).
  split; [exact Hwf|]. split; [exact Hle|]. split; [auto|].
  exists new. split; [exact Hcaps|]. split; [eauto | auto].
Qed.

(** Two steps in a row. *)
Lemma capStep_trans total (G : nat -> list ascii -> Prop) (S1 S2 : nat -> bool)
      (P1 P2 P : list ascii -> Prop) st0 st1 st2 :
  (forall u v, P1 u -> P2 v -> P (u ++ v)) ->
  capStep total G S1 P1 st0 st1 ->
  capStep total G S2 P2 st1 st2 ->
  capStep total G (fun i => S1 i || S2 i) P st0 st2.
Proof.
  intros HP (Hwf1 & Hle1 & Hseg1 & new1 & Hcaps1 & Hin1 & Hset1)
            (Hwf2 & Hle2 & Hseg2 & new2 & Hcaps2 & Hin2 & Hset2).
  split; [exact Hwf2|]. split; [lia|]. split.
  - rewrite <- (segment_app total (pos st0) (pos st1) (pos st2)) by lia. auto.
  - exists (new2 ++ new1). split; [rewrite Hcaps2, Hcaps1; now rewrite app_assoc|].
    split.
    + intros i s e Hi. apply in_app_or in Hi. destruct Hi; eauto.
    + intros i Hi. apply orb_true_iff in Hi. destruct Hi as [Hi | Hi].
      * destruct (Hset1 i Hi) as [se Hse]. exists se. apply in_or_app. auto.
      * destruct (Hset2 i Hi) as [se Hse]. exists se. apply in_or_app. auto.
Qed.

Lemma eat_capSound total (G : nat -> list ascii -> Prop) (p : ascii -> bool) :
  capSound total G (fun _ => false) (fun w => exists c, w = [c] /\ p c = true) (eat p).
Proof.
  intros st k res [Hrest Hlen]. unfold eat.
  destruct (rest st) as [|c cs] eqn:E; [discriminate|].
  destruct (p c) eqn:Ep; [|discriminate].
  intros H. eexists. split; [|exact H].
  assert (Hsk : skipn (pos st) total = c :: cs) by congruence.
  assert (Hlt : (pos st < List.length total)%nat).
  { destruct (Nat.lt_ge_cases (pos st) (List.length total)) as [Hl|Hl]; [exact Hl|].
    rewrite skipn_all2 in Hsk by exact Hl. discriminate. }
  assert (Hcs : skipn (Datatypes.S (pos st)) total = cs).
  { replace (Datatypes.S (pos st)) with (pos st + 1)%nat by lia.
    rewrite <- skipn_skipn_add, Hsk. reflexivity. }
  split; [|split; [simpl; lia|split]].
  - split; [exact (eq_sym Hcs) | simpl; lia].
  - unfold segment. simpl pos.
    replace (Datatypes.S (pos st) - pos st)%nat with 1%nat by lia.
    rewrite Hsk. simpl. eauto.
  - exists []. simpl. split; [reflexivity|]. split; [intros ? ? ? []|discriminate].
Qed.

Lemma check_capSound total (G : nat -> list ascii -> Prop) (b : bool) :
  capSound total G (fun _ => false) (fun w => w = []) (check b).
Proof.
  intros st k res Hwf. unfold check. destruct b; [|discriminate].
  intros H. exists st. split; [|exact H]. now apply capStep_refl.
Qed.

Lemma repeatLoop_capSound total (G : nat -> list ascii -> Prop) (S : nat -> bool)
      (P : list ascii -> Prop) body greedy k :
  capSound total G S P body ->
  forall fuel st res,
    wf total st ->
    repeatLoop body greedy k fuel st = Some res ->
    exists st', capStep total G (fun _ => false) (iter P) st st' /\ k st' = Some res.
Proof.
  intros Hbody. induction fuel as [|f IH]; intros st res Hwf.
  - unfold repeatLoop. intros H. exists st. split; [|exact H].
    apply capStep_refl; [exact Hwf | constructor].
  - unfold repeatLoop; fold repeatLoop. intros H.
    assert (Hcases :
      body st (fun st' =>
        if (List.length (rest st') <? List.length (rest st))%nat
        then repeatLoop body greedy k f st' else None) = Some res
      \/ k st = Some res).
    { destruct greedy; apply RegexpProps.orElse_Some in H; tauto. }
    destruct Hcases as [Hmore | Hk].
    + apply Hbody in Hmore; [|exact Hwf]. destruct Hmore as (st1 & Hstep1 & Hnext).
      destruct (List.length (rest st1) <? List.length (rest st))%nat; [|discriminate].
      apply IH in Hnext; [|apply Hstep1]. destruct Hnext as (st2 & Hstep2 & Hk).
      exists st2. split; [|exact Hk].
      eapply capStep_weaken;
        [ | | | eapply (capStep_trans total G S (fun _ => false) P (iter P) (iter P));
                [ | exact Hstep1 | exact Hstep2 ] ].
      * auto.
      * discriminate.
      * auto.
      * intros u v Hu Hv. now constructor.
    + exists st. split; [|exact Hk]. apply capStep_refl; [exact Hwf | constructor].
Qed.

(** The matcher is sound for the language of the expression and for
    the submatches it records. *)
Theorem run_capSound total (r : re) :
  capSound total (groupLang r) (setsGroup r) (lang r) (run r).
Proof.
  induction r as [ | c | neg rs | | | | | | | a IHa b IHb | a IHa b IHb
                   | g a IHa | g a IHa | g a IHa | i a IHa ];
    intros st k res Hwf; simpl run.
  - intros H. exists st. split; [|exact H]. now apply capStep_refl.
  - intros H. apply (eat_capSound total (groupLang (Lit c))) in H; [|exact Hwf].
    destruct H as (st' & Hstep & Hk). exists st'. split; [|exact Hk].
    eapply capStep_weaken; [ | | | exact Hstep]; auto.
    intros w (c' & -> & Hc). apply Ascii.eqb_eq in Hc. now subst.
  - intros H. apply (eat_capSound total (groupLang (Class neg rs))) in H; [|exact Hwf].
    exact H.
  - apply check_capSound; exact Hwf.
  - apply check_capSound; exact Hwf.
  - apply check_capSound; exact Hwf.
  - apply check_capSound; exact Hwf.
  - apply check_capSound; exact Hwf.
  - apply check_capSound; exact Hwf.
  - intros H. apply IHa in H; [|exact Hwf]. destruct H as (st1 & Hstep1 & H).
    apply IHb in H; [|apply Hstep1]. destruct H as (st2 & Hstep2 & H).
    exists st2. split; [|exact H].
    eapply (capStep_trans total _ _ _ (lang a) (lang b)).
    + intros u v Hu Hv. simpl. eauto.
    + eapply capStep_weaken; [ | | | exact Hstep1]; simpl; auto.
    + eapply capStep_weaken; [ | | | exact Hstep2]; simpl; auto.
  - intros H. apply RegexpProps.orElse_Some in H. destruct H as [H | H].
    + apply IHa in H; [|exact Hwf]. destruct H as (st' & Hstep & H).
      exists st'. split; [|exact H].
      eapply capStep_weaken; [ | | | exact Hstep]; simpl; auto.
      intros i Hi. apply andb_true_iff in Hi. tauto.
    + apply IHb in H; [|exact Hwf]. destruct H as (st' & Hstep & H).
      exists st'. split; [|exact H].
      eapply capStep_weaken; [ | | | exact Hstep]; simpl; auto.
      intros i Hi. apply andb_true_iff in Hi. tauto.
  - intros H. eapply repeatLoop_capSound in H; [ | exact IHa | exact Hwf].
    destruct H as (st' & Hstep & H). exists st'. split; [|exact H].
    eapply capStep_weaken; [ | | | exact Hstep]; simpl; auto.
  - intros H. apply IHa in H; [|exact Hwf]. destruct H as (st1 & Hstep1 & H).
    eapply repeatLoop_capSound in H; [ | exact IHa | apply Hstep1].
    destruct H as (st2 & Hstep2 & H). exists st2. split; [|exact H].
    eapply capStep_weaken;
      [ | | | eapply (capStep_trans total (groupLang a) (setsGroup a) (fun _ => false)
                                       (lang a) (iter (lang a))
                                       (fun w => exists u v, w = u ++ v /\ lang a u
                                                             /\ iter (lang a) v));
              [ | exact Hstep1 | exact Hstep2 ] ].
    + simpl. auto.
    + simpl. intros i Hi. now rewrite Hi.
    + simpl. auto.
    + intros u v Hu Hv. eauto.
  - intros H.
    assert (Hcases : run a st k = Some res \/ k st = Some res).
    { destruct g; apply RegexpProps.orElse_Some in H; tauto. }
    destruct Hcases as [H1 | H1].
    + apply IHa in H1; [|exact Hwf]. destruct H1 as (st' & Hstep & H1).
      exists st'. split; [|exact H1].
      eapply capStep_weaken; [ | | | exact Hstep]; simpl; auto. discriminate.
    + exists st. split; [|exact H1]. apply capStep_refl; simpl; auto.
  - intros H. apply IHa in H; [|exact Hwf]. destruct H as (st1 & Hstep & H).
    eexists. split; [|exact H].
    destruct Hstep as (Hwf1 & Hle & Hseg & new & Hcaps & Hin & Hset).
    split; [exact Hwf1|]. split; [exact Hle|]. split; [exact Hseg|].
    exists ((i, (pos st, pos st1)) :: new). simpl caps.
    split; [now rewrite Hcaps|]. split.
    + intros j s e [Hj | Hj].
      * injection Hj as <- <- <-. simpl. auto.
      * simpl. right. eauto.
    + intros j Hj. simpl in Hj. apply orb_true_iff in Hj. destruct Hj as [Hj | Hj].
      * apply Nat.eqb_eq in Hj. subst j. eexists. left. reflexivity.
      * destruct (Hset j Hj) as [se Hse]. exists se. right. exact Hse.
Qed.

(** The leftmost match and its submatches. *)
Lemma search_caps (total : list ascii) (r : re) (s : list ascii) :
  forall prv p start st,
    s = skipn p total -> (p <= List.length total)%nat ->
    search r prv p s = Some (start, st) ->
    lang r (segment total start (pos st))
    /\ (forall i s e, In (i, (s, e)) (caps st) -> groupLang r i (segment total s e))
    /\ (forall i, setsGroup r i = true -> exists se, In (i, se) (caps st)).
Proof.
  assert (Hrun : forall prv p st,
             (p <= List.length total)%nat ->
             run r (mkMstate prv p (skipn p total) []) (fun st => Some st) = Some st ->
             lang r (segment total p (pos st))
             /\ (forall i s e, In (i, (s, e)) (caps st) -> groupLang r i (segment total s e))
             /\ (forall i, setsGroup r i = true -> exists se, In (i, se) (caps st))).
  { intros prv p st Hp H. apply (run_capSound total r) in H; [|split; [reflexivity|exact Hp]].
    destruct H as (st' & (_ & _ & Hseg & new & Hcaps & Hin & Hset) & Hk).
    injection Hk as <-. simpl in Hcaps, Hseg. rewrite app_nil_r in Hcaps. subst new.
    auto. }
  induction s as [|c s IH]; intros prv p start st Hs Hp; simpl; rewrite Hs.
  - destruct (run r _ _) eqn:E; [|discriminate].
    intros H. injection H as <- <-. eapply Hrun; eauto.
  - destruct (run r _ _) eqn:E.
    + intros H. injection H as <- <-. eapply Hrun; eauto.
    + assert (Hlt : (p < List.length total)%nat).
      { destruct (Nat.lt_ge_cases p (List.length total)) as [Hl|Hl]; [exact Hl|].
        rewrite skipn_all2 in Hs by exact Hl. discriminate. }
      apply IH; [|lia].
      replace (Datatypes.S p) with (p + 1)%nat by lia.
      rewrite <- skipn_skipn_add, <- Hs. reflexivity.
Qed.

Lemma lookupCap_In (i : nat) (cs : list (nat * (nat * nat))) (se : nat * nat) :
  lookupCap i cs = Some se -> In (i, se) cs.
Proof.
  induction cs as [|[j se'] cs IH]; simpl; [discriminate|].
  destruct (Nat.eqb_spec i j) as [-> | _].
  - intros H. injection H as ->. auto.
  - auto.
Qed.

Lemma lookupCap_Some (i : nat) (cs : list (nat * (nat * nat))) (se : nat * nat) :
  In (i, se) cs -> exists se', lookupCap i cs = Some se'.
Proof.
  induction cs as [|[j se'] cs IH]; simpl; [intros []|].
  destruct (Nat.eqb_spec i j) as [-> | Hne]; [eauto|].
  intros [H | H]; [congruence | auto].
Qed.

Lemma substring_list (s n : nat) (b : string) :
  list_ascii_of_string (String.substring s n b)
  = firstn n (skipn s (list_ascii_of_string b)).
Proof.
  revert s n. induction b as [|c b IH]; intros s n.
  - destruct s, n; reflexivity.
  - destruct s as [|s].
    + destruct n as [|n]; simpl; [reflexivity|]. f_equal. apply (IH 0%nat n).
    + simpl. apply IH.
Qed.

Lemma nth_map_seq {A} (f : nat -> A) (d : A) :
  forall n start i, (i < n)%nat -> nth i (map f (seq start n)) d = f (start + i)%nat.
Proof.
  induction n as [|n IH]; intros start i Hi; [lia|].
  destruct i as [|i]; simpl.
  - now rewrite Nat.add_0_r.
  - rewrite IH by lia. f_equal. lia.
Qed.

(** The text [FindSubmatch] returns for a group that every match goes
    through is in the language of a group of that number. *)
Lemma FindSubmatch_group (r : re) (b : string) (i : nat) :
  FindSubmatch r b <> [] ->
  (1 <= i <= NumSubexp r)%nat ->
  setsGroup r i = true ->
  groupLang r i (list_ascii_of_string (nth i (FindSubmatch r b) EmptyString)).
Proof.
  unfold FindSubmatch.
  destruct (search r None 0 (list_ascii_of_string b)) as [[start st]|] eqn:E; [|congruence].
  intros _ Hi Hset.
  apply (search_caps (list_ascii_of_string b)) in E; [|reflexivity|lia].
  destruct E as (_ & Hin & Hsets).
  destruct i as [|i]; [lia|]. simpl nth.
  rewrite nth_map_seq by lia.
  change (1 + i)%nat with (Datatypes.S i).
  destruct (Hsets _ Hset) as [se Hse].
  destruct (lookupCap_Some _ _ _ Hse) as [[s e] Hl]. rewrite Hl.
  apply lookupCap_In, Hin in Hl.
  unfold slice. rewrite substring_list. exact Hl.
Qed.

Lemma iter_class (p : ascii -> bool) (w : list ascii) :
  iter (fun u => exists c, u = [c] /\ p c = true) w -> Forall (fun c => p c = true) w.
Proof.
  induction 1 as [|u v (c & -> & Hc) _ IH]; [constructor|].
  simpl. constructor; assumption.
Qed.

(** What the two groups of the marker pattern can hold: a configured
    tag, and a non-empty text without line feed. *)
Lemma compiled_groups (r : re) :
  Marker.compiled = Some r ->
  NumSubexp r = 2%nat
  /\ setsGroup r 1 = true /\ setsGroup r 2 = true
  /\ (forall w, groupLang r 1 w -> exists tag, In tag Marker.tags /\ w = list_ascii_of_string tag)
  /\ (forall w, groupLang r 2 w ->
        w <> [] /\ Forall (fun c => Strings.byteOf c <> 10) w).
Proof.
  unfold Marker.compiled. intros E. injection E as <-.
  split; [reflexivity|]. split; [reflexivity|]. split; [reflexivity|]. split.
  - intros w H. simpl in H.
    MarkerProps.break_lang; try discriminate; try contradiction; subst;
      match goal with
      | |- exists tag, _ /\ ?l = _ =>
        exists (string_of_list_ascii l); split; [simpl; tauto | reflexivity]
      end.
  - intros w H. simpl in H.
    repeat match goal with
           | H : _ \/ _ |- _ => destruct H
           | H : _ /\ _ |- _ => destruct H
           | H : False |- _ => contradiction
           end; try discriminate.
    match goal with
    | H : exists u v, _ |- _ => destruct H as (u & v & -> & (c & -> & Hc) & Hv)
    end.
    split; [discriminate|].
    apply iter_class in Hv.
    assert (Hall : Forall (fun c => xorb true (inRanges [(10, 10)] c) = true) (c :: v))
      by (constructor; assumption).
    simpl app. eapply Forall_impl; [|exact Hall].
    intros x Hx Hb. simpl in Hx. rewrite Hb in Hx. discriminate.
Qed.

End CaptureProps.

(** ** More on the scan of one file *)

Module ScanExtra.

Import Search Samples Captures.
Local Open Scope list_scope.

Lemma scanLoop_Forall (P : matchLine -> Prop) (regex : Regexp.re) :
  (forall line l, Forall P (lineMatch regex line l)) ->
  forall file line lines,
    Forall P lines -> Forall P (scanLoop regex file line lines).
Proof.
  intros HP. induction file as [|text rest IH]; intros line lines Hl; [exact Hl|].
  destruct (textLine text) eqn:E.
  - rewrite ScanProps.scanLoop_text by exact E. apply IH.
    apply Forall_app. split; [exact Hl | apply HP].
  - now rewrite ScanProps.scanLoop_binary.
Qed.

Lemma list_ascii_inj (a b : string) :
  list_ascii_of_string a = list_ascii_of_string b -> a = b.
Proof.
  intros H. rewrite <- (string_of_list_ascii_of_string a),
                    <- (string_of_list_ascii_of_string b).
  now rewrite H.
Qed.

(** X1.  Under the pattern of [parseArgs], every match of a scan has
    one of the configured tags as its tag and a text that is not empty
    and has no line feed, whatever the file holds. *)
Theorem scanFile_tag_is_configured (r : Regexp.re) (file : list string)
  (Hr : Regexp.Compile Marker.query = Some r) :
  Forall (fun m => In (tag m) Marker.tags
                   /\ text m <> EmptyString
                   /\ oneLine (text m))
         (scanFile r file).
Proof.
  rewrite MarkerProps.Compile_query in Hr.
  destruct (CaptureProps.compiled_groups r Hr) as (Hn & Hs1 & Hs2 & Hg1 & Hg2).
  apply scanLoop_Forall; [|constructor].
  intros line l. unfold lineMatch.
  destruct (GoInt.len (Regexp.FindSubmatch r l) >=? 3) eqn:E; [|constructor].
  assert (Hne : Regexp.FindSubmatch r l <> []).
  { intros H0. rewrite H0 in E. discriminate. }
  constructor; [|constructor]. simpl.
  pose proof (CaptureProps.FindSubmatch_group r l 1 Hne) as H1.
  pose proof (CaptureProps.FindSubmatch_group r l 2 Hne) as H2.
  rewrite Hn in H1, H2.
  specialize (H1 ltac:(lia) Hs1). specialize (H2 ltac:(lia) Hs2).
  apply Hg1 in H1. apply Hg2 in H2.
  destruct H1 as (t & Ht & Heq). apply list_ascii_inj in Heq.
  destruct H2 as (Hnonempty & Hline).
  split; [now rewrite Heq|]. split; [|exact Hline].
  intros H0. rewrite H0 in Hnonempty. now apply Hnonempty.
Qed.

Lemma scanFile_tag_is_configured_witness :
  Forall (fun m => In (tag m) Marker.tags
                   /\ text m <> EmptyString
                   /\ oneLine (text m))
         (scanFile rx sampleFile).
Proof.
  apply (scanFile_tag_is_configured rx sampleFile). vm_compute. reflexivity.
Defined.

Section Scan.

Variable regex : Regexp.re.

Lemma scanLoop_prefix (a b : list string) :
  forall line lines,
    exists more,
      scanLoop regex (a ++ b) line lines = scanLoop regex a line lines ++ more.
Proof.
  induction a as [|text a IH]; intros line lines.
  - change ([] ++ b) with b. rewrite ScanProps.scanLoop_acc. simpl. eauto.
  - change ((text :: a) ++ b) with (text :: (a ++ b)).
    destruct (textLine text) eqn:E.
    + rewrite !ScanProps.scanLoop_text by exact E. apply IH.
    + rewrite !ScanProps.scanLoop_binary by exact E. exists []. now rewrite app_nil_r.
Qed.

Lemma scanLoop_length (file : list string) :
  forall line lines,
    (List.length (scanLoop regex file line lines)
     <= List.length lines + List.length file)%nat.
Proof.
  induction file as [|text rest IH]; intros line lines; [simpl; lia|].
  change (List.length (text :: rest)) with (Datatypes.S (List.length rest)).
  destruct (textLine text) eqn:E.
  - rewrite ScanProps.scanLoop_text by exact E.
    specialize (IH (GoInt.wrapInt (line + 1)) (lines ++ lineMatch regex line text)).
    rewrite length_app in IH.
    destruct (ScanProps.lineMatch_cases regex line text) as [Hm | (m & Hm & _)];
      rewrite Hm in IH |- *; simpl in IH; lia.
  - rewrite ScanProps.scanLoop_binary by exact E. lia.
Qed.

(** X2.  Lines added at the end of a file leave the matches of the
    lines before them as they are, and a file never has more matches
    than lines. *)
Theorem scanFile_prefix_stable (a b : list string) :
  (exists more, scanFile regex (a ++ b) = scanFile regex a ++ more)
  /\ (List.length (scanFile regex a) <= List.length a)%nat.
Proof.
  split.
  - apply scanLoop_prefix.
  - apply (scanLoop_length a 1 []).
Qed.

End Scan.

Lemma htmlComment_sniff (rest : string) :
  Sniff.DetectContentType ("<!-- " ++ rest)%string = "text/html; charset=utf-8"%string.
Proof. reflexivity. Qed.

(** X3.  A line that starts with an HTML comment opener is sniffed as
    HTML, not as plain text: the scan of the file stops there, although
    the marker pattern has the opener among its comment leaders. *)
Theorem scanFile_stops_at_html_comment (regex : Regexp.re) (pre : list string)
        (rest : string) (post : list string)
  (Hpre : Forall (fun x => textLine x = true) pre) :
  textLine ("<!-- " ++ rest)%string = false
  /\ scanFile regex (pre ++ ("<!-- " ++ rest)%string :: post) = scanFile regex pre.
Proof.
  assert (Hl : textLine ("<!-- " ++ rest)%string = false).
  { unfold textLine. rewrite htmlComment_sniff. reflexivity. }
  split; [exact Hl|].
  apply ScanProps.scanLoop_stops; assumption.
Qed.

Lemma scanFile_stops_at_html_comment_witness :
  textLine ("<!-- " ++ "TODO: write the intro -->")%string = false
  /\ scanFile rx (["# Title"%string] ++ ("<!-- " ++ "TODO: write the intro -->")%string
                                     :: ["// FIXME: never seen"%string])
     = scanFile rx ["# Title"%string].
Proof.
  apply (scanFile_stops_at_html_comment rx ["# Title"%string] "TODO: write the intro -->"
                                        ["// FIXME: never seen"%string]).
  apply Forall_cons; [vm_compute; reflexivity | apply Forall_nil].
Defined.

(** The pattern itself does match such a line. *)
Example html_comment_matches_pattern :
  Regexp.FindSubmatch rx "<!-- TODO: write the intro -->"
  = ["<!-- TODO: write the intro -->"; "TODO"; "write the intro "]%string.
Proof. vm_compute. reflexivity. Qed.

End ScanExtra.

(** ** More on the blame reader *)

Module BlameExtra.

Import Blame BlameNotions Samples.
Local Open Scope list_scope.

Local Arguments Strings.spaceWidth : simpl never.

(** *** [parseGitBlame] *)

Lemma parseLine_finished (st : parser) (buf : string) (F : list LineBlame) :
  parseLine (mkParser (F ++ finished st) (currentBlame st)) buf
  = mkParser (F ++ finished (parseLine st buf)) (currentBlame (parseLine st buf)).
Proof.
  destruct st as [G cur]. unfold parseLine. simpl.
  destruct (Strings.HasPrefix buf "author ").
  - simpl. destruct cur; [now rewrite app_assoc | reflexivity].
  - destruct (Strings.HasPrefix buf "author-time "); [|reflexivity].
    destruct cur; [|reflexivity].
    destruct (Strconv.ParseInt _); reflexivity.
Qed.

Lemma fold_parseLine_finished (out : list string) :
  forall (st : parser) (F : list LineBlame),
    flushed (fold_left parseLine out (mkParser (F ++ finished st) (currentBlame st)))
    = F ++ flushed (fold_left parseLine out st).
Proof.
  induction out as [|buf out IH]; intros st F; simpl.
  - unfold flushed. simpl. destruct (currentBlame st); [now rewrite app_assoc | reflexivity].
  - rewrite parseLine_finished. apply (IH (parseLine st buf) F).
Qed.

(** X4.  An author line is a record boundary: the parse of a stream is
    the parse of what comes before the author line followed by the
    parse of the stream from that line on. *)
Theorem parseGitBlame_splits_at_author_line (xs : list string) (a : string)
        (ys : list string)
  (Ha : isAuthorLine a = true) :
  parseGitBlame (xs ++ a :: ys) = parseGitBlame xs ++ parseGitBlame (a :: ys).
Proof.
  unfold parseGitBlame. rewrite fold_left_app. simpl.
  set (st := fold_left parseLine xs initial).
  assert (Hst : parseLine st a
                = mkParser (flushed st ++ finished (parseLine initial a))
                           (currentBlame (parseLine initial a))).
  { unfold isAuthorLine in Ha. unfold parseLine, flushed. rewrite Ha. simpl.
    destruct (currentBlame st); now rewrite app_nil_r. }
  rewrite Hst. apply fold_parseLine_finished.
Qed.

Lemma parseGitBlame_splits_at_author_line_witness :
  parseGitBlame (sampleStream ++ "author Grace Hopper"%string :: ["author-time 7"%string])
  = parseGitBlame sampleStream
      ++ parseGitBlame ("author Grace Hopper"%string :: ["author-time 7"%string]).
Proof.
  apply (parseGitBlame_splits_at_author_line sampleStream "author Grace Hopper"
                                             ["author-time 7"%string]).
  reflexivity.
Defined.

Lemma fold_no_author (body : list string) :
  Forall (fun l => isAuthorLine l = false) body ->
  forall st,
    finished (fold_left parseLine body st) = finished st
    /\ currentBlame (fold_left parseLine body st)
       = match currentBlame st with
         | None => None
         | Some cb =>
           Some (mkLineBlame (Author cb)
                   (fold_left
                      (fun ts l =>
                         if isTimeLine l
                         then match Strconv.ParseInt (Strings.TrimPrefix l "author-time ") with
                              | Some t => t
                              | None => ts
                              end
                         else ts)
                      body (Timestamp cb)))
         end.
Proof.
  induction 1 as [|l body Hl _ IH]; intros [G cur]; simpl.
  - split; [reflexivity|]. destruct cur as [[a t]|]; reflexivity.
  - destruct (IH (parseLine (mkParser G cur) l)) as [Hf Hc]. rewrite Hf, Hc.
    unfold isAuthorLine in Hl. unfold parseLine, isTimeLine. rewrite Hl. simpl.
    destruct (Strings.HasPrefix l "author-time ").
    + destruct cur as [cb|]; [|split; reflexivity].
      destruct (Strconv.ParseInt _); split; reflexivity.
    + split; [reflexivity|]. destruct cur; reflexivity.
Qed.

(** X5.  Lines before the first author line give no record; the record
    of an author line has the timestamp of the last timestamp line
    after it that parses, whatever else stands between, and zero when
    there is none. *)
Theorem parseGitBlame_record_timestamp :
  (forall pre : list string,
      Forall (fun l => isAuthorLine l = false) pre -> parseGitBlame pre = [])
  /\ (forall (a : string) (body : list string),
         isAuthorLine a = true ->
         Forall (fun l => isAuthorLine l = false) body ->
         parseGitBlame (a :: body)
         = [mkLineBlame (truncateName (Strings.TrimPrefix a "author ") maxAuthorLength)
                        (timestampOf body)]).
Proof.
  split.
  - intros pre Hpre. unfold parseGitBlame, flushed.
    destruct (fold_no_author pre Hpre initial) as [Hf Hc]. rewrite Hf, Hc. reflexivity.
  - intros a body Ha Hbody. unfold parseGitBlame, flushed. simpl fold_left.
    destruct (fold_no_author body Hbody (parseLine initial a)) as [Hf Hc].
    rewrite Hf, Hc. unfold isAuthorLine in Ha. unfold parseLine. rewrite Ha. reflexivity.
Qed.

Lemma parseGitBlame_record_timestamp_witness :
  parseGitBlame ["author-time 5"%string; "summary x"%string] = []
  /\ parseGitBlame ("author Ada"%string
                      :: ["author-time 12"%string; "author-time soon"%string;
                          "author-tz +0100"%string])
     = [mkLineBlame (truncateName (Strings.TrimPrefix "author Ada" "author ") maxAuthorLength)
                    (timestampOf ["author-time 12"%string; "author-time soon"%string;
                                  "author-tz +0100"%string])].
Proof.
  destruct parseGitBlame_record_timestamp as [Hnone Hrec].
  split.
  - apply Hnone. repeat (apply Forall_cons; [reflexivity|]). apply Forall_nil.
  - apply Hrec; [reflexivity|].
    repeat (apply Forall_cons; [reflexivity|]). apply Forall_nil.
Defined.

(** *** [truncateName] *)

Lemma slen_append (a b : string) :
  GoInt.slen (a ++ b)%string = GoInt.slen a + GoInt.slen b.
Proof.
  unfold GoInt.slen. induction a as [|c a IH]; simpl String.length; [reflexivity|].
  rewrite !Nat2Z.inj_succ, IH. lia.
Qed.

Lemma slen_nonneg (a : string) : 0 <= GoInt.slen a.
Proof. unfold GoInt.slen. lia. Qed.

Lemma slen_Join (ws : list string) :
  ws <> [] -> GoInt.slen (Strings.Join ws " ") = spread ws - 1.
Proof.
  induction ws as [|w ws IH]; [congruence|]. intros _.
  destruct ws as [|w2 ws].
  - simpl. lia.
  - change (Strings.Join (w :: w2 :: ws) " ")
      with (w ++ " " ++ Strings.Join (w2 :: ws) " ")%string.
    rewrite !slen_append, IH by discriminate.
    change (GoInt.slen " ") with 1. simpl spread. lia.
Qed.

Lemma spread_app (xs ys : list string) : spread (xs ++ ys) = spread xs + spread ys.
Proof. induction xs as [|x xs IH]; simpl; [reflexivity|]. rewrite IH. lia. Qed.

Lemma spread_rev (xs : list string) : spread (rev xs) = spread xs.
Proof.
  induction xs as [|x xs IH]; simpl; [reflexivity|].
  rewrite spread_app, IH. simpl. lia.
Qed.

Lemma spread_nonneg (xs : list string) : 0 <= spread xs.
Proof.
  induction xs as [|x xs IH]; simpl; [lia|]. pose proof (slen_nonneg x). lia.
Qed.

(** The fields of a string and their separators fit in the string. *)
Lemma spread_fieldsFrom (s : string) :
  forall skip cur,
    spread (Strings.fieldsFrom s skip cur) <= GoInt.slen s + GoInt.slen cur + 1.
Proof.
  induction s as [|c s IH]; intros skip cur.
  - simpl Strings.fieldsFrom. pose proof (slen_nonneg cur).
    change (GoInt.slen "") with 0.
    destruct cur; unfold Strings.flush; cbn [spread]; lia.
  - assert (Hs : GoInt.slen (String c s) = GoInt.slen s + 1).
    { unfold GoInt.slen. simpl String.length. lia. }
    simpl Strings.fieldsFrom. destruct skip as [|k].
    + destruct (Strings.spaceWidth (String c s)) as [|w].
      * specialize (IH 0%nat (cur ++ String c EmptyString)%string).
        rewrite slen_append in IH. change (GoInt.slen (String c "")) with 1 in IH. lia.
      * rewrite spread_app. specialize (IH w EmptyString).
        change (GoInt.slen "") with 0 in IH.
        assert (Hf : spread (Strings.flush cur) <= GoInt.slen cur + 1).
        { pose proof (slen_nonneg cur).
          destruct cur; unfold Strings.flush; cbn [spread]; lia. }
        lia.
    + specialize (IH k cur). lia.
Qed.

Lemma spread_Fields (name : string) : spread (Strings.Fields name) <= GoInt.slen name + 1.
Proof.
  pose proof (spread_fieldsFrom name 0 EmptyString) as H.
  change (GoInt.slen "") with 0 in H. unfold Strings.Fields. lia.
Qed.

Lemma slen_initialOf (w : string) : GoInt.slen (initialOf w) <= 2.
Proof.
  destruct w as [|c r]; simpl; [unfold GoInt.slen; simpl; lia|].
  unfold Strings.stringOfByte. destruct (Strings.byteOf c <? 128); unfold GoInt.slen; simpl; lia.
Qed.

Lemma spread_initials (ws : list string) :
  spread (map initialOf ws) <= spread ws - saved ws.
Proof.
  induction ws as [|w ws IH]; simpl; [lia|]. pose proof (slen_initialOf w). lia.
Qed.

(** The loop shortens the first words it meets, as long as the count
    is over the limit, and keeps all the others. *)
Lemma truncateWords_shape (maxLength : Z) (l : list string) :
  Forall (fun w => w <> EmptyString) l ->
  forall totalLen,
    exists j, (j <= List.length l)%nat
      /\ truncateWords l totalLen maxLength = map initialOf (firstn j l) ++ skipn j l
      /\ ((j < List.length l)%nat -> totalLen - saved (firstn j l) <= maxLength).
Proof.
  induction 1 as [|w l Hw _ IH]; intros totalLen.
  - exists 0%nat. simpl. split; [lia|]. split; [reflexivity|lia].
  - cbn [truncateWords]. destruct (Z.gtb_spec totalLen maxLength) as [Hgt|Hle].
    + destruct w as [|c r]; [congruence|].
      destruct (IH (totalLen - (GoInt.slen (String c r) - 2))) as (j & Hj & Hshape & Hfit).
      exists (Datatypes.S j). cbn [List.length]. split; [lia|]. split.
      * cbn [firstn skipn map app initialOf]. f_equal. exact Hshape.
      * intros Hlt. cbn [firstn saved].
        assert (Hlt' : (j < List.length l)%nat) by lia. specialize (Hfit Hlt'). lia.
    + exists 0%nat. cbn [List.length]. split; [lia|]. split.
      * cbn [firstn skipn map app]. now rewrite BlameProps.truncateWords_fits.
      * intros _. cbn [firstn saved]. lia.
Qed.

(** X6.  [truncateName] keeps the first words of the name and replaces
    each of the words after them by the string of its first byte; as
    soon as one word is kept, the result is not longer than the limit. *)
Theorem truncateName_keeps_prefix_and_fits (name : string) (maxLength : Z) :
  exists k,
    (k <= List.length (Strings.Fields name))%nat
    /\ truncateName name maxLength
       = Strings.Join (firstn k (Strings.Fields name)
                         ++ map initialOf (skipn k (Strings.Fields name))) " "
    /\ ((0 < k)%nat -> GoInt.slen (truncateName name maxLength) <= maxLength).
Proof.
  set (ws := Strings.Fields name).
  assert (Hne : Forall (fun w => w <> EmptyString) (rev ws))
    by (apply Forall_rev, BlameProps.Fields_nonempty).
  destruct (truncateWords_shape maxLength (rev ws) Hne (GoInt.slen name))
    as (j & Hj & Hshape & Hfit).
  rewrite length_rev in Hj, Hfit.
  exists (List.length ws - j)%nat.
  assert (Hout : rev (truncateWords (rev ws) (GoInt.slen name) maxLength)
                 = firstn (List.length ws - j) ws
                     ++ map initialOf (skipn (List.length ws - j) ws)).
  { rewrite Hshape, rev_app_distr, <- map_rev.
    rewrite firstn_rev, skipn_rev, !rev_involutive. reflexivity. }
  split; [lia|]. split.
  - unfold truncateName. fold ws. now rewrite Hout.
  - intros Hk. unfold truncateName. fold ws.
    assert (Hlt : (j < List.length ws)%nat) by lia. specialize (Hfit Hlt).
    assert (Hnil : truncateWords (rev ws) (GoInt.slen name) maxLength <> []).
    { intros H0. apply (f_equal (@List.length _)) in H0.
      rewrite Hshape, length_app, length_map, length_firstn, length_skipn, length_rev in H0.
      simpl in H0. lia. }
    rewrite slen_Join by (intros H0; apply Hnil; rewrite <- (rev_involutive (truncateWords _ _ _));
                          rewrite H0; reflexivity).
    rewrite spread_rev, Hshape, spread_app.
    pose proof (spread_initials (firstn j (rev ws))) as Hi.
    pose proof (spread_Fields name) as Hf. fold ws in Hf.
    assert (Hsplit : spread (firstn j (rev ws)) + spread (skipn j (rev ws)) = spread ws).
    { rewrite <- spread_app, firstn_skipn. apply spread_rev. }
    lia.
Qed.

Example truncateName_shape_sample :
  truncateName "Johann Sebastian Bach the Third" maxAuthorLength
  = Strings.Join (firstn 1 (Strings.Fields "Johann Sebastian Bach the Third")
                    ++ map initialOf (skipn 1 (Strings.Fields "Johann Sebastian Bach the Third")))
                 " ".
Proof. reflexivity. Qed.

End BlameExtra.

(* ================================================================== *)
(** ** The walk and the worker on arbitrary inputs *)

Module WalkExtra.

Import Search WalkNotions Samples.
Local Open Scope list_scope.

Lemma len_app {A} (xs ys : list A) : GoInt.len (xs ++ ys) = GoInt.len xs + GoInt.len ys.
Proof. unfold GoInt.len. rewrite length_app. lia. Qed.

Lemma len_cons {A} (x : A) (xs : list A) : GoInt.len (x :: xs) = 1 + GoInt.len xs.
Proof. unfold GoInt.len. cbn [List.length]. lia. Qed.

(** The walk on any visits, from any state. *)
Lemma WalkDir_effect (regex : Regexp.re) (visits : list visit) :
  forall st,
    snd (WalkDir visits regex st) = firstError visits
    /\ searchJobs (fst (WalkDir visits regex st))
       = searchJobs st ++ queued regex (untilError visits)
    /\ wg (fst (WalkDir visits regex st))
       = wg st + GoInt.len (queued regex (untilError visits))
    /\ stdout (fst (WalkDir visits regex st)) = stdout st
    /\ wgResult (fst (WalkDir visits regex st)) = wgResult st
    /\ searchResults (fst (WalkDir visits regex st)) = searchResults st.
Proof.
  induction visits as [|v visits IH]; intros st.
  - cbn. rewrite app_nil_r. repeat split. unfold GoInt.len. simpl. lia.
  - cbn [WalkDir untilError firstError]. unfold walk.
    destruct (verr v) as [e|].
    + cbn. rewrite app_nil_r. repeat split. unfold GoInt.len. simpl. lia.
    + unfold queued. cbn [filter]. fold (queued regex (untilError visits)).
      destruct (negb (IsDir (ventry v))).
      * destruct (IH (sendJob (mkJob (vpath v) regex) (wgAdd 1 st)))
          as (He & Hj & Hw & Ho & Hr & Hs).
        rewrite He, Hj, Hw, Ho, Hr, Hs. cbn [map]. rewrite len_cons.
        cbn [sendJob wgAdd searchJobs wg stdout wgResult searchResults].
        rewrite <- app_assoc.
        split; [reflexivity|]. split; [reflexivity|]. split; [unfold queued; lia|].
        split; [reflexivity|]. split; reflexivity.
      * apply IH.
Qed.

(** X7.  The walk queues one job, in order, for every entry that is not
    a directory among those visited before the first error, adds one to
    the job counter for each, touches nothing else, and returns that
    first error; no entry after the first error is queued. *)
Theorem WalkDir_queues_until_first_error (regex : Regexp.re) (visits : list visit)
        (st : state) :
  snd (WalkDir visits regex st) = firstError visits
  /\ searchJobs (fst (WalkDir visits regex st))
     = searchJobs st ++ queued regex (untilError visits)
  /\ wg (fst (WalkDir visits regex st))
     = wg st + GoInt.len (queued regex (untilError visits))
  /\ stdout (fst (WalkDir visits regex st)) = stdout st
  /\ wgResult (fst (WalkDir visits regex st)) = wgResult st
  /\ searchResults (fst (WalkDir visits regex st)) = searchResults st.
Proof. apply WalkDir_effect. Qed.

Example WalkDir_stops_at_error :
  WalkDir [mkVisit "a.go" fileEntry None; mkVisit "src" dirEntry (Some "permission denied"%string);
           mkVisit "b.go" fileEntry None] rx st0
  = (mkState [] 3 0 [mkJob "a.go" rx] [], Some "permission denied"%string).
Proof. vm_compute. reflexivity. Qed.

End WalkExtra.

Module WorkerExtra.

Import Search WalkNotions Samples.
Local Open Scope list_scope.

Section OneWorker.

Variable fs : FS.
Variable matcher : Matcher.

(** Every job is handled, or fails at [os.Stat], or fails at [os.Open]. *)
Lemma job_cases (job : searchJob) :
  handled fs matcher job
  \/ failsToStat fs job
  \/ exists err, failsToOpen fs matcher job err.
Proof.
  unfold handled, skips, opensAs, failsToStat, failsToOpen.
  destruct (Stat fs (path job)) as [info|err] eqn:Hs; [|right; left; eauto].
  destruct (ignored matcher (path job) info) eqn:Hi; [left; left; eauto|].
  destruct (Open fs (path job)) as [f|err] eqn:Ho.
  - left. right. exists f, info. auto.
  - right. right. exists err, info. auto.
Qed.

Lemma handled_not_failing (job : searchJob) :
  handled fs matcher job ->
  ~ failsToStat fs job /\ ~ exists err, failsToOpen fs matcher job err.
Proof.
  intros [(info & Hs & Hi) | (f & info & Hs & Hi & Ho)]; split.
  - intros (e & He). congruence.
  - intros (e & info' & Hs' & Hi' & _). congruence.
  - intros (e & He). congruence.
  - intros (e & info' & Hs' & Hi' & Ho'). congruence.
Qed.

Lemma len_flat_map_jobResults_le (jobs : list searchJob) :
  0 <= GoInt.len (flat_map (jobResults fs matcher) jobs) <= GoInt.len jobs.
Proof.
  induction jobs as [|job jobs IH]; [unfold GoInt.len; simpl; lia|].
  cbn [flat_map]. rewrite WalkExtra.len_app, WalkExtra.len_cons.
  assert (H : 0 <= GoInt.len (jobResults fs matcher job) <= 1).
  { unfold jobResults, resultOf.
    destruct (Stat fs (path job)); [|unfold GoInt.len; simpl; lia].
    destruct (ignored matcher (path job) f); [unfold GoInt.len; simpl; lia|].
    destruct (Open fs (path job)); [|unfold GoInt.len; simpl; lia].
    destruct (scanFile (regex job) l); unfold GoInt.len; simpl; lia. }
  lia.
Qed.

(** Over jobs it skips or scans the worker goes on with what follows;
    the counters, the results and the output after them. *)
Lemma worker_run_handled (done : list searchJob) :
  Forall (handled fs matcher) done ->
  forall (left : list searchJob) (st : state),
    exists st1,
      searchWorker fs matcher (done ++ left) st = searchWorker fs matcher left st1
      /\ searchResults st1 = searchResults st ++ flat_map (jobResults fs matcher) done
      /\ wg st1 = wg st - GoInt.len done
      /\ wgResult st1 = wgResult st + GoInt.len (flat_map (jobResults fs matcher) done)
      /\ stdout st1 = stdout st
      /\ searchJobs st1 = searchJobs st.
Proof.
  induction 1 as [|job done Hjob _ IH]; intros left st.
  - exists st. cbn [app flat_map]. rewrite app_nil_r.
    change (GoInt.len (@nil searchJob)) with 0. change (GoInt.len (@nil searchResult)) with 0.
    repeat split; lia.
  - cbn [app flat_map]. rewrite WalkExtra.len_app, WalkExtra.len_cons.
    destruct Hjob as [Hskip | [f Hopen]].
    + rewrite (WorkerProps.worker_skips fs matcher job (done ++ left) st Hskip).
      rewrite (WorkerProps.jobResults_skips fs matcher job Hskip).
      destruct (IH left (wgAdd (-1) st)) as (st1 & Hrun & Hres & Hwg & Hwr & Hout & Hj).
      exists st1. cbn [wgAdd searchResults wg wgResult stdout searchJobs] in *.
      change (GoInt.len (@nil searchResult)) with 0. cbn [app].
      repeat split; try assumption; lia.
    + rewrite (WorkerProps.jobResults_opens fs matcher job f Hopen).
      destruct Hopen as (info & Hs & Hi & Ho).
      cbn [searchWorker]. rewrite Hs, Hi, Ho. cbv zeta.
      match goal with |- context [searchWorker fs matcher (done ++ left) ?s] =>
        destruct (IH left s) as (st1 & Hrun & Hres & Hwg & Hwr & Hout & Hj) end.
      exists st1. split; [exact Hrun|].
      unfold resultOf. rewrite WorkerProps.len_pos_iff in *.
      destruct (scanFile (regex job) f) as [|m ms];
        cbn [negb wgAdd wgResultAdd sendResult searchResults wg wgResult stdout searchJobs] in *.
      * change (GoInt.len (@nil searchResult)) with 0. cbn [app].
        repeat split; try assumption; lia.
      * change (GoInt.len [mkResult (path job) (m :: ms)]) with 1.
        rewrite Hres, <- app_assoc.
        repeat split; try assumption; lia.
Qed.

(** The jobs up to the first one the worker does not handle. *)
Lemma jobs_split (jobs : list searchJob) :
  exists done left,
    jobs = done ++ left /\ Forall (handled fs matcher) done
    /\ match left with [] => True | job :: _ => ~ handled fs matcher job end.
Proof.
  induction jobs as [|job jobs IH].
  - exists [], []. repeat split. apply Forall_nil.
  - destruct (job_cases job) as [Hh | Hn].
    + destruct IH as (done & left & -> & Hd & Hl).
      exists (job :: done), left. repeat split; [apply Forall_cons; assumption | exact Hl].
    + exists [], (job :: jobs). repeat split; [apply Forall_nil|].
      intros Hh. apply handled_not_failing in Hh. tauto.
Qed.

(** A job that is not handled stops the worker in the state it is in. *)
Lemma worker_stops (job : searchJob) (rest : list searchJob) (st : state) :
  ~ handled fs matcher job ->
  wg (fst (searchWorker fs matcher (job :: rest) st)) = wg st
  /\ snd (searchWorker fs matcher (job :: rest) st) <> Idle.
Proof.
  intros Hn. destruct (job_cases job) as [Hh | [(err & Hs) | (err & Hopen)]];
    [contradiction | |].
  - cbn [searchWorker]. rewrite Hs. destruct (IsNotExist err); cbn; split; (reflexivity || discriminate).
  - rewrite (WorkerProps.worker_open_fails fs matcher job err rest st Hopen).
    cbn. split; (reflexivity || discriminate).
Qed.

End OneWorker.

(** X8.  On any jobs the worker takes a first part of them to their
    end, each of these skipped or scanned, and no job after them: the
    job counter goes down by the number of these jobs, the results sent
    are theirs, in order, and the result counter goes up by the number
    of results; the worker stays ready for more exactly when that part
    is all the jobs, and otherwise it stopped at the next job, which it
    could not stat (it printed a report and returned) or could not open
    (it ended the process). *)
Theorem searchWorker_completes_a_prefix (fs : FS) (matcher : Matcher)
        (jobs : list searchJob) (st : state) :
  exists (done left : list searchJob),
    jobs = done ++ left
    /\ Forall (handled fs matcher) done
    /\ wg (fst (searchWorker fs matcher jobs st)) = wg st - GoInt.len done
    /\ searchResults (fst (searchWorker fs matcher jobs st))
       = searchResults st ++ flat_map (jobResults fs matcher) done
    /\ wgResult (fst (searchWorker fs matcher jobs st))
       = wgResult st + GoInt.len (flat_map (jobResults fs matcher) done)
    /\ (snd (searchWorker fs matcher jobs st) = Idle <-> left = [])
    /\ (forall job rest, left = job :: rest ->
        (exists err, Stat fs (path job) = inr err
                     /\ snd (searchWorker fs matcher jobs st) = Returned
                     /\ stdout (fst (searchWorker fs matcher jobs st))
                        = stdout st ++ [statReport job err])
        \/ (exists err, failsToOpen fs matcher job err
                        /\ snd (searchWorker fs matcher jobs st)
                           = Exited ("couldn't open path " ++ path job ++ ": "
                                       ++ Error err ++ nl)%string
                        /\ stdout (fst (searchWorker fs matcher jobs st)) = stdout st)).
Proof.
  destruct (jobs_split fs matcher jobs) as (done & left & -> & Hdone & Hleft).
  exists done, left. split; [reflexivity|]. split; [exact Hdone|].
  destruct (worker_run_handled fs matcher done Hdone left st)
    as (st1 & Hrun & Hres & Hwg & Hwr & Hout & _).
  rewrite Hrun. destruct left as [|job rest].
  - cbn [searchWorker fst snd]. repeat split; try assumption; try reflexivity.
    intros job rest Hnil. discriminate.
  - destruct (job_cases fs matcher job) as [Hh | [(err & Hs) | (err & Hopen)]];
      [contradiction | |].
    + cbn [searchWorker]. rewrite Hs.
      assert (Hend : (if IsNotExist err
                      then (print (path job ++ " does not exist." ++ nl)%string st1, Returned)
                      else (print ("Error checking " ++ path job ++ ": " ++ Error err ++ nl)%string
                                  st1, Returned))
                     = (print (statReport job err) st1, Returned)).
      { unfold statReport. destruct (IsNotExist err); reflexivity. }
      rewrite Hend. cbn [fst snd print wg searchResults wgResult stdout].
      repeat split; try assumption; try discriminate.
      intros job' rest' Heq. injection Heq as <- <-. left. exists err.
      rewrite Hout. auto.
    + rewrite (WorkerProps.worker_open_fails fs matcher job err rest st1 Hopen).
      cbn [fst snd]. repeat split; try assumption; try discriminate.
      intros job' rest' Heq. injection Heq as <- <-. right. exists err. auto.
Qed.

Example searchWorker_stops_at_missing_file :
  searchWorker sampleFS ignoreBuild [buildJob; sourceJob; goneJob; plainJob] st0
  = (mkState ["gone does not exist." ++ nl]%string 0 1 []
             (jobResults sampleFS ignoreBuild sourceJob),
     Returned).
Proof. vm_compute. reflexivity. Qed.

End WorkerExtra.

(* ================================================================== *)
(** ** The result sink on any blame, and the whole search *)

Module SinkExtra.

Import Blame Search Sink WalkNotions SinkNotions Samples MoreSamples.
Local Open Scope list_scope.

Local Arguments prettiyfyLine : simpl never.
Local Arguments prettiyfyBlame : simpl never.
Local Arguments stylizeFilename : simpl never.
Local Arguments padLineNumber : simpl never.

(** *** [padLineNumber] *)

Lemma length_concat_repeat (k : nat) :
  String.length (String.concat EmptyString (List.repeat " "%string k)) = k.
Proof.
  induction k as [|k IH]; [reflexivity|].
  cbn [List.repeat]. destruct k as [|k]; [reflexivity|].
  cbn [List.repeat String.concat] in *.
  rewrite !SinkProps.length_append. cbn [String.length]. rewrite IH. reflexivity.
Qed.

Lemma Repeat_space (count : Z) :
  (Strings.Repeat " " count = None <-> count < 0)
  /\ forall pad, Strings.Repeat " " count = Some pad -> GoInt.slen pad = count.
Proof.
  unfold Strings.Repeat. destruct (Z.ltb_spec count 0) as [Hneg|Hpos].
  - split; [tauto|]. discriminate.
  - split; [split; [discriminate | lia]|].
    intros pad H. injection H as <-. unfold GoInt.slen.
    rewrite length_concat_repeat. lia.
Qed.

(** X9.  [padLineNumber] panics exactly when the number prints longer
    than the largest number; otherwise what it returns is eight bytes
    longer than the largest number prints, whatever the number: the
    numbers of a result are aligned.  It does not panic on a number
    between zero and the largest. *)
Theorem padLineNumber_aligns (number maxNumber : Z) :
  (padLineNumber number maxNumber = None
   <-> GoInt.slen (Sprint maxNumber) < GoInt.slen (Sprint number))
  /\ (forall s, padLineNumber number maxNumber = Some s ->
                GoInt.slen s = 8 + GoInt.slen (Sprint maxNumber))
  /\ (0 <= number <= maxNumber -> padLineNumber number maxNumber <> None).
Proof.
  destruct (Repeat_space (GoInt.slen (Sprint maxNumber) - GoInt.slen (Sprint number)))
    as (Hnone & Hsome).
  assert (H1 : padLineNumber number maxNumber = None
               <-> GoInt.slen (Sprint maxNumber) < GoInt.slen (Sprint number)).
  { unfold padLineNumber. cbv zeta.
    destruct (Strings.Repeat " " (GoInt.slen (Sprint maxNumber) - GoInt.slen (Sprint number)))
      as [pad|].
    - split; [discriminate|]. intros Hlt.
      assert (Hn : @None string = None) by reflexivity.
      destruct Hnone as [_ Hback]. assert (Hc : Some pad = None) by (apply Hback; lia).
      discriminate.
    - split; [|reflexivity]. intros _. destruct Hnone as [Hfwd _].
      specialize (Hfwd eq_refl). lia. }
  split; [exact H1|]. split.
  - intros s. unfold padLineNumber. cbv zeta.
    destruct (Strings.Repeat " " (GoInt.slen (Sprint maxNumber) - GoInt.slen (Sprint number)))
      as [pad|]; [|discriminate].
    intros H. injection H as <-.
    change (GoInt.slen ("[Line " ++ (pad ++ Sprint number ++ "] "))%string
            = 8 + GoInt.slen (Sprint maxNumber)).
    rewrite !BlameExtra.slen_append, (Hsome pad eq_refl).
    change (GoInt.slen "[Line ") with 6. change (GoInt.slen "] ") with 2. lia.
  - intros Hrange Hnone'. apply H1 in Hnone'.
    pose proof (SinkProps.Sprint_length_mono number maxNumber Hrange). lia.
Qed.

Example padLineNumber_sample :
  padLineNumber 7 1234 = Some "[Line    7] "%string
  /\ padLineNumber 1234 1234 = Some "[Line 1234] "%string
  /\ padLineNumber 1234 7 = None.
Proof. vm_compute. repeat split. Qed.

(** *** [prettiyfyBlame] *)

(** X10.  Outside the plain style, a blame with a time stamp is shown as
    old exactly when the clock is more than thirty days past the time
    stamp, whatever the age limit given; the saturation of the
    subtraction does not change this. *)
Theorem prettiyfyBlame_old_after_thirty_days (env : Env) (now : Time) (blame : LineBlame)
        (ageLimit : Z) (style : Style)
        (Hstyle : style <> PlainStyle)
        (Hts : Timestamp blame <> 0)
        (Hnsec : 0 <= nsec now < 1000000000)
        (Hnow : Z.abs (sec now) <= 2 ^ 60)
        (Hblame : Z.abs (Timestamp blame) <= 2 ^ 60) :
  prettiyfyBlame env now blame ageLimit style
  = if olderThanThirtyDays now (Timestamp blame)
    then Render env OldCommitStyle ("[☠ OLD " ++ Author blame ++ "]")%string
    else ("[" ++ Author blame ++ "]")%string.
Proof.
  unfold prettiyfyBlame.
  assert (Hz : (Timestamp blame =? 0) = false) by (apply Z.eqb_neq; exact Hts).
  assert (Hold : (Sub now (mkTime (Timestamp blame) 0) >? 30 * 24 * Hour)
                 = olderThanThirtyDays now (Timestamp blame)).
  { unfold Sub, olderThanThirtyDays, thirtyDays, Hour, GoInt.minInt64, GoInt.maxInt64.
    cbn [sec nsec]. set (x := sec now - Timestamp blame). set (ns := nsec now) in *.
    destruct (Z.ltb_spec (x * 1000000000 + (ns - 0)) (- 2 ^ 63));
      destruct (Z.gtb_spec (x * 1000000000 + (ns - 0)) (2 ^ 63 - 1));
      destruct (Z.gtb_spec x (30 * 24 * 3600));
      destruct (Z.eqb_spec x (30 * 24 * 3600));
      destruct (Z.gtb_spec ns 0); cbn [orb andb];
      match goal with
      | |- (?a >? ?b) = true => apply Z.gtb_lt; lia
      | |- (?a >? ?b) = false => rewrite Z.gtb_ltb; apply Z.ltb_ge; lia
      end. }
  destruct style; [| |congruence]; rewrite Hz; cbv zeta; rewrite Hold; reflexivity.
Qed.

Lemma prettiyfyBlame_old_after_thirty_days_witness :
  prettiyfyBlame repoEnv (mkTime 1700000100 0) oldBlame 1 FullStyle
  = if olderThanThirtyDays (mkTime 1700000100 0) (Timestamp oldBlame)
    then Render repoEnv OldCommitStyle ("[☠ OLD " ++ Author oldBlame ++ "]")%string
    else ("[" ++ Author oldBlame ++ "]")%string.
Proof.
  apply (prettiyfyBlame_old_after_thirty_days repoEnv (mkTime 1700000100 0) oldBlame 1 FullStyle).
  - discriminate.
  - discriminate.
  - cbn. lia.
  - cbn. lia.
  - cbn. lia.
Defined.

Example prettiyfyBlame_samples :
  prettiyfyBlame repoEnv (mkTime 1700000100 0) oldBlame AGELIMIT FullStyle
  = "[☠ OLD Ada]"%string
  /\ prettiyfyBlame repoEnv (mkTime 1600000100 0) oldBlame AGELIMIT FullStyle
     = "[Ada]"%string
  /\ prettiyfyBlame repoEnv (mkTime 1602592000 0) oldBlame AGELIMIT FullStyle
     = "[Ada]"%string
  /\ prettiyfyBlame repoEnv (mkTime 1602592000 1) oldBlame AGELIMIT FullStyle
     = "[☠ OLD Ada]"%string.
Proof. vm_compute. repeat split. Qed.

(** *** [PrintResult] *)

(** What a run of the sink changes in the shared state: it appends
    [printed] to the output and adds [d] to the result counter. *)
Lemma printLines_effect (env : Env) (gb : GitBlame + error) (result : searchResult)
      (lines : list matchLine) :
  Forall (fun line => 0 <= n line <= MaxLineNumber result) lines ->
  forall k, exists printed k',
    printLines env gb result lines k = Some k'
    /\ Forall2 (printedLine env gb result) lines printed
    /\ shared k' = mkState (stdout (shared k) ++ printed) (wg (shared k))
                           (wgResult (shared k)) (searchJobs (shared k))
                           (searchResults (shared k))
    /\ cwd k' = cwd k.
Proof.
  induction 1 as [|line lines Hline _ IH]; intros k.
  - exists [], k. split; [reflexivity|]. split; [apply Forall2_nil|].
    rewrite app_nil_r. destruct k as [[? ? ? ? ?] ? ?]. split; reflexivity.
  - cbn [printLines]. cbv zeta.
    destruct (SinkProps.padLineNumber_Some _ _ Hline) as [lineNumber Epad]. rewrite Epad.
    destruct gb as [b|e]; [destruct (BlameLine b (n line)) as [lb|e] eqn:Eb|];
      match goal with |- context [printLines env ?gb result lines ?k1] =>
        destruct (IH k1) as (printed & k' & Hrun & Hall & Hsh & Hcwd) end;
      eexists (_ :: printed), k'; (split; [exact Hrun|]); split.
    + apply Forall2_cons; [|exact Hall]. exists lineNumber. split; [exact Epad|].
      unfold lineBlame. rewrite Eb. exists (ticks k). reflexivity.
    + rewrite Hsh, Hcwd. cbn. rewrite <- app_assoc. split; reflexivity.
    + apply Forall2_cons; [|exact Hall]. exists lineNumber. split; [exact Epad|].
      unfold lineBlame. rewrite Eb. reflexivity.
    + rewrite Hsh, Hcwd. cbn. rewrite <- app_assoc. split; reflexivity.
    + apply Forall2_cons; [|exact Hall]. exists lineNumber. split; [exact Epad|].
      reflexivity.
    + rewrite Hsh, Hcwd. cbn. rewrite <- app_assoc. split; reflexivity.
Qed.

Lemma printResult1_effect (env : Env) (result : searchResult) (k : sink) :
  numbered result ->
  exists printed k',
    printResult1 env result k = Some k'
    /\ Forall2 (printedLine env (fst (BlameFile env (cwd k) (Path result))) result)
               (Lines result) printed
    /\ shared k' = mkState (stdout (shared k) ++ [header env result] ++ printed ++ [nl])
                           (wg (shared k)) (wgResult (shared k) - 1)
                           (searchJobs (shared k)) (searchResults (shared k))
    /\ cwd k' = snd (BlameFile env (cwd k) (Path result)).
Proof.
  intros Hnum. unfold printResult1. cbv zeta. cbn [out cwd].
  destruct (BlameFile env (cwd k) (Path result)) as [gb cwd'] eqn:Ebf. cbn [fst snd].
  match goal with |- context [printLines env gb result (Lines result) ?k1] =>
    destruct (printLines_effect env gb result (Lines result)
                (SinkProps.numbered_bounds result Hnum) k1)
      as (printed & k3 & Hrun & Hall & Hsh & Hcwd) end.
  rewrite Hrun. exists printed. eexists. split; [reflexivity|]. split; [exact Hall|].
  cbn [shared cwd out]. rewrite Hsh, Hcwd. unfold wgResultAdd, print, header.
  cbn [stdout wg wgResult searchJobs searchResults shared cwd out].
  unfold print. cbn [stdout wg wgResult searchJobs searchResults].
  rewrite <- !app_assoc. cbn [app].
  replace (wgResult (shared k) - 1) with (wgResult (shared k) + -1) by lia.
  split; reflexivity.
Qed.

(** X11.  For a result with line numbers that are not negative the sink
    prints, with or without a blame: the header, one line for every
    match, in order, each with its padded number and its text, followed
    by the blame exactly when the file and the line have one, and an
    empty line; it counts the result as consumed, leaves the job counter
    alone and goes on with the results that follow, in the directory
    [BlameFile] left the process in. *)
Theorem printResult1_prints_every_line (env : Env) (result : searchResult) (k : sink)
        (Hnum : numbered result) :
  exists printed k',
    printResult1 env result k = Some k'
    /\ Forall2 (printedLine env (fst (BlameFile env (cwd k) (Path result))) result)
               (Lines result) printed
    /\ stdout (shared k') = stdout (shared k) ++ [header env result] ++ printed ++ [nl]
    /\ wgResult (shared k') = wgResult (shared k) - 1
    /\ wg (shared k') = wg (shared k)
    /\ cwd k' = snd (BlameFile env (cwd k) (Path result))
    /\ forall rest, PrintResult env (result :: rest) k = PrintResult env rest k'.
Proof.
  destruct (printResult1_effect env result k Hnum) as (printed & k' & Hrun & Hall & Hsh & Hcwd).
  exists printed, k'. rewrite Hsh. cbn [stdout wgResult wg].
  repeat (split; [first [exact Hrun | exact Hall | exact Hcwd | reflexivity]|]).
  intros rest. cbn [PrintResult]. rewrite Hrun. reflexivity.
Qed.

Lemma printResult1_prints_every_line_witness :
  exists printed k',
    printResult1 repoEnv firstResult sink0 = Some k'
    /\ Forall2 (printedLine repoEnv (fst (BlameFile repoEnv (cwd sink0) (Path firstResult)))
                            firstResult)
               (Lines firstResult) printed
    /\ stdout (shared k') = stdout (shared sink0) ++ [header repoEnv firstResult] ++ printed ++ [nl]
    /\ wgResult (shared k') = wgResult (shared sink0) - 1
    /\ wg (shared k') = wg (shared sink0)
    /\ cwd k' = snd (BlameFile repoEnv (cwd sink0) (Path firstResult))
    /\ forall rest, PrintResult repoEnv (firstResult :: rest) sink0 = PrintResult repoEnv rest k'.
Proof.
  apply (printResult1_prints_every_line repoEnv firstResult sink0).
  apply Forall_cons; [cbn; lia | apply Forall_nil].
Defined.

(** X12.  [BlameFile] leaves the process in the directory of the file
    it blamed, so the sink makes the path of the next result absolute
    from there: after a result whose directory it could enter, the sink
    goes on in that directory. *)
Theorem PrintResult_stays_in_blamed_directory (env : Env) (result : searchResult) (k : sink)
        (absolutePath : string)
        (Hnum : numbered result)
        (Habs : Abs env (cwd k) (Path result) = inl absolutePath)
        (Hcd : Chdir env (Dir env absolutePath) = None) :
  exists k',
    printResult1 env result k = Some k'
    /\ cwd k' = Dir env absolutePath
    /\ forall next rest,
         PrintResult env (result :: next :: rest) k
         = match printResult1 env next k' with
           | Some k'' => PrintResult env rest k''
           | None => None
           end
         /\ fst (BlameFile env (cwd k') (Path next))
            = fst (BlameFile env (Dir env absolutePath) (Path next)).
Proof.
  destruct (printResult1_effect env result k Hnum) as (printed & k' & Hrun & _ & _ & Hcwd).
  exists k'. split; [exact Hrun|].
  assert (Hdir : cwd k' = Dir env absolutePath).
  { rewrite Hcwd. unfold BlameFile. rewrite Habs, Hcd. cbv zeta.
    destruct (pipeErr _); [reflexivity|]. destruct (startErr _); [reflexivity|].
    destruct (waitErr _); reflexivity. }
  split; [exact Hdir|]. intros next rest. split.
  - cbn [PrintResult]. rewrite Hrun. reflexivity.
  - rewrite Hdir. reflexivity.
Qed.

Lemma PrintResult_stays_in_blamed_directory_witness :
  exists k',
    printResult1 repoEnv firstResult sink0 = Some k'
    /\ cwd k' = Dir repoEnv "/work/src/a.go"
    /\ forall next rest,
         PrintResult repoEnv (firstResult :: next :: rest) sink0
         = match printResult1 repoEnv next k' with
           | Some k'' => PrintResult repoEnv rest k''
           | None => None
           end
         /\ fst (BlameFile repoEnv (cwd k') (Path next))
            = fst (BlameFile repoEnv (Dir repoEnv "/work/src/a.go") (Path next)).
Proof.
  apply (PrintResult_stays_in_blamed_directory repoEnv firstResult sink0 "/work/src/a.go").
  - apply Forall_cons; [cbn; lia | apply Forall_nil].
  - reflexivity.
  - reflexivity.
Defined.

(** The second file is in the repository, but its path, relative to the
    directory the search started in, is looked up from the directory of
    the first file: its line is printed without blame. *)
Example PrintResult_second_blame_fails :
  option_map (fun k => (stdout (shared k), cwd k))
             (PrintResult repoEnv [firstResult; secondResult] sink0)
  = Some ([ ("• src/a.go (1 comment)" ++ nl)%string;
            ("[Line 1] ✓ TODO fix this [Ada Lovelace]" ++ nl)%string;
            nl;
            ("• src/b/c.go (1 comment)" ++ nl)%string;
            ("[Line 1] ✐ NOTE see above" ++ nl)%string;
            nl ],
          "/work/src"%string)
  /\ fst (BlameFile repoEnv "/work/src" "src/b/c.go")
     = inr "chdir /work/src/src/b: no such file or directory"%string
  /\ fst (BlameFile repoEnv "/work" "src/b/c.go")
     = inl (mkGitBlame [mkLineBlame "Ada Lovelace" 1700000000]).
Proof. vm_compute. repeat split. Qed.

(** The sink on all its results. *)
Lemma PrintResult_effect (env : Env) (results : list searchResult) :
  Forall numbered results ->
  forall k, exists k',
    PrintResult env results k = Some k'
    /\ wgResult (shared k') = wgResult (shared k) - GoInt.len results
    /\ wg (shared k') = wg (shared k)
    /\ searchJobs (shared k') = searchJobs (shared k)
    /\ searchResults (shared k') = searchResults (shared k)
    /\ List.length (stdout (shared k'))
       = (List.length (stdout (shared k)) + chunks results)%nat.
Proof.
  induction 1 as [|result results Hr _ IH]; intros k.
  - exists k. cbn. change (GoInt.len (@nil searchResult)) with 0.
    repeat split; lia.
  - destruct (printResult1_effect env result k Hr) as (printed & k1 & Hrun & Hall & Hsh & _).
    destruct (IH k1) as (k' & Hrest & Hwr & Hwg & Hj & Hres & Hlen).
    exists k'. cbn [PrintResult]. rewrite Hrun. split; [exact Hrest|].
    rewrite Hwr, Hwg, Hj, Hres, Hlen, Hsh. cbn [wgResult wg searchJobs searchResults stdout].
    rewrite WalkExtra.len_cons, !length_app. cbn [List.length chunks].
    rewrite <- (Forall2_length Hall).
    repeat split; lia.
Qed.

End SinkExtra.

(* ================================================================== *)
(** ** The walk, the worker and the sink together *)

Module SearchExtra.

Import Blame Search Sink WalkNotions SinkNotions SearchNotions Samples MoreSamples.
Local Open Scope list_scope.

(** X13.  When one worker receives all the jobs of a walk, the job
    counter is back at its value before the walk, which is what
    [Search] waits for, exactly when the worker skipped or scanned every
    queued job; it then waits for more jobs.  After a job whose file it
    could not stat or open the counter stays above that value. *)
Theorem Search_jobs_counted_iff_all_handled (fs : FS) (matcher : Matcher)
        (visits : list visit) (regex : Regexp.re) (st : state) :
  (wg (fst (afterWorker fs matcher visits regex st)) = wg st
   <-> Forall (handled fs matcher) (jobsOf regex visits))
  /\ (Forall (handled fs matcher) (jobsOf regex visits)
      -> snd (afterWorker fs matcher visits regex st) = Idle)
  /\ wg st <= wg (fst (afterWorker fs matcher visits regex st)).
Proof.
  unfold afterWorker.
  destruct (WalkExtra.WalkDir_effect regex visits st) as (_ & _ & Hwg & _).
  fold (jobsOf regex visits) in Hwg.
  set (st1 := fst (WalkDir visits regex st)) in *.
  destruct (WorkerExtra.jobs_split fs matcher (jobsOf regex visits))
    as (done & left & Hjobs & Hdone & Hleft).
  destruct (WorkerExtra.worker_run_handled fs matcher done Hdone left st1)
    as (st2 & Hrun & _ & Hwg2 & _).
  rewrite Hjobs in *. rewrite Hrun. rewrite WalkExtra.len_app in Hwg.
  destruct left as [|job rest].
  - cbn [searchWorker fst snd]. change (GoInt.len (@nil searchJob)) with 0 in Hwg.
    rewrite app_nil_r.
    split; [split; [intros _; exact Hdone | intros _; lia]|].
    split; [reflexivity | lia].
  - destruct (WorkerExtra.worker_stops fs matcher job rest st2 Hleft) as (Hsame & Hend).
    rewrite Hsame. rewrite WalkExtra.len_cons in Hwg.
    assert (Hpos : 0 <= GoInt.len rest) by (unfold GoInt.len; lia).
    split; [split|].
    + intros Heq. lia.
    + intros Hall. apply Forall_app in Hall. destruct Hall as [_ Hall].
      inversion Hall; subst. contradiction.
    + split; [|lia].
      intros Hall. apply Forall_app in Hall. destruct Hall as [_ Hall].
      inversion Hall; subst. contradiction.
Qed.

Example Search_missing_file_blocks :
  wg (fst (afterWorker sampleFS ignoreBuild
                       (sampleVisits ++ [mkVisit "gone" fileEntry None]) rx st0))
  = wg st0 + 1.
Proof. vm_compute. reflexivity. Qed.

(** The results of jobs whose files are not longer than the largest
    line number have line numbers the sink can print. *)
Lemma jobResults_numbered (fs : FS) (matcher : Matcher) (jobs : list searchJob) :
  (forall job f, In job jobs -> Open fs (path job) = inl f ->
                 GoInt.len f <= GoInt.maxInt64) ->
  Forall numbered (flat_map (jobResults fs matcher) jobs).
Proof.
  intros Hfiles. apply Forall_flat_map. apply Forall_forall. intros job Hin.
  unfold jobResults.
  destruct (Stat fs (path job)) as [info|]; [|apply Forall_nil].
  destruct (ignored matcher (path job) info); [apply Forall_nil|].
  destruct (Open fs (path job)) as [f|] eqn:Ho; [|apply Forall_nil].
  pose proof (SinkProps.scanFile_numbered (regex job) (path job) f (Hfiles job f Hin Ho)) as Hn.
  unfold resultOf. destruct (scanFile (regex job) f) as [|m ms]; [apply Forall_nil|].
  apply Forall_cons; [exact Hn | apply Forall_nil].
Qed.

(** X14.  A whole search in which the walk queues its jobs, one worker
    handles every one of them and the sink receives the results: the
    sink does not panic, it prints a header, the matched lines and an
    empty line for every file with matches, and both counters are back
    at their values before the walk, so that both waits of [Search]
    return. *)
Theorem Search_counters_return (env : Env) (fs : FS) (matcher : Matcher)
        (visits : list visit) (regex : Regexp.re) (st : state) (dir : string) (t : nat)
        (Hjobs : Forall (handled fs matcher) (jobsOf regex visits))
        (Hfiles : forall job f, In job (jobsOf regex visits) ->
                                Open fs (path job) = inl f ->
                                GoInt.len f <= GoInt.maxInt64) :
  exists st2 k,
    afterWorker fs matcher visits regex st = (st2, Idle)
    /\ searchResults st2
       = searchResults st ++ flat_map (jobResults fs matcher) (jobsOf regex visits)
    /\ wgResult st2
       = wgResult st + GoInt.len (flat_map (jobResults fs matcher) (jobsOf regex visits))
    /\ PrintResult env (flat_map (jobResults fs matcher) (jobsOf regex visits))
                   (mkSink st2 dir t) = Some k
    /\ wg (shared k) = wg st
    /\ wgResult (shared k) = wgResult st
    /\ List.length (stdout (shared k))
       = (List.length (stdout st)
          + chunks (flat_map (jobResults fs matcher) (jobsOf regex visits)))%nat.
Proof.
  unfold afterWorker.
  destruct (WalkExtra.WalkDir_effect regex visits st) as (_ & _ & Hwg & Hout & Hwr & Hres).
  fold (jobsOf regex visits) in Hwg.
  set (st1 := fst (WalkDir visits regex st)) in *.
  destruct (WorkerExtra.worker_run_handled fs matcher (jobsOf regex visits) Hjobs [] st1)
    as (st2 & Hrun & Hres2 & Hwg2 & Hwr2 & Hout2 & _).
  rewrite app_nil_r in Hrun. cbn [searchWorker] in Hrun.
  destruct (SinkExtra.PrintResult_effect env _
              (jobResults_numbered fs matcher (jobsOf regex visits) Hfiles)
              (mkSink st2 dir t))
    as (k & Hprint & Hkr & Hkw & _ & _ & Hlen).
  cbn [shared] in *.
  exists st2, k. split; [exact Hrun|].
  split; [rewrite Hres2, Hres; reflexivity|].
  split; [rewrite Hwr2, Hwr; reflexivity|].
  split; [exact Hprint|].
  split; [lia|]. split; [lia|].
  rewrite Hlen, Hout2, Hout. reflexivity.
Qed.

Lemma Search_counters_return_witness :
  exists st2 k,
    afterWorker sampleFS ignoreBuild sampleVisits rx st0 = (st2, Idle)
    /\ searchResults st2
       = searchResults st0 ++ flat_map (jobResults sampleFS ignoreBuild) (jobsOf rx sampleVisits)
    /\ wgResult st2
       = wgResult st0
         + GoInt.len (flat_map (jobResults sampleFS ignoreBuild) (jobsOf rx sampleVisits))
    /\ PrintResult noRepo (flat_map (jobResults sampleFS ignoreBuild) (jobsOf rx sampleVisits))
                   (mkSink st2 "/work" 0) = Some k
    /\ wg (shared k) = wg st0
    /\ wgResult (shared k) = wgResult st0
    /\ List.length (stdout (shared k))
       = (List.length (stdout st0)
          + chunks (flat_map (jobResults sampleFS ignoreBuild) (jobsOf rx sampleVisits)))%nat.
Proof.
  apply (Search_counters_return noRepo sampleFS ignoreBuild sampleVisits rx st0 "/work" 0).
  - change (jobsOf rx sampleVisits)
      with [mkJob "a.go" rx; mkJob "build/out.go" rx; mkJob "notes.txt" rx].
    apply Forall_cons; [right; exists sampleFile, (mkFileInfo false); repeat split|].
    apply Forall_cons; [left; exists (mkFileInfo false); split; reflexivity|].
    apply Forall_cons; [|apply Forall_nil].
    right. exists ["nothing to see"%string], (mkFileInfo false). repeat split.
  - change (jobsOf rx sampleVisits)
      with [mkJob "a.go" rx; mkJob "build/out.go" rx; mkJob "notes.txt" rx].
    intros job f [<- | [<- | [<- | []]]] Ho; cbn in Ho; injection Ho as <-;
      vm_compute; discriminate.
Defined.

Example Search_sample_output :
  option_map (fun k => stdout (shared k))
             (PrintResult noRepo
                (searchResults (fst (afterWorker sampleFS ignoreBuild sampleVisits rx st0)))
                (mkSink (fst (afterWorker sampleFS ignoreBuild sampleVisits rx st0)) "/work" 0))
  = Some [ ("• a.go (2 comments)" ++ nl)%string;
           ("[Line 3] ✓ TODO fix this" ++ nl)%string;
           ("[Line 4] ⚠ FIXME leak" ++ nl)%string;
           nl ].
Proof. vm_compute. reflexivity. Qed.

(** *** The largest line number of a scan *)

Lemma last_nonempty {A} (l : list A) (d d' : A) : l <> [] -> last l d = last l d'.
Proof.
  induction l as [|x l IH]; [congruence|]. intros _.
  destruct l as [|y l]; [reflexivity|]. cbn [last] in *. apply IH. discriminate.
Qed.

Lemma fold_max_sorted (lines : list matchLine) :
  StronglySorted ascending lines ->
  forall max0,
    Forall (fun m => max0 < n m) lines ->
    fold_left (fun max line => if n line >? max then n line else max) lines max0
    = last (map n lines) max0.
Proof.
  induction 1 as [|m lines Hsorted IH Hall]; intros max0 Hgt; [reflexivity|].
  cbn [fold_left map]. inversion Hgt as [|? ? Hm Hrest]; subst.
  replace (n m >? max0) with true by (symmetry; apply Z.gtb_lt; lia).
  rewrite IH by exact Hall.
  destruct lines as [|m2 lines]; [reflexivity|].
  cbn [map last]. apply (last_nonempty (n m2 :: map n lines)). discriminate.
Qed.

(** X15.  The largest line number of the result of a scan is the number
    of its last match: the line numbers of a file are padded to the
    width of the last one. *)
Theorem MaxLineNumber_of_scan_is_last (regex : Regexp.re) (p : string) (file : list string)
        (Hlen : GoInt.len file <= GoInt.maxInt64) :
  MaxLineNumber (mkResult p (scanFile regex file))
  = last (map n (scanFile regex file)) 0.
Proof.
  destruct (ScanProps.scanLoop_props regex file 1) as [Hfrom Hsorted]; [lia | lia |].
  fold (scanFile regex file) in Hfrom, Hsorted.
  unfold MaxLineNumber. cbn [Lines]. apply fold_max_sorted; [exact Hsorted|].
  eapply Forall_impl; [|exact Hfrom]. intros m [Hm _]. cbv beta. lia.
Qed.

Lemma MaxLineNumber_of_scan_is_last_witness :
  MaxLineNumber (mkResult "a.go" (scanFile rx sampleFile))
  = last (map n (scanFile rx sampleFile)) 0.
Proof.
  apply (MaxLineNumber_of_scan_is_last rx "a.go" sampleFile).
  vm_compute. discriminate.
Defined.

End SearchExtra.
